(** * Verification of the strategy evaluation and execution engine
      of [forex_system.py] (class [ForexSystem])

    The development is a shallow embedding of the methods
    [calc_ret], [calc_trades], [calc_drawdowns], [calc_durations],
    [calc_sharpe], [calc_kelly], [calc_apr], the indicator cache
    ([i_close], [i_open]), the optimizing back-test, the walk-forward
    loop and the live trading loop.

    Conventions.
    - A numpy [float64] is a rational number or one of the three IEEE
      special values.  Arithmetic on the finite values is exact (rounding
      and overflow are not represented, and there is no negative zero);
      the special values follow IEEE 754, which is what the code relies
      on ([fillna], the tests against [inf], the guard [abs(std) < EPS]).
      Every finite result is stored in lowest terms.
    - A [datetime] is a number of minutes, a [timedelta(days=d)] is
      [1440 * d] minutes.
    - A pandas [Series] is the list of its (timestamp, value) rows.
    - Python exceptions are the [Err] results of an error monad. *)

From stdpp Require Import base option list gmap strings pretty.
From Stdlib Require Import ZArith QArith Qabs Qround Lia Lqa.
Local Open Scope Z_scope.

(** ** Numbers *)

Inductive float64 : Type :=
  | Num (q : Q)
  | PInf
  | NInf
  | NaN.

(** Sign of a rational: [Gt] positive, [Eq] zero, [Lt] negative. *)
Definition Qsign (q : Q) : comparison := (q ?= 0)%Q.

Definition inf_of (c : comparison) : float64 :=
  match c with Gt => PInf | Lt => NInf | Eq => NaN end.

Definition fneg (x : float64) : float64 :=
  match x with
  | Num q => Num (Qred (- q))
  | PInf => NInf
  | NInf => PInf
  | NaN => NaN
  end.

Definition fadd (x y : float64) : float64 :=
  match x, y with
  | NaN, _ | _, NaN => NaN
  | Num a, Num b => Num (Qred (a + b))
  | PInf, NInf | NInf, PInf => NaN
  | PInf, _ | _, PInf => PInf
  | NInf, _ | _, NInf => NInf
  end.

Definition fsub (x y : float64) : float64 :=
  match x, y with
  | NaN, _ | _, NaN => NaN
  | Num a, Num b => Num (Qred (a - b))
  | PInf, PInf | NInf, NInf => NaN
  | PInf, _ | _, NInf => PInf
  | NInf, _ | _, PInf => NInf
  end.

Definition fmul (x y : float64) : float64 :=
  match x, y with
  | NaN, _ | _, NaN => NaN
  | Num a, Num b => Num (Qred (a * b))
  | Num a, PInf | PInf, Num a => inf_of (Qsign a)
  | Num a, NInf | NInf, Num a => inf_of (CompOpp (Qsign a))
  | PInf, PInf | NInf, NInf => PInf
  | PInf, NInf | NInf, PInf => NInf
  end.

(** numpy division: a finite number over zero is an infinity of the sign of
    the dividend, [0 / 0] is [NaN]; no exception is raised. *)
Definition fdiv (x y : float64) : float64 :=
  match x, y with
  | NaN, _ | _, NaN => NaN
  | Num a, Num b =>
      if Qeq_bool b 0 then inf_of (Qsign a) else Num (Qred (a / b))
  | Num _, PInf | Num _, NInf => Num 0
  | PInf, Num b => match Qsign b with Lt => NInf | _ => PInf end
  | NInf, Num b => match Qsign b with Lt => PInf | _ => NInf end
  | _, _ => NaN
  end.

Definition fabs (x : float64) : float64 :=
  match x with
  | Num q => Num (Qred (Qabs q))
  | PInf | NInf => PInf
  | NaN => NaN
  end.

(** Comparison; [None] when an operand is [NaN], so that every ordered
    test with a [NaN] is false. *)
Definition fcmp (x y : float64) : option comparison :=
  match x, y with
  | NaN, _ | _, NaN => None
  | Num a, Num b => Some (a ?= b)%Q
  | PInf, PInf | NInf, NInf => Some Eq
  | PInf, _ | _, NInf => Some Gt
  | NInf, _ | _, PInf => Some Lt
  end.

Definition flt (x y : float64) : bool :=
  match fcmp x y with Some Lt => true | _ => false end.
Definition fgt (x y : float64) : bool :=
  match fcmp x y with Some Gt => true | _ => false end.
Definition fle (x y : float64) : bool :=
  match fcmp x y with Some Lt | Some Eq => true | _ => false end.
Definition fge (x y : float64) : bool :=
  match fcmp x y with Some Gt | Some Eq => true | _ => false end.
Definition feqb (x y : float64) : bool :=
  match fcmp x y with Some Eq => true | _ => false end.

Definition is_nan (x : float64) : bool :=
  match x with NaN => true | _ => false end.
Definition is_inf (x : float64) : bool :=
  match x with PInf | NInf => true | _ => false end.
Definition is_finite (x : float64) : Prop :=
  match x with Num _ => True | _ => False end.

Definition of_Z (n : Z) : float64 := Num (inject_Z n).
Definition of_nat (n : nat) : float64 := of_Z (Z.of_nat n).
Definition of_bool (b : bool) : float64 := if b then Num 1 else Num 0.

(** [EPS = 1.0e-5] *)
Definition EPS : float64 := Num (1 # 100000).

(** ** Exceptions *)

Inductive error : Type :=
  | ZeroDivisionError
  | UnboundLocalError (name : string)
  | ValueError
  | OverflowError
  | IndexError
  | TypeError
  | LoadError.

Inductive result (A : Type) : Type :=
  | Ok (a : A)
  | Err (e : error).
Arguments Ok {A} a.
Arguments Err {A} e.

Definition bind {A B} (m : result A) (k : A -> result B) : result B :=
  match m with
  | Ok a => k a
  | Err e => Err e
  end.

Notation "'do' x <- m ; k" := (bind m (fun x => k))
  (at level 10, x pattern, m at level 100, k at level 200).

(** Division of a Python [int] or [float] by a Python [float]: raises on a
    zero divisor. *)
Definition py_div (a b : Q) : result Q :=
  if Qeq_bool b 0 then Err ZeroDivisionError else Ok (Qred (a / b)).

(** Truncation of a rational toward zero. *)
Definition Qtrunc (q : Q) : Z := Z.quot (Qnum q) (Z.pos (Qden q)).

(** [int(x)] on a float: truncation toward zero; [NaN] and the infinities
    raise. *)
Definition py_int (x : float64) : result Z :=
  match x with
  | Num q => Ok (Qtrunc q)
  | NaN => Err ValueError
  | PInf | NInf => Err OverflowError
  end.

(** ** pandas Series *)

Definition Series (A : Type) : Type := list (Z * A).

Definition index {A} (s : Series A) : list Z := map fst s.
Definition values {A} (s : Series A) : list A := map snd s.

(** Label look-up [s[t]] (first row carrying the label). *)
Fixpoint loc {A} (s : Series A) (t : Z) : option A :=
  match s with
  | [] => None
  | (k, v) :: r => if Z.eqb k t then Some v else loc r t
  end.

(** The value a float series takes at [t] after re-indexing: a label that is
    absent is filled with [NaN]. *)
Definition reindex (s : Series float64) (t : Z) : float64 :=
  default NaN (loc s t).

(** Element-wise unary operation; the index is kept. *)
Definition smap {A B} (f : A -> B) (s : Series A) : Series B :=
  map (fun kv => (fst kv, f (snd kv))) s.

(** Union of two ascending indexes (an outer join), ascending. *)
Fixpoint union_index (a : list Z) : list Z -> list Z :=
  fix go (b : list Z) : list Z :=
    match a, b with
    | [], _ => b
    | _, [] => a
    | x :: a', y :: b' =>
        match Z.compare x y with
        | Lt => x :: union_index a' b
        | Eq => x :: union_index a' b'
        | Gt => y :: go b'
        end
    end.

(** Binary operation between two series: pandas aligns the operands on the
    union of their indexes and fills the missing side with [NaN]. *)
Definition align {A B C} (da : A) (db : B) (f : A -> B -> C)
    (a : Series A) (b : Series B) : Series C :=
  map (fun t => (t, f (default da (loc a t)) (default db (loc b t))))
      (union_index (index a) (index b)).

Definition falign (f : float64 -> float64 -> float64)
    (a b : Series float64) : Series float64 :=
  align NaN NaN f a b.

(** [s.shift(n)]: every value moves [n] rows down (up for a negative [n]);
    the rows left empty are [NaN]. *)
Definition shift (n : Z) (s : Series float64) : Series float64 :=
  if 0 <=? n
  then combine (index s) (replicate (Z.to_nat n) NaN ++ values s)
  else combine (index s)
         (drop (Z.to_nat (- n)) (values s) ++ replicate (Z.to_nat (- n)) NaN).

(** [s.shift(1)] and [s.shift(-1)] *)
Definition shift1 (s : Series float64) : Series float64 := shift 1 s.
Definition shiftm1 (s : Series float64) : Series float64 := shift (-1) s.

(** An integer series used in float arithmetic. *)
Definition astype_float (s : Series Z) : Series float64 := smap of_Z s.

(** [s.fillna(v)] *)
Definition fillna (v : float64) (s : Series float64) : Series float64 :=
  smap (fun x => if is_nan x then v else x) s.

(** [s[(s == inf) | (s == -inf)] = 0.0] *)
Definition replace_inf (s : Series float64) : Series float64 :=
  smap (fun x => if feqb x PInf || feqb x NInf then Num 0 else x) s.

(** Label slice [s[start:end]] on an ascending index, both ends included. *)
Definition slice {A} (start end_ : Z) (s : Series A) : Series A :=
  List.filter (fun kv => (start <=? fst kv) && (fst kv <=? end_)) s.

(** [trade.astype(int)]: truncation toward zero; numpy casts a value that is
    not finite to the smallest 64-bit integer. *)
Definition astype_int (s : Series float64) : Series Z :=
  smap (fun x => match x with
                 | Num q => Qtrunc q
                 | _ => - 9223372036854775808
                 end) s.

(** Comparison of an integer series with a scalar, and the element-wise
    tests and conjunction used by the cost model. *)
Definition gt_scalar (s : Series Z) (n : Z) : Series bool :=
  smap (fun v => n <? v) s.
Definition lt_scalar (s : Series Z) (n : Z) : Series bool :=
  smap (fun v => v <? n) s.
Definition gt_series (a b : Series float64) : Series bool :=
  align NaN NaN fgt a b.
Definition lt_series (a b : Series float64) : Series bool :=
  align NaN NaN flt a b.
Definition and_series (a b : Series bool) : Series bool :=
  align false false andb a b.

(** [c * b] for a float [c] and a boolean series [b]. *)
Definition scale_bool (c : float64) (b : Series bool) : Series float64 :=
  smap (fun x => fmul c (of_bool x)) b.

(** ** ReturnModel: [calc_ret] and [calc_trades] *)

(** The local [cost] of [calc_ret]. *)
Definition calc_ret_cost (spread : float64) (signal : Series Z)
    : Series float64 :=
  let sig := astype_float signal in
  let temp1 :=
    falign fmul
      (scale_bool spread
         (and_series (gt_scalar signal 0) (gt_series sig (shift1 sig))))
      (falign fsub sig (shift1 sig)) in
  let temp2 :=
    falign fmul
      (scale_bool spread
         (and_series (lt_scalar signal 0) (lt_series sig (shift1 sig))))
      (falign fsub (shift1 sig) sig) in
  falign fadd temp1 temp2.

(** [calc_ret]; [op] is the series returned by [self.i_open(symbol,
    timeframe, 0)]. *)
Definition calc_ret (op : Series float64) (signal : Series Z)
    (spread : float64) (start end_ : Z) : Series float64 :=
  let cost := calc_ret_cost spread signal in
  let ret :=
    falign fdiv
      (falign fsub
         (falign fmul (falign fsub (shiftm1 op) op) (astype_float signal))
         cost)
      op in
  let ret := fillna (Num 0) ret in
  let ret := replace_inf ret in
  slice start end_ ret.

(** The local [trade] of [calc_trades], after [fillna(0)] and
    [astype(int)]. *)
Definition calc_trades_trade (signal : Series Z) : Series Z :=
  let sig := astype_float signal in
  let temp1 :=
    falign fmul
      (smap of_bool
         (and_series (gt_scalar signal 0) (gt_series sig (shift1 sig))))
      (falign fsub sig (shift1 sig)) in
  let temp2 :=
    falign fmul
      (smap of_bool
         (and_series (lt_scalar signal 0) (lt_series sig (shift1 sig))))
      (falign fsub (shift1 sig) sig) in
  let trade := falign fadd temp1 temp2 in
  let trade := fillna (Num 0) trade in
  astype_int trade.

Definition Zsum (l : list Z) : Z := fold_left Z.add l 0.

Definition calc_trades (signal : Series Z) (start end_ : Z) : Z :=
  Zsum (values (slice start end_ (calc_trades_trade signal))).

(** ** PerformanceAnalyzer *)

Definition dropna (l : list float64) : list float64 :=
  List.filter (fun x => negb (is_nan x)) l.

Definition fsum (l : list float64) : float64 := fold_left fadd l (Num 0).

(** [Series.sum()], [Series.prod()], [Series.mean()]: [NaN] rows are
    skipped. *)
Definition series_sum (s : Series float64) : float64 :=
  fsum (dropna (values s)).

Definition series_prod (s : Series float64) : float64 :=
  fold_left fmul (dropna (values s)) (Num 1).

Definition series_mean (s : Series float64) : float64 :=
  let v := dropna (values s) in
  fdiv (fsum v) (of_nat (length v)).

(** [Series.var()]: sample variance ([ddof = 1]) of the rows that are not
    [NaN]; [NaN] when at most one row is left. *)
Definition series_var (s : Series float64) : float64 :=
  let v := dropna (values s) in
  let n := length v in
  if (n <=? 1)%nat then NaN
  else
    let avg := fdiv (fsum v) (of_nat n) in
    fdiv (fsum (map (fun x => fmul (fsub avg x) (fsub avg x)) v))
         (of_nat (n - 1)).

(** [Series.cumprod()]: running product; a [NaN] row stays [NaN] and is
    skipped by the product. *)
Fixpoint cumprod_from (acc : float64) (l : list float64) : list float64 :=
  match l with
  | [] => []
  | x :: r =>
      if is_nan x then NaN :: cumprod_from acc r
      else let acc' := fmul acc x in acc' :: cumprod_from acc' r
  end.

Definition cumprod (l : list float64) : list float64 :=
  cumprod_from (Num 1) l.

(** [cum_ret = (ret + 1.0).cumprod() - 1.0], as a numpy array. *)
Definition cum_ret (ret : Series float64) : list float64 :=
  map (fun x => fsub x (Num 1))
      (cumprod (map (fun x => fadd x (Num 1)) (values ret))).

(** [years = (end - start).total_seconds() / 60 / 60 / 24 / 365], a Python
    float. *)
Definition years (start end_ : Z) : Q :=
  Qred (inject_Z (60 * (end_ - start)) / 60 / 60 / 24 / 365).

(** The arrays filled by the jitted loops, cell [i] as a function of the
    cells before it. *)
Section Arrays.
Variable cum : list float64.

Definition cell (i : nat) : float64 := nth i cum NaN.

Fixpoint high_watermark (i : nat) : float64 :=
  match i with
  | O => cell 0
  | S j =>
      if fge (high_watermark j) (cell i) then high_watermark j
      else cell i
  end.

(** For [i = 0] the guarded branch reads [drawdown[-1]], the last cell of
    the array, which still holds the zero it was created with. *)
Fixpoint drawdown (i : nat) : float64 :=
  if flt (fabs (fadd (Num 1) (cell i))) EPS then
    match i with
    | O => Num 0
    | S j => drawdown j
    end
  else
    fsub (fdiv (fadd (Num 1) (high_watermark i)) (fadd (Num 1) (cell i)))
         (Num 1).

Fixpoint duration (i : nat) : float64 :=
  match i with
  | O => drawdown 0
  | S j =>
      if feqb (drawdown i) (Num 0) then Num 0
      else fadd (duration j) (Num 1)
  end.
End Arrays.

(** The last loop of both functions: the value of the accumulator after
    iteration [i]. *)
Fixpoint running_max (a : nat -> float64) (i : nat) : float64 :=
  match i with
  | O => a O
  | S j =>
      let m := running_max a j in
      if fgt (a i) m then a i else m
  end.

Definition calc_drawdowns (ret : Series float64) : result float64 :=
  let cum := cum_ret ret in
  match length cum with
  | O => Err (UnboundLocalError "drawdowns")
  | S n => Ok (running_max (drawdown cum) n)
  end.

Definition calc_durations (ret : Series float64) (timeframe : Z)
    : result Z :=
  let cum := cum_ret ret in
  match length cum with
  | O => Err (UnboundLocalError "durations")
  | S n =>
      let durations := running_max (duration cum) n in
      do per_day <- py_div 1440 (inject_Z timeframe);
      py_int (fdiv durations (Num per_day))
  end.

Definition calc_apr (ret : Series float64) (start end_ : Z) : float64 :=
  let rate := fsub (series_prod (smap (fun x => fadd x (Num 1)) ret)) (Num 1) in
  fdiv rate (Num (years start end_)).

Section Sqrt.
(** The square root of a non-negative rational, as the machine computes
    it; nothing is assumed about it. *)
Variable sqrtQ : Q -> Q.

Definition np_sqrt (x : float64) : float64 :=
  match x with
  | Num q => match Qsign q with Lt => NaN | _ => Num (Qred (sqrtQ q)) end
  | PInf => PInf
  | NInf | NaN => NaN
  end.

(** [Series.std()] *)
Definition series_std (s : Series float64) : float64 :=
  np_sqrt (series_var s).

Definition calc_kelly (ret : Series float64) : float64 :=
  let mean := series_mean ret in
  let std := series_std ret in
  if flt (fabs std) EPS then Num 0
  else fdiv mean (fmul std std).

Definition calc_sharpe (ret : Series float64) (start end_ : Z)
    : result float64 :=
  let bars := length ret in
  do num_bar_per_year <-
    py_div (inject_Z (Z.of_nat bars)) (years start end_);
  let mean := series_mean ret in
  let std := series_std ret in
  if flt (fabs std) EPS then Ok (Num 0)
  else Ok (fdiv (fmul (np_sqrt (Num num_bar_per_year)) mean) std).
End Sqrt.

(** ** Optimizer: [scipy.optimize.brute] with [finish=None] *)

Fixpoint map_result {A B} (f : A -> result B) (l : list A)
    : result (list B) :=
  match l with
  | [] => Ok []
  | x :: r => do y <- f x; do ys <- map_result f r; Ok (y :: ys)
  end.

(** One axis of [numpy.mgrid] for the slice [(start, stop, step)]:
    [ceil((stop - start) / step)] points [start + k * step]. *)
Definition axis (r : Q * Q * Q) : result (list Q) :=
  let '(start, stop, step) := r in
  do n <- py_div (stop - start) step;
  Ok (map (fun k => Qred (start + inject_Z (Z.of_nat k) * step))
          (seq 0 (Z.to_nat (Qceiling n)))).

(** The points of the grid in row-major order: the last axis varies
    fastest. *)
Fixpoint cartesian (axes : list (list Q)) : list (list Q) :=
  match axes with
  | [] => [[]]
  | a :: rest => flat_map (fun x => map (cons x) (cartesian rest)) a
  end.

Definition mgrid (rranges : list (Q * Q * Q)) : result (list (list Q)) :=
  do axes <- map_result axis rranges;
  Ok (cartesian axes).

(** [numpy.argmin] on a flat array: the scan keeps the first smallest
    value, and stops on the first [NaN], which it takes as the minimum. *)
Fixpoint argmin_from (best : float64) (ibest i : nat) (l : list float64)
    : nat :=
  match l with
  | [] => ibest
  | x :: r =>
      if is_nan best then ibest
      else if negb (fge x best) then argmin_from x i (S i) r
      else argmin_from best ibest (S i) r
  end.

Definition argmin (l : list float64) : result nat :=
  match l with
  | [] => Err ValueError
  | x :: r => Ok (argmin_from x 0 1 r)
  end.

(** [brute(func, rranges, finish=None)]: the objective is evaluated on the
    whole grid and the point at the [argmin] is returned. *)
Definition brute (func : list Q -> result float64)
    (rranges : list (Q * Q * Q)) : result (list Q) :=
  do grid <- mgrid rranges;
  do Jout <- map_result func grid;
  do indx <- argmin Jout;
  Ok (nth indx grid []).

(** ** BacktestRunner *)

Record performance : Type := {
  p_ret : Series float64;
  p_trades : Z;
  p_apr : float64;
  p_sharpe : float64;
  p_kelly : float64;
  p_drawdowns : float64;
  p_durations : Z;
  p_signal : Series Z
}.

Section Backtest.
Variable sqrtQ : Q -> Q.
(** The signal function of the strategy: parameter vector, window,
    [optimization], [min_trade]; the other arguments are fixed during a
    run. *)
Variable calc_signal : list Q -> Z -> Z -> Z -> Z -> Series Z.
(** The open prices [i_open(symbol, timeframe, 0)]. *)
Variable op : Series float64.
Variable timeframe : Z.
Variable spread : float64.

(** The inner function [calc_performance]: the negated fitness when
    [optimization == 1], the report otherwise. *)
Definition calc_performance (parameter : list Q) (start end_ : Z)
    (optimization : Z) (min_trade : Z) : result (float64 + performance) :=
  let signal := calc_signal parameter start end_ optimization min_trade in
  let ret := calc_ret op signal spread start end_ in
  let trades := calc_trades signal start end_ in
  do sharpe <- calc_sharpe sqrtQ ret start end_;
  if optimization =? 1 then
    let years := years start end_ in
    let fitness :=
      if fge (fdiv (of_Z trades) (Num years)) (of_Z min_trade)
      then sharpe else Num 0 in
    Ok (inl (fneg fitness))
  else
    let apr := calc_apr ret start end_ in
    let kelly := calc_kelly sqrtQ ret in
    do drawdowns <- calc_drawdowns ret;
    do durations <- calc_durations ret timeframe;
    Ok (inr {| p_ret := ret; p_trades := trades; p_apr := apr;
               p_sharpe := sharpe; p_kelly := kelly;
               p_drawdowns := drawdowns; p_durations := durations;
               p_signal := signal |}).

(** The objective handed to [brute]. *)
Definition objective (start end_ min_trade : Z) (parameter : list Q)
    : result float64 :=
  do r <- calc_performance parameter start end_ 1 min_trade;
  match r with
  | inl v => Ok v
  | inr _ => Err TypeError
  end.

Definition evaluate (parameter : list Q) (start end_ min_trade : Z)
    : result performance :=
  do r <- calc_performance parameter start end_ 0 min_trade;
  match r with
  | inr p => Ok p
  | inl _ => Err TypeError
  end.

(** [backtest], up to the report: the parameter used and the
    performance of the window. *)
Definition backtest (parameter : list Q) (rranges : list (Q * Q * Q))
    (optimization min_trade start end_ : Z)
    : result (list Q * performance) :=
  do parameter <-
    (if optimization =? 1
     then brute (objective start end_ min_trade) rranges
     else Ok parameter);
  do p <- evaluate parameter start end_ min_trade;
  Ok (parameter, p).
End Backtest.

(** ** WalkForwardRunner *)

(** [timedelta(days=d)] in minutes. *)
Definition days (d : Z) : Z := 1440 * d.

Record window : Type := {
  start_train : Z;
  end_train : Z;
  start_test : Z;
  end_test : Z
}.

(** The variables of the loop of [walk_forward_test]; [signal_all],
    [start_all] and [end_all] are unbound until they are first assigned.
    [rows] are the rows written to the report so far, oldest first. *)
Record wf_state : Type := {
  wf_i : nat;
  wf_parameter : list Q;
  wf_signal_all : option (Series Z);
  wf_start_all : option Z;
  wf_end_all : option Z;
  wf_rows : list (window * list Q * performance)
}.

(** Reading a local variable. *)
Definition local {A} (name : string) (v : option A) : result A :=
  match v with
  | Some a => Ok a
  | None => Err (UnboundLocalError name)
  end.

Section WalkForward.
Variables timeframe in_sample_period out_of_sample_period : Z.
Variable fixed_window : Z.
Variables start end_ : Z.

(** The four bounds computed at the top of iteration [i]. *)
Definition window_of (i : nat) : window :=
  if fixed_window =? 1 then
    let start_train := start + days (out_of_sample_period * Z.of_nat i) in
    let end_train := start_train + days in_sample_period - timeframe in
    let start_test := end_train + timeframe in
    let end_test := start_test + days out_of_sample_period - timeframe in
    {| start_train := start_train; end_train := end_train;
       start_test := start_test; end_test := end_test |}
  else
    let start_train := start in
    let end_train :=
      start_train + days (out_of_sample_period * Z.of_nat i)
      + days in_sample_period - timeframe in
    let start_test := end_train + timeframe in
    let end_test := start_test + days out_of_sample_period - timeframe in
    {| start_train := start_train; end_train := end_train;
       start_test := start_test; end_test := end_test |}.

(** What an iteration does with its window: the optimization on the
    train window, the evaluation on the test window and the report row.
    It returns the parameter in force and the performance, or raises. *)
Variable run_window :
  nat -> list Q -> window -> result (list Q * performance).

(** One pass through the body of [while True]: [None] is the [break]. *)
Definition wf_step (st : wf_state) : option (result wf_state) :=
  let i := wf_i st in
  let w := window_of i in
  if end_ <? end_test w then None
  else Some (
    do (parameter, p) <- run_window i (wf_parameter st) w;
    let segment := slice (start_test w) (end_test w) (p_signal p) in
    let rows := wf_rows st ++ [(w, parameter, p)] in
    if (i =? 0)%nat then
      Ok {| wf_i := S i; wf_parameter := parameter;
            wf_signal_all := Some segment;
            wf_start_all := Some (start_test w);
            wf_end_all := wf_end_all st;
            wf_rows := rows |}
    else
      do signal_all <- local "signal_all" (wf_signal_all st);
      Ok {| wf_i := S i; wf_parameter := parameter;
            wf_signal_all := Some (signal_all ++ segment);
            wf_start_all := wf_start_all st;
            wf_end_all := Some (end_test w);
            wf_rows := rows |}).

(** The loop, for at most [fuel] passes; [None] when the passes are used
    up before the [break]. *)
Fixpoint wf_loop (fuel : nat) (st : wf_state) : option (result wf_state) :=
  match fuel with
  | O => None
  | S fuel' =>
      match wf_step st with
      | None => Some (Ok st)
      | Some (Err e) => Some (Err e)
      | Some (Ok st') => wf_loop fuel' st'
      end
  end.

Definition wf_init (parameter : list Q) : wf_state :=
  {| wf_i := 0; wf_parameter := parameter; wf_signal_all := None;
     wf_start_all := None; wf_end_all := None; wf_rows := [] |}.

Variable sqrtQ : Q -> Q.
Variable op : Series float64.
Variable spread : float64.

(** The aggregate computed after the loop from the three variables the
    loop leaves behind. *)
Definition calc_aggregate (signal_all : Series Z) (start_all end_all : Z)
    : result performance :=
  let ret_all := calc_ret op signal_all spread start_all end_all in
  let trades_all := calc_trades signal_all start_all end_all in
  let apr_all := calc_apr ret_all start_all end_all in
  do sharpe_all <- calc_sharpe sqrtQ ret_all start_all end_all;
  let kelly_all := calc_kelly sqrtQ ret_all in
  do drawdowns_all <- calc_drawdowns ret_all;
  do durations_all <- calc_durations ret_all timeframe;
  Ok {| p_ret := ret_all; p_trades := trades_all; p_apr := apr_all;
        p_sharpe := sharpe_all; p_kelly := kelly_all;
        p_drawdowns := drawdowns_all; p_durations := durations_all;
        p_signal := signal_all |}.

Definition wf_aggregate (st : wf_state) : result performance :=
  do signal_all <- local "signal_all" (wf_signal_all st);
  do start_all <- local "start_all" (wf_start_all st);
  do end_all <- local "end_all" (wf_end_all st);
  calc_aggregate signal_all start_all end_all.

(** [walk_forward_test], up to the printed report: the rows of the
    windows and the aggregate. *)
Definition walk_forward_run (fuel : nat) (parameter : list Q)
    : option (result (list (window * list Q * performance) * performance)) :=
  match wf_loop fuel (wf_init parameter) with
  | None => None
  | Some (Err e) => Some (Err e)
  | Some (Ok st) =>
      Some (do agg <- wf_aggregate st; Ok (wf_rows st, agg))
  end.
End WalkForward.



(** ** ExecutionLoop: [trade] *)

Inductive side : Type := Buy | Sell.

(** What an iteration does to the outside world, in order. *)
Inductive event : Type :=
  | OrderClose (ticket : Z)
  | OrderSend (s : side) (ticket : Z)
  | WriteEA (value : Z)
  | SendMail
  | Snapshot
  | LineDown.

(** The local variables of [trade] that live across iterations. *)
Record live_state : Type := {
  pre_bid : Q;
  pre_ask : Q;
  pre_history_time : option Z;
  ticket : Z;
  pos : Z
}.

(** What the broker and the strategy answer during one iteration; each call
    may raise. *)
Record answers : Type := {
  a_bid : result Q;
  a_ask : result Q;
  a_history_time : result Z;
  a_signal : result Z;
  a_order_close : result unit;
  a_order_send : result Z;
  a_positions : result unit
}.

(** Statements of the loop body: they read and write the local variables,
    append to the trace, and may raise; what was done before an exception
    stays done. *)
Definition stmt (A : Type) : Type :=
  live_state -> list event -> result A * live_state * list event.

Definition ret {A} (a : A) : stmt A := fun st tr => (Ok a, st, tr).

Definition seq_ {A B} (m : stmt A) (k : A -> stmt B) : stmt B :=
  fun st tr =>
    match m st tr with
    | (Ok a, st', tr') => k a st' tr'
    | (Err e, st', tr') => (Err e, st', tr')
    end.

Notation "'run' x <- m ; k" := (seq_ m (fun x => k))
  (at level 10, x pattern, m at level 100, k at level 200).
Notation "'exec' m ; k" := (seq_ m (fun _ => k))
  (at level 10, m at level 100, k at level 200).

Definition call {A} (r : result A) : stmt A := fun st tr => (r, st, tr).
Definition emit (e : event) : stmt unit := fun st tr => (Ok tt, st, tr ++ [e]).
Definition get : stmt live_state := fun st tr => (Ok st, st, tr).
Definition put (st : live_state) : stmt unit := fun _ tr => (Ok tt, st, tr).
Definition when (b : bool) (m : stmt unit) : stmt unit :=
  if b then m else ret tt.

Definition Qabs_ge (x eps : Q) : bool := Qle_bool eps (Qabs x).

Section Trade.
Variable spread : Q.
Variables ea mail : Z.
Variable a : answers.

Definition eps : Q := 1 # 100000.

(** The two notifications that follow every order: the file read by the
    EA and the mail. *)
Definition notify (signal : Z) : stmt unit :=
  exec when (ea =? 1) (emit (WriteEA (signal + 2)));
  when (mail =? 1) (emit SendMail).

Definition close_position (signal : Z) : stmt unit :=
  run st <- get;
  exec call (a_order_close a);
  exec emit (OrderClose (ticket st));
  exec notify signal;
  run st <- get;
  put {| pre_bid := pre_bid st; pre_ask := pre_ask st;
         pre_history_time := pre_history_time st;
         ticket := 0; pos := 0 |}.

Definition open_position (s : side) (signal : Z) : stmt unit :=
  run t <- call (a_order_send a);
  exec emit (OrderSend s t);
  run st <- get;
  exec put {| pre_bid := pre_bid st; pre_ask := pre_ask st;
              pre_history_time := pre_history_time st;
              ticket := t; pos := match s with Buy => 1 | Sell => -1 end |};
  notify signal.

(** The order management of a newly completed bar. *)
Definition manage_orders (bid ask : Q) (signal : Z) : stmt unit :=
  run st <- get;
  exec (if (pos st =? 1) && negb (signal =? 1) then close_position signal
        else if (pos st =? -1) && negb (signal =? -1)
             then close_position signal
        else ret tt);
  run st <- get;
  when ((pos st =? 0) && Qle_bool (ask - bid) spread)
    (if signal =? 1 then open_position Buy signal
     else if signal =? -1 then open_position Sell signal
     else ret tt).

(** The body of the [try]. *)
Definition trade_body : stmt unit :=
  run bid <- call (a_bid a);
  run ask <- call (a_ask a);
  run st <- get;
  when (Qabs_ge (bid - pre_bid st) eps || Qabs_ge (ask - pre_ask st) eps)
    (exec put {| pre_bid := bid; pre_ask := ask;
                 pre_history_time := pre_history_time st;
                 ticket := ticket st; pos := pos st |};
     run history_time <- call (a_history_time a);
     run st <- get;
     exec when (negb (bool_decide (Some history_time = pre_history_time st)))
       (exec put {| pre_bid := pre_bid st; pre_ask := pre_ask st;
                    pre_history_time := Some history_time;
                    ticket := ticket st; pos := pos st |};
        run signal <- call (a_signal a);
        manage_orders bid ask signal);
     exec call (a_positions a);
     emit Snapshot).

(** One pass through [while True]: the [except] clause reports the line
    as down and the loop goes on. *)
Definition trade_iteration (st : live_state) : live_state * list event :=
  match trade_body st [] with
  | (Ok _, st', tr) => (st', tr)
  | (Err _, st', tr) => (st', tr ++ [LineDown])
  end.
End Trade.

(** The local variables before the first iteration. *)
Definition trade_init : live_state :=
  {| pre_bid := 0; pre_ask := 0; pre_history_time := None;
     ticket := 0; pos := 0 |}.

(** [trade] over the answers of its first iterations: the loop itself never
    ends.  The result is the local variables and the trace so far. *)
Definition trade (spread : Q) (ea mail : Z) (feed : list answers)
    : live_state * list event :=
  fold_left
    (fun acc a =>
       let '(st, tr) := trade_iteration spread ea mail a (fst acc) in
       (st, snd acc ++ tr))
    feed (trade_init, []).

(** ** TimeSeriesCache: the indicators [i_close], [i_high], [i_low],
       [i_open] and [i_bandwalk] *)

(** A file of the temporary folder: a pickled series, or bytes that
    [joblib.load] cannot read. *)
Inductive artifact : Type :=
  | Pickle (s : Series float64)
  | Corrupt.

Definition joblib_load (f : artifact) : result (Series float64) :=
  match f with
  | Pickle s => Ok s
  | Corrupt => Err LoadError
  end.

(** Statements that read and write the temporary folder and may raise. *)
Definition io (A : Type) : Type :=
  gmap string artifact -> result A * gmap string artifact.

Definition io_ret {A} (a : A) : io A := fun fs => (Ok a, fs).

Definition io_bind {A B} (m : io A) (k : A -> io B) : io B :=
  fun fs =>
    match m fs with
    | (Ok a, fs') => k a fs'
    | (Err e, fs') => (Err e, fs')
    end.

Notation "'io!' x <- m ; k" := (io_bind m (fun x => k))
  (at level 10, x pattern, m at level 100, k at level 200).

Definition io_call {A} (r : result A) : io A := fun fs => (r, fs).

(** [os.path.exists(file_path)] *)
Definition path_exists (file_path : string) : io bool :=
  fun fs => (Ok (bool_decide (is_Some (fs !! file_path))), fs).

(** [joblib.load(file_path)] *)
Definition load (file_path : string) : io (Series float64) :=
  fun fs =>
    match fs !! file_path with
    | Some f => (joblib_load f, fs)
    | None => (Err LoadError, fs)
    end.

(** [joblib.dump(value, file_path)] *)
Definition dump (value : Series float64) (file_path : string) : io unit :=
  fun fs => (Ok tt, <[file_path := Pickle value]> fs).

(** Median of a window of finite numbers (insertion sort, then the middle
    value or the mean of the two middle values). *)
Fixpoint insert_sorted (x : Q) (l : list Q) : list Q :=
  match l with
  | [] => [x]
  | y :: r => if Qle_bool x y then x :: l else y :: insert_sorted x r
  end.

Definition sort_Q (l : list Q) : list Q := foldr insert_sorted [] l.

Fixpoint finite_values (l : list float64) : option (list Q) :=
  match l with
  | [] => Some []
  | Num q :: r => option_map (cons q) (finite_values r)
  | _ :: _ => None
  end.

Definition median (win : list float64) : float64 :=
  match finite_values win with
  | None => NaN
  | Some qs =>
      let s := sort_Q qs in
      let n := length s in
      if (n =? 0)%nat then NaN
      else if Nat.even n
           then Num (Qred ((nth (n / 2 - 1) s 0 + nth (n / 2) s 0) / 2)%Q)
           else Num (nth (n / 2) s 0%Q)
  end.

(** [s.rolling(window=period).median()]: [NaN] until the window is full. *)
Definition rolling_median (period : nat) (s : Series float64)
    : Series float64 :=
  let vs := values s in
  imap (fun i kv =>
          (fst kv,
           if (S i <? period)%nat then NaN
           else median (take period (drop (S i - period) vs))))
       s.

(** The jitted loop [calc_bandwalk]. *)
Fixpoint calc_bandwalk (up down : Z) (rows : list (float64 * float64 * float64))
    : list float64 :=
  match rows with
  | [] => []
  | (high, low, median) :: r =>
      let up := if fgt low median then up + 1 else 0 in
      let down := if flt high median then down + 1 else 0 in
      of_Z (up - down) :: calc_bandwalk up down r
  end.

Section Indicators.
(** [environment is None] is the back-test; otherwise the live session
    with its price history: the series of a candle field. *)
Variable environment : option (string -> Z -> string -> result (Series float64)).
(** [self.path] *)
Variable path : string.
(** [pd.read_csv(filename, index_col=0, header=0)]: the columns of the
    historical file. *)
Variable read_csv : string -> result (nat -> Series float64).
(** [x ** y] on floats *)
Variable powQ : Q -> Q -> Q.

Definition str (n : Z) : string := pretty n.

Definition is_backtest : bool :=
  match environment with None => true | Some _ => false end.

(** The common shape of [i_open], [i_high], [i_low] and [i_close]. *)
Definition i_column (name : string) (column : nat) (field : string)
    (symbol : string) (timeframe shift_ : Z) : io (Series float64) :=
  let file_path :=
    path +:+ "/tmp/" +:+ name +:+ "_" +:+ symbol +:+ str timeframe +:+ "_"
         +:+ str shift_ +:+ ".pkl" in
  match environment with
  | None =>
      io! found <- path_exists file_path;
      if found then load file_path
      else
        let filename :=
          "~/historical_data/" +:+ symbol +:+ str timeframe +:+ ".csv" in
        io! temp <- io_call (read_csv filename);
        let close := shift shift_ (temp column) in
        io! _ <- dump close file_path;
        io_ret close
  | Some get_history =>
      io! temp <- io_call (get_history symbol timeframe field);
      io_ret (shift shift_ temp)
  end.

Definition i_open := i_column "i_open" 0 "openBid".
Definition i_high := i_column "i_high" 1 "highBid".
Definition i_low := i_column "i_low" 2 "lowBid".
Definition i_close := i_column "i_close" 3 "closeBid".

Definition i_bandwalk (symbol : string) (timeframe period shift_ : Z)
    : io (Series float64) :=
  let file_path :=
    path +:+ "/tmp/i_bandwalk_" +:+ symbol +:+ str timeframe +:+ "_"
         +:+ str period +:+ "_" +:+ str shift_ +:+ ".pkl" in
  io! found <-
    (if is_backtest then path_exists file_path else io_ret false);
  if found then load file_path
  else
    io! high <- i_high symbol timeframe shift_;
    io! low <- i_low symbol timeframe shift_;
    io! close <- i_close symbol timeframe shift_;
    let median := rolling_median (Z.to_nat period) close in
    let index := index median in
    let rows :=
      imap (fun i m => (nth i (values high) NaN, nth i (values low) NaN, m))
           (values median) in
    let bandwalk := calc_bandwalk 0 0 rows in
    let a := 903 # 1000 in
    let b := 393 # 1000 in
    let scale := Num (Qred (powQ (inject_Z period) a + b)) in
    let bandwalk := map (fun x => fdiv x scale) bandwalk in
    let bandwalk := fillna (Num 0) (combine index bandwalk) in
    io! _ <- (if is_backtest then dump bandwalk file_path else io_ret tt);
    io_ret bandwalk.
End Indicators.

(** ** Vocabulary of the statements *)

(** A return series as [calc_ret] produces it: every value is finite. *)
Definition finite_series (s : Series float64) : Prop :=
  Forall is_finite (values s).

(** Cumulative wealth that never decreases from one bar to the next. *)
Definition nondecreasing (w : list float64) : Prop :=
  forall i : nat, (S i < length w)%nat ->
    fle (nth i w NaN) (nth (S i) w NaN) = true.


(** Membership of a label in an index. *)
Definition mem (t : Z) (ks : list Z) : bool := existsb (Z.eqb t) ks.

Definition in_window (start end_ t : Z) : bool :=
  (start <=? t) && (t <=? end_).

(** The row before the row labelled [t]: [None] when [t] is not a label,
    [Some None] when [t] labels the first row. *)
Fixpoint prev_from {A} (p : option A) (s : Series A) (t : Z)
    : option (option A) :=
  match s with
  | [] => None
  | (k, v) :: r => if Z.eqb k t then Some p else prev_from (Some v) r t
  end.

Definition prev_row {A} (s : Series A) (t : Z) : option (option A) :=
  prev_from None s t.

(** The row after the row labelled [t]. *)
Fixpoint next_row {A} (s : Series A) (t : Z) : option (option A) :=
  match s with
  | [] => None
  | (k, _) :: r =>
      if Z.eqb k t then Some (option_map snd (head r)) else next_row r t
  end.

(** [signal_{t-1}] and [open_{t+1}], absent at the ends of the series. *)
Definition signal_prev (signal : Series Z) (t : Z) : option Z :=
  match prev_row signal t with Some (Some p) => Some p | _ => None end.

Definition open_next (op : Series float64) (t : Z) : float64 :=
  match next_row op t with Some (Some v) => v | _ => NaN end.

Definition signal_at (signal : Series Z) (t : Z) : float64 :=
  match loc signal t with Some s => of_Z s | None => NaN end.

(** Turnover of a bar: the size of an extension of the position, long or
    short; reductions and exits count for nothing. *)
Definition turnover (s : Z) (prev : option Z) : Z :=
  match prev with
  | Some p =>
      if (0 <? s) && (p <? s) then s - p
      else if (s <? 0) && (s <? p) then p - s
      else 0
  | None => 0
  end.

(** The cost of a bar as the specification words it: [c] times the
    turnover, which is 0 where there is nothing to compare with. *)
Definition claimed_cost (c : Q) (s : Z) (prev : option Z) : float64 :=
  fmul (Num c) (of_Z (turnover s prev)).

(** The cost of a bar as the code computes it: there is no number on the
    first row of the signal, where [signal.shift(1)] is [NaN]. *)
Definition cost_term (c : Q) (s : Z) (prev : option Z) : float64 :=
  match prev with
  | Some _ => fmul (Num c) (of_Z (turnover s prev))
  | None => NaN
  end.

Definition claimed_cost_at (c : Q) (signal : Series Z) (t : Z) : float64 :=
  match loc signal t with
  | Some s => claimed_cost c s (signal_prev signal t)
  | None => NaN
  end.

Definition cost_at (c : Q) (signal : Series Z) (t : Z) : float64 :=
  match loc signal t with
  | Some s => cost_term c s (signal_prev signal t)
  | None => NaN
  end.

(** [ret_t = ((open_{t+1} - open_t) * signal_t - cost_t) / open_t] *)
Definition ret_formula (open_t open_t1 signal_t cost_t : float64) : float64 :=
  fdiv (fsub (fmul (fsub open_t1 open_t) signal_t) cost_t) open_t.

(** Replacement of every value that is not finite by 0. *)
Definition zero_if_not_finite (x : float64) : float64 :=
  match x with Num _ => x | _ => Num 0 end.

(** Orders in a trace of the live loop. *)
Definition is_close (e : event) : bool :=
  match e with OrderClose _ => true | _ => false end.

Definition is_send (e : event) : bool :=
  match e with OrderSend _ _ => true | _ => false end.

(** Every close of a trace comes before every open. *)
Definition closes_before_opens (tr : list event) : Prop :=
  forall i j ei ej,
    tr !! i = Some ei -> is_close ei = true ->
    tr !! j = Some ej -> is_send ej = true ->
    (i < j)%nat.

(** The signal value that opens a side. *)
Definition side_signal (s : side) : Z :=
  match s with Buy => 1 | Sell => -1 end.

(** The notifications that follow an order. *)
Definition notifications (ea mail signal : Z) : list event :=
  (if ea =? 1 then [WriteEA (signal + 2)] else []) ++
  (if mail =? 1 then [SendMail] else []).

(** A newly completed bar is being processed: the quotes arrived and moved,
    the newest candle is not the one processed last, and the strategy
    answered with the value [signal]. *)
Definition new_bar (a : answers) (st : live_state) (bid ask : Q)
    (signal : Z) : Prop :=
  a_bid a = Ok bid /\ a_ask a = Ok ask /\
  Qabs_ge (bid - pre_bid st) eps || Qabs_ge (ask - pre_ask st) eps = true /\
  (exists history_time, a_history_time a = Ok history_time /\
     Some history_time <> pre_history_time st) /\
  a_signal a = Ok signal.

(** The local variables after a close and after an open. *)
Definition flat_of (st : live_state) : live_state :=
  {| pre_bid := pre_bid st; pre_ask := pre_ask st;
     pre_history_time := pre_history_time st; ticket := 0; pos := 0 |}.

Definition held_of (st : live_state) (s : side) (t : Z) : live_state :=
  {| pre_bid := pre_bid st; pre_ask := pre_ask st;
     pre_history_time := pre_history_time st; ticket := t;
     pos := side_signal s |}.

(** The position is to be closed: it is long or short and the signal no
    longer says so. *)
Definition must_close (st : live_state) (signal : Z) : bool :=
  (pos st =? 1) && negb (signal =? 1)
  || (pos st =? -1) && negb (signal =? -1).

(** The orders of a newly completed bar, read off the answers: the close
    part of the trace, the position after it ([None] when the close
    raised), and the open part. *)
Definition close_part (ea mail : Z) (a : answers) (st : live_state)
    (signal : Z) : list event :=
  if must_close st signal then
    match a_order_close a with
    | Ok _ => OrderClose (ticket st) :: notifications ea mail signal
    | Err _ => []
    end
  else [].

Definition after_close (a : answers) (st : live_state) (signal : Z)
    : option Z :=
  if must_close st signal then
    match a_order_close a with
    | Ok _ => Some 0
    | Err _ => None
    end
  else Some (pos st).

Definition open_side (signal : Z) : option side :=
  if signal =? 1 then Some Buy
  else if signal =? -1 then Some Sell
  else None.

Definition open_part (spread : Q) (ea mail : Z) (a : answers) (bid ask : Q)
    (position : option Z) (signal : Z) : list event :=
  match position, open_side signal, a_order_send a with
  | Some p, Some s, Ok t =>
      if (p =? 0) && Qle_bool (ask - bid) spread
      then OrderSend s t :: notifications ea mail signal
      else []
  | _, _, _ => []
  end.

Definition bar_orders (spread : Q) (ea mail : Z) (a : answers)
    (st : live_state) (bid ask : Q) (signal : Z) : list event :=
  close_part ea mail a st signal
  ++ open_part spread ea mail a bid ask (after_close a st signal) signal.

Definition no_order (e : event) : Prop :=
  is_close e = false /\ is_send e = false.

(** Walk-forward: the test window of iteration [i] fits in the run, and
    the number of test windows that fit. *)
Definition fits (timeframe in_sample_period out_of_sample_period
    fixed_window start end_ : Z) (i : nat) : Prop :=
  end_test (window_of timeframe in_sample_period out_of_sample_period
              fixed_window start i) <= end_.

Definition window_count (timeframe in_sample_period out_of_sample_period
    fixed_window start end_ : Z) : nat :=
  let first_end :=
    end_test (window_of timeframe in_sample_period out_of_sample_period
                fixed_window start 0) in
  if end_ <? first_end then 0%nat
  else Z.to_nat ((end_ - first_end) / days out_of_sample_period + 1).

(** The windows of the rows of a report. *)
Definition row_windows (rows : list (window * list Q * performance))
    : list window :=
  map (fun r => fst (fst r)) rows.

(** What the loop of [walk_forward_test] has assigned after [k] passes. *)
Definition wf_inv (timeframe in_sample_period out_of_sample_period
    fixed_window start : Z) (st : wf_state) (k : nat) : Prop :=
  let win := window_of timeframe in_sample_period out_of_sample_period
               fixed_window start in
  wf_i st = k /\
  row_windows (wf_rows st) = map win (seq 0 k) /\
  match k with
  | O => wf_signal_all st = None /\ wf_start_all st = None /\
         wf_end_all st = None
  | S O => is_Some (wf_signal_all st) /\
           wf_start_all st = Some (start_test (win O)) /\
           wf_end_all st = None
  | S (S j) => is_Some (wf_signal_all st) /\
               wf_start_all st = Some (start_test (win O)) /\
               wf_end_all st = Some (end_test (win (S j)))
  end.

(** A performance record without content, for runs whose evaluation is of
    no interest. *)
Definition no_performance : performance :=
  {| p_ret := []; p_trades := 0; p_apr := Num 0; p_sharpe := Num 0;
     p_kelly := Num 0; p_drawdowns := Num 0; p_durations := 0;
     p_signal := [] |}.

(** The fitness of a grid point: the Sharpe ratio, or 0 when the point
    trades less often than [min_trade] times a year. *)
Definition fitness (sqrtQ : Q -> Q)
    (calc_signal : list Q -> Z -> Z -> Z -> Z -> Series Z)
    (op : Series float64) (spread : float64) (start end_ min_trade : Z)
    (parameter : list Q) : result float64 :=
  let signal := calc_signal parameter start end_ 1 min_trade in
  let ret := calc_ret op signal spread start end_ in
  let trades := calc_trades signal start end_ in
  do sharpe <- calc_sharpe sqrtQ ret start end_;
  Ok (if fge (fdiv (of_Z trades) (Num (years start end_))) (of_Z min_trade)
      then sharpe else Num 0).

Definition no_nan (l : list float64) : Prop :=
  Forall (fun x => is_nan x = false) l.

(** ** Conversion tables: [convert_symbol2instrument],
       [convert_timeframe2granularity], [divide_symbol],
       [divide_symbol_time] *)

Definition convert_symbol2instrument (symbol : string) : string :=
  if String.eqb symbol "AUDCAD" then "AUD_CAD"
  else if String.eqb symbol "AUDCHF" then "AUD_CHF"
  else if String.eqb symbol "AUDJPY" then "AUD_JPY"
  else if String.eqb symbol "AUDNZD" then "AUD_NZD"
  else if String.eqb symbol "AUDUSD" then "AUD_USD"
  else if String.eqb symbol "CADCHF" then "CAD_CHF"
  else if String.eqb symbol "CADJPY" then "CAD_JPY"
  else if String.eqb symbol "CHFJPY" then "CHF_JPY"
  else if String.eqb symbol "EURAUD" then "EUR_AUD"
  else if String.eqb symbol "EURCAD" then "EUR_CAD"
  else if String.eqb symbol "EURCHF" then "EUR_CHF"
  else if String.eqb symbol "EURGBP" then "EUR_GBP"
  else if String.eqb symbol "EURJPY" then "EUR_JPY"
  else if String.eqb symbol "EURNZD" then "EUR_NZD"
  else if String.eqb symbol "EURUSD" then "EUR_USD"
  else if String.eqb symbol "GBPAUD" then "GBP_AUD"
  else if String.eqb symbol "GBPCAD" then "GBP_CAD"
  else if String.eqb symbol "GBPCHF" then "GBP_CHF"
  else if String.eqb symbol "GBPJPY" then "GBP_JPY"
  else if String.eqb symbol "GBPNZD" then "GBP_NZD"
  else if String.eqb symbol "GBPUSD" then "GBP_USD"
  else if String.eqb symbol "NZDCAD" then "NZD_CAD"
  else if String.eqb symbol "NZDCHF" then "NZD_CHF"
  else if String.eqb symbol "NZDJPY" then "NZD_JPY"
  else if String.eqb symbol "NZDUSD" then "NZD_USD"
  else if String.eqb symbol "USDCAD" then "USD_CAD"
  else if String.eqb symbol "USDCHF" then "USD_CHF"
  else "USD_JPY".

Definition convert_timeframe2granularity (timeframe : Z) : string :=
  if timeframe =? 1 then "M1"
  else if timeframe =? 5 then "M5"
  else if timeframe =? 15 then "M15"
  else if timeframe =? 30 then "M30"
  else if timeframe =? 60 then "H1"
  else if timeframe =? 240 then "H4"
  else "D".

Definition divide_symbol (symbol : string) : string * string :=
  if String.eqb symbol "AUDCAD" then ("aud", "cad")
  else if String.eqb symbol "AUDCHF" then ("aud", "chf")
  else if String.eqb symbol "AUDJPY" then ("aud", "jpy")
  else if String.eqb symbol "AUDNZD" then ("aud", "nzd")
  else if String.eqb symbol "AUDUSD" then ("aud", "usd")
  else if String.eqb symbol "CADCHF" then ("cad", "chf")
  else if String.eqb symbol "CADJPY" then ("cad", "jpy")
  else if String.eqb symbol "CHFJPY" then ("chf", "jpy")
  else if String.eqb symbol "EURAUD" then ("eur", "aud")
  else if String.eqb symbol "EURCAD" then ("eur", "cad")
  else if String.eqb symbol "EURCHF" then ("eur", "chf")
  else if String.eqb symbol "EURGBP" then ("eur", "gbp")
  else if String.eqb symbol "EURJPY" then ("eur", "jpy")
  else if String.eqb symbol "EURNZD" then ("eur", "nzd")
  else if String.eqb symbol "EURUSD" then ("eur", "usd")
  else if String.eqb symbol "GBPAUD" then ("gbp", "aud")
  else if String.eqb symbol "GBPCAD" then ("gbp", "cad")
  else if String.eqb symbol "GBPCHF" then ("gbp", "chf")
  else if String.eqb symbol "GBPJPY" then ("gbp", "jpy")
  else if String.eqb symbol "GBPNZD" then ("gbp", "nzd")
  else if String.eqb symbol "GBPUSD" then ("gbp", "usd")
  else if String.eqb symbol "NZDCAD" then ("nzd", "cad")
  else if String.eqb symbol "NZDCHF" then ("nzd", "chf")
  else if String.eqb symbol "NZDJPY" then ("nzd", "jpy")
  else if String.eqb symbol "NZDUSD" then ("nzd", "usd")
  else if String.eqb symbol "USDCAD" then ("usd", "cad")
  else if String.eqb symbol "USDCHF" then ("usd", "chf")
  else ("usd", "jpy").

Definition divide_symbol_time (symbol : string) : string * string :=
  if String.eqb symbol "AUDCAD" then ("tokyo", "ny")
  else if String.eqb symbol "AUDCHF" then ("tokyo", "ldn")
  else if String.eqb symbol "AUDJPY" then ("tokyo", "tokyo")
  else if String.eqb symbol "AUDNZD" then ("tokyo", "tokyo")
  else if String.eqb symbol "AUDUSD" then ("tokyo", "ny")
  else if String.eqb symbol "CADCHF" then ("ny", "ldn")
  else if String.eqb symbol "CADJPY" then ("ny", "tokyo")
  else if String.eqb symbol "CHFJPY" then ("ldn", "tokyo")
  else if String.eqb symbol "EURAUD" then ("ldn", "tokyo")
  else if String.eqb symbol "EURCAD" then ("ldn", "ny")
  else if String.eqb symbol "EURCHF" then ("ldn", "ldn")
  else if String.eqb symbol "EURGBP" then ("ldn", "ldn")
  else if String.eqb symbol "EURJPY" then ("ldn", "tokyo")
  else if String.eqb symbol "EURNZD" then ("ldn", "tokyo")
  else if String.eqb symbol "EURUSD" then ("ldn", "ny")
  else if String.eqb symbol "GBPAUD" then ("ldn", "tokyo")
  else if String.eqb symbol "GBPCAD" then ("ldn", "ny")
  else if String.eqb symbol "GBPCHF" then ("ldn", "ldn")
  else if String.eqb symbol "GBPJPY" then ("ldn", "tokyo")
  else if String.eqb symbol "GBPNZD" then ("ldn", "tokyo")
  else if String.eqb symbol "GBPUSD" then ("ldn", "ny")
  else if String.eqb symbol "NZDCAD" then ("tokyo", "ny")
  else if String.eqb symbol "NZDCHF" then ("tokyo", "ldn")
  else if String.eqb symbol "NZDJPY" then ("tokyo", "tokyo")
  else if String.eqb symbol "NZDUSD" then ("tokyo", "ny")
  else if String.eqb symbol "USDCAD" then ("ny", "ny")
  else if String.eqb symbol "USDCHF" then ("ny", "ldn")
  else ("ny", "tokyo").

(** The currency pairs the system lists, in the order of [convert_hst2csv]
    and [make_historical_data]. *)
Definition symbols : list string :=
  ["AUDCAD"; "AUDCHF"; "AUDJPY"; "AUDNZD"; "AUDUSD"; "CADCHF"; "CADJPY";
   "CHFJPY"; "EURAUD"; "EURCAD"; "EURCHF"; "EURGBP"; "EURJPY"; "EURNZD";
   "EURUSD"; "GBPAUD"; "GBPCAD"; "GBPCHF"; "GBPJPY"; "GBPNZD"; "GBPUSD";
   "NZDCAD"; "NZDCHF"; "NZDJPY"; "NZDUSD"; "USDCAD"; "USDCHF"; "USDJPY"].

(** The test on the symbol that [trade] and the command line make before
    they choose the unit of a price. *)
Definition is_jpy_symbol (symbol : string) : bool :=
  String.eqb symbol "AUDJPY" || String.eqb symbol "CADJPY"
  || String.eqb symbol "CHFJPY" || String.eqb symbol "EURJPY"
  || String.eqb symbol "GBPJPY" || String.eqb symbol "NZDJPY"
  || String.eqb symbol "USDJPY".

(** [trade]: the locals [multiplier] and [digit]. *)
Definition trade_multiplier_digit (symbol : string) : Z * Z :=
  if is_jpy_symbol symbol then (100, 3) else (10000, 5).

(** The command line: the spread, given in tenths of a pip, as a price
    difference. *)
Definition main_spread (symbol : string) (spread : Z) : Q :=
  if is_jpy_symbol symbol then Qred (inject_Z spread / 1000)
  else Qred (inject_Z spread / 100000).

(** ** [is_trading_hours] *)

(** [s[mask] = value] for a scalar value, and for an array of the length of
    [s], of which the cells under the mask are taken. *)
Definition set_where {A} (mask : list bool) (value : A) (s : list A)
    : list A :=
  zip_with (fun (m : bool) x => if m then value else x) mask s.

Definition set_where_array {A} (mask : list bool) (other s : list A)
    : list A :=
  zip_with (fun (m : bool) p => if m then fst p else snd p) mask
           (zip other s).

Section TradingHours.
(** [index.hour], [index.minute] and [index.month]: the calendar fields of
    a timestamp, as pandas computes them. *)
Variables hour minute month : Z -> Z.

Definition is_trading_hours (index : list Z) (market : string)
    : Series bool :=
  let test (p : Z -> bool) : list bool := map p index in
  let summer := test (fun t => (3 <=? month t) && (month t <? 11)) in
  if String.eqb market "tokyo" then
    let trading_hours :=
      test (fun t => (0 <=? hour t) && (hour t <? 6)) in
    combine index trading_hours
  else if String.eqb market "ldn" then
    let trading_hours :=
      test (fun t => (8 <=? hour t) && (hour t <? 16)) in
    let trading_hours :=
      set_where (test (fun t => (hour t =? 16) && (minute t <? 30)))
                true trading_hours in
    let trading_hours :=
      set_where_array summer
        (test (fun t => (7 <=? hour t) && (hour t <? 15)))
        trading_hours in
    let trading_hours :=
      set_where
        (test (fun t => (3 <=? month t) && (month t <? 11)
                        && (hour t =? 15) && (minute t <? 30)))
        true trading_hours in
    combine index trading_hours
  else
    let trading_hours :=
      test (fun t => (15 <=? hour t) && (hour t <? 21)) in
    let trading_hours :=
      set_where (test (fun t => (hour t =? 14) && (30 <=? minute t)))
                true trading_hours in
    let trading_hours :=
      set_where_array summer
        (test (fun t => (14 <=? hour t) && (hour t <? 20)))
        trading_hours in
    let trading_hours :=
      set_where
        (test (fun t => (3 <=? month t) && (month t <? 11)
                        && (hour t =? 13) && (30 <=? minute t)))
        true trading_hours in
    combine index trading_hours.
End TradingHours.

(** ** More indicators: [i_volume], [i_diff], [i_z_score], [i_hl_band] *)

(** [numpy.median]: the middle value of the sorted window, or the mean of
    the two middle values; [NaN] when the window holds a [NaN]. *)
Fixpoint insert_float (x : float64) (l : list float64) : list float64 :=
  match l with
  | [] => [x]
  | y :: r => if fle x y then x :: l else y :: insert_float x r
  end.

Definition sort_float (l : list float64) : list float64 :=
  foldr insert_float [] l.

Definition np_median (a : list float64) : float64 :=
  if existsb is_nan a then NaN
  else
    let s := sort_float a in
    let n := length s in
    if (n =? 0)%nat then NaN
    else if Nat.even n
         then fdiv (fadd (nth (n / 2 - 1) s NaN) (nth (n / 2) s NaN)) (Num 2)
         else nth (n / 2) s NaN.

(** [numpy.max] and [numpy.min] of a window without [NaN]. *)
Definition np_max (a : list float64) : float64 :=
  match a with
  | [] => NaN
  | x :: r => fold_left (fun m y => if fgt y m then y else m) r x
  end.

Definition np_min (a : list float64) : float64 :=
  match a with
  | [] => NaN
  | x :: r => fold_left (fun m y => if flt y m then y else m) r x
  end.

(** [s.rolling(window=period).apply(f)], and [.max()], [.min()] with [f]
    the maximum or the minimum: a row is [NaN] until the window is full and
    whenever the window holds a [NaN]. *)
Definition rolling (period : nat) (f : list float64 -> float64)
    (s : Series float64) : Series float64 :=
  let vs := values s in
  imap (fun i kv =>
          (fst kv,
           if (S i <? period)%nat then NaN
           else
             let window := take period (drop (S i - period) vs) in
             if existsb is_nan window then NaN else f window))
       s.

(** The file of a pickled [DataFrame] with the columns [high] and [low]. *)
Record hl_band : Type := {
  band_high : Series float64;
  band_low : Series float64
}.

Inductive frame_artifact : Type :=
  | FramePickle (f : hl_band)
  | FrameCorrupt.

(** The temporary folder: the files that hold a [Series] and the files that
    hold a [DataFrame].  The two kinds never share a name, since the name
    of a file begins with the name of the indicator that writes it. *)
Definition folder : Type := gmap string artifact * gmap string frame_artifact.

Definition fio (A : Type) : Type := folder -> result A * folder.

Definition fio_ret {A} (a : A) : fio A := fun fs => (Ok a, fs).

Definition fio_bind {A B} (m : fio A) (k : A -> fio B) : fio B :=
  fun fs =>
    match m fs with
    | (Ok a, fs') => k a fs'
    | (Err e, fs') => (Err e, fs')
    end.

Notation "'fio!' x <- m ; k" := (fio_bind m (fun x => k))
  (at level 10, x pattern, m at level 100, k at level 200).

(** A statement on the [Series] files. *)
Definition lift {A} (m : io A) : fio A :=
  fun fs => let '(r, s) := m (fst fs) in (r, (s, snd fs)).

Definition frame_exists (file_path : string) : fio bool :=
  fun fs => (Ok (bool_decide (is_Some (snd fs !! file_path))), fs).

Definition frame_load (file_path : string) : fio hl_band :=
  fun fs =>
    match snd fs !! file_path with
    | Some (FramePickle f) => (Ok f, fs)
    | Some FrameCorrupt | None => (Err LoadError, fs)
    end.

Definition frame_dump (value : hl_band) (file_path : string) : fio unit :=
  fun fs => (Ok tt, (fst fs, <[file_path := FramePickle value]> (snd fs))).

Section MoreIndicators.
Variable environment :
  option (string -> Z -> string -> result (Series float64)).
Variable path : string.
Variable read_csv : string -> result (nat -> Series float64).
Variable sqrtQ : Q -> Q.

(** [ForexSystem.__init__]: a back-test starts by removing the temporary
    folder with all its files and creating it again. *)
Definition ForexSystem_init : fio unit :=
  fun fs =>
    if is_backtest environment then
      let kept {A} (m : gmap string A) : gmap string A :=
        filter (fun kv => String.prefix (path +:+ "/tmp/") (fst kv) = false)
               m in
      (Ok tt, (kept (fst fs), kept (snd fs)))
    else (Ok tt, fs).

Definition i_volume :=
  i_column environment path read_csv "i_volume" 4 "volumeBid".

Definition i_diff (symbol : string) (timeframe shift_ : Z)
    : io (Series float64) :=
  let file_path :=
    path +:+ "/tmp/i_diff_" +:+ symbol +:+ str timeframe +:+ "_"
         +:+ str shift_ +:+ ".pkl" in
  io! found <-
    (if is_backtest environment then path_exists file_path
     else io_ret false);
  if found then load file_path
  else
    io! close <- i_close environment path read_csv symbol timeframe shift_;
    let diff := falign fsub close (shift1 close) in
    let diff := fillna (Num 0) diff in
    let diff := replace_inf diff in
    io! _ <-
      (if is_backtest environment then dump diff file_path else io_ret tt);
    io_ret diff.

(** The jitted function [calc_z_score], applied to the windows of
    [period >= 1] rows. *)
Definition calc_z_score (close : list float64) : float64 :=
  let median := np_median close in
  let period := length close in
  let std :=
    fold_left
      (fun std x => fadd std (fmul (fsub x median) (fsub x median)))
      close (Num 0) in
  let std := fdiv std (of_nat period) in
  let std := np_sqrt sqrtQ std in
  if flt std EPS then Num 0
  else fdiv (fsub (List.last close NaN) median) std.

Definition i_z_score (symbol : string) (timeframe period shift_ : Z)
    : io (Series float64) :=
  let file_path :=
    path +:+ "/tmp/i_z_score_" +:+ symbol +:+ str timeframe +:+ "_"
         +:+ str period +:+ "_" +:+ str shift_ +:+ ".pkl" in
  io! found <-
    (if is_backtest environment then path_exists file_path
     else io_ret false);
  if found then load file_path
  else
    io! close <- i_close environment path read_csv symbol timeframe shift_;
    let z_score := rolling (Z.to_nat period) calc_z_score close in
    let z_score := fillna (Num 0) z_score in
    let z_score := replace_inf z_score in
    io! _ <-
      (if is_backtest environment then dump z_score file_path
       else io_ret tt);
    io_ret z_score.

(** The name of the file does not carry [period]. *)
Definition i_hl_band (symbol : string) (timeframe period shift_ : Z)
    : fio hl_band :=
  let file_path :=
    path +:+ "/tmp/i_hl_band_" +:+ symbol +:+ str timeframe +:+ "_"
         +:+ str shift_ +:+ ".pkl" in
  fio! found <-
    (if is_backtest environment then frame_exists file_path
     else fio_ret false);
  if found then frame_load file_path
  else
    fio! close <-
      lift (i_close environment path read_csv symbol timeframe shift_);
    let hl_band :=
      {| band_high := rolling (Z.to_nat period) np_max close;
         band_low := rolling (Z.to_nat period) np_min close |} in
    fio! _ <-
      (if is_backtest environment then frame_dump hl_band file_path
       else fio_ret tt);
    fio_ret hl_band.
End MoreIndicators.

(** ** [convert_hst2csv] *)

(** [struct.error] *)
Inductive struct_error : Type := StructError.

(** A row of the csv file: the index [0_datetime] (the seconds since the
    epoch, before they are formatted) and the five columns in the order in
    which they are written. *)
Record csv_row : Type := {
  datetime : Z;
  open_price : float64;
  high_price : float64;
  low_price : float64;
  close_price : float64;
  volume : float64
}.

(** The format [i] of [struct.unpack] with [<]: a signed integer of 32
    bits, least significant byte first. *)
Definition unpack_int (b : list Byte.byte) : Z :=
  let u :=
    fold_right (fun x acc => Z.of_N (Byte.to_N x) + 256 * acc) 0 b in
  if u <? 2 ^ 31 then u else u - 2 ^ 32.

Section Hst.
(** The format [d]: the double of eight bytes. *)
Variable unpack_double : list Byte.byte -> float64.

(** [struct.unpack('< iddddd', buf)]: the buffer must hold exactly 44
    bytes. *)
Definition unpack (buf : list Byte.byte)
    : struct_error + (Z * float64 * float64 * float64 * float64 * float64) :=
  if (length buf =? 44)%nat then
    inr (unpack_int (take 4 buf),
         unpack_double (take 8 (drop 4 buf)),
         unpack_double (take 8 (drop 12 buf)),
         unpack_double (take 8 (drop 20 buf)),
         unpack_double (take 8 (drop 28 buf)),
         unpack_double (take 8 (drop 36 buf)))
  else inl StructError.

(** The passes of [while True] once the header is read: [f.read(44)]
    returns the next 44 bytes, or what is left of the file.  [None] when
    the passes are used up. *)
Fixpoint read_bars (fuel : nat) (rest : list Byte.byte)
    : option (struct_error + list csv_row) :=
  match fuel with
  | O => None
  | S fuel' =>
      let buf := take 44 rest in
      match buf with
      | [] => Some (inr [])
      | _ :: _ =>
          match unpack buf with
          | inl e => Some (inl e)
          | inr (b0, b1, b2, b3, b4, b5) =>
              let row :=
                {| datetime := b0; open_price := b1; high_price := b3;
                   low_price := b2; close_price := b4; volume := b5 |} in
              match read_bars fuel' (drop 44 rest) with
              | Some (inr rows) => Some (inr (row :: rows))
              | r => r
              end
          end
      end
  end.

(** The rows [convert_hst2csv] writes for one file: the first pass reads
    the header of 148 bytes, every later pass one bar. *)
Definition convert_hst2csv (file : list Byte.byte)
    : option (struct_error + list csv_row) :=
  read_bars (S (length file)) (drop 148 file).
End Hst.

(** ** Vocabulary of the further statements *)

(** Lower case of an ASCII string. *)
Definition lower_ascii (c : Ascii.ascii) : Ascii.ascii :=
  let n := Ascii.nat_of_ascii c in
  if (65 <=? n)%nat && (n <=? 90)%nat then Ascii.ascii_of_nat (n + 32) else c.

Fixpoint lower (s : string) : string :=
  match s with
  | EmptyString => EmptyString
  | String c r => String (lower_ascii c) (lower r)
  end.

(** The market of a currency: AUD, JPY and NZD trade in Tokyo hours, CHF,
    EUR and GBP in London hours, CAD and USD in New York hours. *)
Definition market_of (currency : string) : string :=
  if String.eqb currency "aud" || String.eqb currency "jpy"
     || String.eqb currency "nzd" then "tokyo"
  else if String.eqb currency "chf" || String.eqb currency "eur"
          || String.eqb currency "gbp" then "ldn"
  else "ny".

(** The months of the summer time adjustment. *)
Definition is_summer (m : Z) : bool := (3 <=? m) && (m <? 11).

(** The trading session of a market, in minutes of the day: the first
    minute and the minute after the last. *)
Definition session (market : string) (summer : bool) : Z * Z :=
  if String.eqb market "tokyo" then (0, 360)
  else if String.eqb market "ldn" then
    if summer then (420, 930) else (480, 990)
  else
    if summer then (810, 1200) else (870, 1260).

(** The ticket the live loop holds: none when it is flat. *)
Definition held_ticket (st : live_state) : option Z :=
  if pos st =? 0 then None else Some (ticket st).

(** Replaying the orders of a trace from a flat or held position: an open is
    in order only when flat, a close only for the ticket that is held.
    [None] when an order is out of order. *)
Fixpoint replay (held : option Z) (tr : list event) : option (option Z) :=
  match tr with
  | [] => Some held
  | OrderSend _ t :: r =>
      match held with
      | None => replay (Some t) r
      | Some _ => None
      end
  | OrderClose t :: r =>
      match held with
      | Some t' => if t =? t' then replay None r else None
      | None => None
      end
  | _ :: r => replay held r
  end.

(** The common shape of the indicators that keep their result in the
    temporary folder during a back-test: the file is looked for and
    written in a back-test only. *)
Definition cached (backtest : bool) (file_path : string)
    (compute : io (Series float64)) : io (Series float64) :=
  io! found <- (if backtest then path_exists file_path else io_ret false);
  if found then load file_path
  else
    io! value <- compute;
    io! _ <- (if backtest then dump value file_path else io_ret tt);
    io_ret value.

(** What an indicator of a candle field computes when it finds no file. *)
Definition column_source
    (environment : option (string -> Z -> string -> result (Series float64)))
    (read_csv : string -> result (nat -> Series float64))
    (column : nat) (field : string) (symbol : string) (timeframe shift_ : Z)
    : result (Series float64) :=
  match environment with
  | None =>
      do temp <- read_csv ("~/historical_data/" +:+ symbol +:+ str timeframe
                           +:+ ".csv");
      Ok (shift shift_ (temp column))
  | Some get_history =>
      do temp <- get_history symbol timeframe field;
      Ok (shift shift_ temp)
  end.

(** What [i_bandwalk] computes from the three price series when it finds
    no file. *)
Definition bandwalk_of (powQ : Q -> Q -> Q) (period : Z)
    (high low close : Series float64) : Series float64 :=
  let median := rolling_median (Z.to_nat period) close in
  let rows :=
    imap (fun i m => (nth i (values high) NaN, nth i (values low) NaN, m))
         (values median) in
  let scale :=
    Num (Qred (powQ (inject_Z period) (903 # 1000) + (393 # 1000))) in
  fillna (Num 0)
    (combine (index median)
       (map (fun x => fdiv x scale) (calc_bandwalk 0 0 rows))).

(** The number of [true] at the head of a list, and the length of the run
    of [true] that ends at position [i]. *)
Fixpoint leading (flags : list bool) : Z :=
  match flags with
  | true :: r => 1 + leading r
  | _ => 0
  end.

Definition streak (flags : list bool) (i : nat) : Z :=
  leading (rev (take (S i) flags)).

(** A counter that is incremented on every [true] and reset on every
    [false]: its values after each flag. *)
Fixpoint count_from (n : Z) (flags : list bool) : list Z :=
  match flags with
  | [] => []
  | b :: r => let n := if b then n + 1 else 0 in n :: count_from n r
  end.

(** A bar wholly above, and wholly below, the median. *)
Definition bar_above (row : float64 * float64 * float64) : bool :=
  let '(high, low, median) := row in fgt low median.

Definition bar_below (row : float64 * float64 * float64) : bool :=
  let '(high, low, median) := row in flt high median.

(** The local variables of the live loop once a tick is taken, and once a
    candle is taken. *)
Definition with_quotes (st : live_state) (bid ask : Q) : live_state :=
  {| pre_bid := bid; pre_ask := ask;
     pre_history_time := pre_history_time st;
     ticket := ticket st; pos := pos st |}.

Definition with_candle (st : live_state) (history_time : Z) : live_state :=
  {| pre_bid := pre_bid st; pre_ask := pre_ask st;
     pre_history_time := Some history_time;
     ticket := ticket st; pos := pos st |}.

(** The quotes moved since the last tick that was taken. *)
Definition moved (st : live_state) (bid ask : Q) : bool :=
  Qabs_ge (bid - pre_bid st) eps || Qabs_ge (ask - pre_ask st) eps.

(** The end of a pass in which the tick was taken: the positions are
    requested and printed, or the line is reported as down. *)
Definition report_positions (a : answers) (st : live_state)
    (tr : list event) : live_state * list event :=
  match a_positions a with
  | Ok _ => (st, tr ++ [Snapshot])
  | Err _ => (st, tr ++ [LineDown])
  end.

(** ** The strategy [long_short]: [calc_signal] *)

(** An operation between two series on the same index, where pandas works
    row by row. *)
Definition zip_series {A B C} (f : A -> B -> C) (a : Series A)
    (b : Series B) : Series C :=
  zip_with (fun x y => (fst x, f (snd x) (snd y))) a b.

(** [s[key] = value] for a key on the index of [s]. *)
Definition mask_set (key : Series bool) (value : float64)
    (s : Series float64) : Series float64 :=
  zip_series (fun (k : bool) x => if k then value else x) key s.

(** [s.fillna(method='ffill')]: a missing value takes the last value
    before it that is not missing, and stays missing if there is none. *)
Fixpoint ffill_from (last : float64) (s : Series float64)
    : Series float64 :=
  match s with
  | [] => []
  | (k, v) :: r =>
      let v := if is_nan v then last else v in (k, v) :: ffill_from v r
  end.

Definition ffill (s : Series float64) : Series float64 := ffill_from NaN s.

(** [b * 1] *)
Definition times_one (b : Series bool) : Series Z :=
  smap (fun x : bool => if x then 1 else 0) b.

Section LongShort.
(** The indicators the strategy reads from [fs], cut to [start:end] and
    on one index: the z-score and the band walk of the symbol, and the
    columns of the base and of the quote currency of the z-score and of
    the band walk of the Ku-chart. *)
Variables z_score1 bandwalk1 : Series float64.
Variables ku_z_score1_base ku_z_score1_quote : Series float64.
Variables ku_bandwalk1_base ku_bandwalk1_quote : Series float64.

Definition calc_signal (parameter : list Q) (position : Z)
    : result (Series Z) :=
  match parameter with
  | _ :: entry_threshold :: filter_threshold :: _ =>
      let le (s : Series float64) (c : Q) : Series bool :=
        smap (fun x => fle x (Num c)) s in
      let ge (s : Series float64) (c : Q) : Series bool :=
        smap (fun x => fge x (Num c)) s in
      let and_ := zip_series andb in
      let is_true (b : Series bool) : Series bool :=
        smap (fun x => Bool.eqb x true) b in
      let can_buy :=
        and_ (and_ (and_ (le ku_z_score1_base (- entry_threshold)%Q)
                         (ge ku_z_score1_quote entry_threshold))
                   (le ku_bandwalk1_base (- filter_threshold)%Q))
             (ge ku_bandwalk1_quote filter_threshold) in
      let longs_entry :=
        times_one
          (and_ (and_ (le z_score1 (- entry_threshold)%Q)
                      (le bandwalk1 (- filter_threshold)%Q))
                (is_true can_buy)) in
      let longs_exit := times_one (ge z_score1 0%Q) in
      let can_sell :=
        and_ (and_ (and_ (ge ku_z_score1_base entry_threshold)
                         (le ku_z_score1_quote (- entry_threshold)%Q))
                   (ge ku_bandwalk1_base filter_threshold))
             (le ku_bandwalk1_quote (- filter_threshold)%Q) in
      let shorts_entry :=
        times_one
          (and_ (and_ (ge z_score1 entry_threshold)
                      (ge bandwalk1 filter_threshold))
                (is_true can_sell)) in
      let shorts_exit := times_one (le z_score1 0%Q) in
      let longs := longs_entry in
      let longs :=
        mask_set (smap (fun n => n =? 0) longs) NaN (astype_float longs) in
      let longs :=
        mask_set (smap (fun n => n =? 1) longs_exit) (Num 0) longs in
      let longs := ffill longs in
      let shorts := smap Z.opp shorts_entry in
      let shorts :=
        mask_set (smap (fun n => n =? 0) shorts) NaN
                 (astype_float shorts) in
      let shorts :=
        mask_set (smap (fun n => n =? 1) shorts_exit) (Num 0) shorts in
      let shorts := ffill shorts in
      let signal :=
        if position =? 0 then longs
        else if position =? 1 then shorts
        else zip_series fadd longs shorts in
      let signal := fillna (Num 0) signal in
      Ok (astype_int signal)
  | _ => Err IndexError
  end.
End LongShort.

(** The conditions of [long_short] on the bar at position [i]: the entry
    and the exit of a long and of a short position, and a position that was
    entered on some bar up to [i] and not left on that bar nor since. *)
Section LongShortBars.
Variables z_score1 bandwalk1 : Series float64.
Variables ku_z_score1_base ku_z_score1_quote : Series float64.
Variables ku_bandwalk1_base ku_bandwalk1_quote : Series float64.
Variables entry_threshold filter_threshold : Q.

Definition row (s : Series float64) (i : nat) : float64 :=
  nth i (values s) NaN.

Definition long_entry (i : nat) : bool :=
  fle (row z_score1 i) (Num (- entry_threshold))
  && fle (row bandwalk1 i) (Num (- filter_threshold))
  && (fle (row ku_z_score1_base i) (Num (- entry_threshold))
      && fge (row ku_z_score1_quote i) (Num entry_threshold)
      && fle (row ku_bandwalk1_base i) (Num (- filter_threshold))
      && fge (row ku_bandwalk1_quote i) (Num filter_threshold)).

Definition long_exit (i : nat) : bool := fge (row z_score1 i) (Num 0).

Definition short_entry (i : nat) : bool :=
  fge (row z_score1 i) (Num entry_threshold)
  && fge (row bandwalk1 i) (Num filter_threshold)
  && (fge (row ku_z_score1_base i) (Num entry_threshold)
      && fle (row ku_z_score1_quote i) (Num (- entry_threshold))
      && fge (row ku_bandwalk1_base i) (Num filter_threshold)
      && fle (row ku_bandwalk1_quote i) (Num (- filter_threshold))).

Definition short_exit (i : nat) : bool := fle (row z_score1 i) (Num 0).

Definition held (entry exit : nat -> bool) (i : nat) : Prop :=
  exists j, (j <= i)%nat /\ entry j = true /\
    forall k, (j <= k <= i)%nat -> exit k = false.
End LongShortBars.

(** * Properties *)

(** ** Arithmetic of the number model *)

Lemma Qred_zero (x : Q) : (x == 0)%Q -> Qred x = 0%Q.
Proof. intros H. now rewrite (Qred_complete _ _ H). Qed.

Lemma Qred_eq (x y : Q) : (x == y)%Q -> Num (Qred x) = Num (Qred y).
Proof. intros H. now rewrite (Qred_complete _ _ H). Qed.

Lemma Qred_idem (x : Q) : Qred (Qred x) = Qred x.
Proof. apply Qred_complete, Qred_correct. Qed.

Lemma Qeq_bool_false (x y : Q) : Qeq_bool x y = false <-> ~ (x == y)%Q.
Proof.
  split.
  - intros H E. apply Qeq_bool_iff in E. congruence.
  - intros H. destruct (Qeq_bool x y) eqn:E; [|reflexivity].
    apply Qeq_bool_iff in E. contradiction.
Qed.

Lemma fle_Num (a b : Q) : fle (Num a) (Num b) = true <-> (a <= b)%Q.
Proof.
  unfold fle; simpl. destruct (a ?= b)%Q eqn:E.
  - apply Qeq_alt in E. split; [intros _; lra | reflexivity].
  - apply Qlt_alt in E. split; [intros _; lra | reflexivity].
  - apply Qgt_alt in E. split; [discriminate | intros; lra].
Qed.

Lemma fge_Num (a b : Q) : fge (Num a) (Num b) = true <-> (b <= a)%Q.
Proof.
  unfold fge; simpl. destruct (a ?= b)%Q eqn:E.
  - apply Qeq_alt in E. split; [intros _; lra | reflexivity].
  - apply Qlt_alt in E. split; [discriminate | intros; lra].
  - apply Qgt_alt in E. split; [intros _; lra | reflexivity].
Qed.

Lemma fgt_Num (a b : Q) : fgt (Num a) (Num b) = true <-> (b < a)%Q.
Proof.
  unfold fgt; simpl. destruct (a ?= b)%Q eqn:E.
  - apply Qeq_alt in E. split; [discriminate | intros; lra].
  - apply Qlt_alt in E. split; [discriminate | intros; lra].
  - apply Qgt_alt in E. split; [intros _; lra | reflexivity].
Qed.

Lemma flt_Num (a b : Q) : flt (Num a) (Num b) = true <-> (a < b)%Q.
Proof.
  unfold flt; simpl. destruct (a ?= b)%Q eqn:E.
  - apply Qeq_alt in E. split; [discriminate | intros; lra].
  - apply Qlt_alt in E. split; [intros _; lra | reflexivity].
  - apply Qgt_alt in E. split; [discriminate | intros; lra].
Qed.


Lemma bool_iff_false (b : bool) (P : Prop) :
  (b = true <-> P) -> (b = false <-> ~ P).
Proof. destruct b; intuition congruence. Qed.

(** A wealth that passes the guard [abs(1 + w) < EPS] is not zero. *)
Lemma guard_nonzero (w : Q) :
  flt (fabs (fadd (Num 1) (Num w))) EPS = false -> ~ (1 + w == 0)%Q.
Proof.
  simpl. intros H E.
  apply (bool_iff_false _ _ (flt_Num _ _)) in H. apply H.
  rewrite !Qred_correct, E. reflexivity.
Qed.

Lemma Qtrunc_comp (x y : Q) : (x == y)%Q -> Qtrunc x = Qtrunc y.
Proof.
  intros E. unfold Qtrunc.
  pose proof (Pos2Z.is_pos (Qden x)) as Px.
  pose proof (Pos2Z.is_pos (Qden y)) as Py.
  destruct (Z_le_gt_dec 0 (Qnum x)) as [Hx|Hx].
  - assert (0 <= Qnum y) as Hy.
    { unfold Qeq in E. destruct (Z_le_gt_dec 0 (Qnum y)); [assumption|]. nia. }
    rewrite !Z.quot_div_nonneg by lia.
    pose proof (Qfloor_comp x y E) as F.
    destruct x, y; exact F.
  - assert (Qnum y < 0) as Hy.
    { unfold Qeq in E. destruct (Z_lt_ge_dec (Qnum y) 0); [assumption|].
      assert (Qnum x * QDen y < 0) by (apply Z.mul_neg_pos; lia).
      assert (0 <= Qnum y * QDen x) by (apply Z.mul_nonneg_nonneg; lia).
      lia. }
    assert (forall n d, n < 0 -> Z.quot n (Z.pos d) = - (- n / Z.pos d)) as Hq.
    { intros n d Hn. rewrite <- (Z.opp_involutive n) at 1.
      rewrite Z.quot_opp_l by lia. now rewrite Z.quot_div_nonneg by lia. }
    rewrite !Hq by lia.
    assert (- x == - y)%Q as E' by now rewrite E.
    pose proof (Qfloor_comp _ _ E') as F.
    destruct x, y; simpl in *. now rewrite F.
Qed.

Lemma inject_Z_nonzero (z : Z) : z <> 0 -> ~ (inject_Z z == 0)%Q.
Proof. intros H E. unfold Qeq in E. simpl in E. lia. Qed.

(** ** Series *)

Lemma loc_mem {A} (s : Series A) (t : Z) :
  mem t (index s) = match loc s t with Some _ => true | None => false end.
Proof.
  induction s as [|[k v] r IH]; simpl; [reflexivity|].
  rewrite (Z.eqb_sym t k). destruct (k =? t); [reflexivity | exact IH].
Qed.

Lemma loc_reindex (s : Series float64) (t : Z) :
  loc s t = if mem t (index s) then Some (reindex s t) else None.
Proof. rewrite loc_mem. unfold reindex. now destruct (loc s t). Qed.

Lemma loc_tabulate {A} (g : Z -> A) (ks : list Z) (t : Z) :
  loc (map (fun k => (k, g k)) ks) t = if mem t ks then Some (g t) else None.
Proof.
  induction ks as [|k r IH]; simpl; [reflexivity|].
  rewrite (Z.eqb_sym t k). destruct (k =? t) eqn:E; [|exact IH].
  apply Z.eqb_eq in E. now subst.
Qed.

Lemma index_tabulate {A} (g : Z -> A) (ks : list Z) :
  index (map (fun k => (k, g k)) ks) = ks.
Proof. unfold index. rewrite map_map. simpl. apply map_id. Qed.

Lemma index_smap {A B} (f : A -> B) (s : Series A) :
  index (smap f s) = index s.
Proof. unfold index, smap. now rewrite map_map. Qed.

Lemma loc_smap {A B} (f : A -> B) (s : Series A) (t : Z) :
  loc (smap f s) t = option_map f (loc s t).
Proof.
  induction s as [|[k v] r IH]; simpl; [reflexivity|].
  destruct (k =? t); [reflexivity | exact IH].
Qed.

Lemma union_index_cons (x : Z) (a : list Z) (y : Z) (b : list Z) :
  union_index (x :: a) (y :: b) =
    match x ?= y with
    | Lt => x :: union_index a (y :: b)
    | Eq => x :: union_index a b
    | Gt => y :: union_index (x :: a) b
    end.
Proof. reflexivity. Qed.

Lemma union_index_nil_r (a : list Z) : union_index a [] = a.
Proof. now destruct a. Qed.

Lemma mem_union (t : Z) (a : list Z) : forall b,
  mem t (union_index a b) = mem t a || mem t b.
Proof.
  induction a as [|x a IHa]; intros b.
  - destruct b; reflexivity.
  - induction b as [|y b IHb].
    + rewrite union_index_nil_r. now rewrite orb_false_r.
    + rewrite union_index_cons. destruct (x ?= y) eqn:C.
      * apply Z.compare_eq in C. subst y.
        cbn [mem existsb]. fold (mem t (union_index a b)).
        rewrite IHa. fold (mem t a) (mem t b).
        destruct (t =? x), (mem t a), (mem t b); reflexivity.
      * cbn [mem existsb]. fold (mem t (union_index a (y :: b))).
        rewrite IHa. cbn [mem existsb]. fold (mem t a) (mem t b).
        now rewrite orb_assoc.
      * cbn [mem existsb]. fold (mem t (union_index (x :: a) b)).
        rewrite IHb. cbn [mem existsb]. fold (mem t a) (mem t b).
        destruct (t =? x), (t =? y), (mem t a), (mem t b); reflexivity.
Qed.

Lemma union_index_same (a : list Z) : union_index a a = a.
Proof.
  induction a as [|x a IH]; [reflexivity|].
  rewrite union_index_cons, Z.compare_refl. now rewrite IH.
Qed.

Lemma index_align {A B C} (da : A) (db : B) (f : A -> B -> C)
    (a : Series A) (b : Series B) :
  index (align da db f a b) = union_index (index a) (index b).
Proof. unfold align. apply index_tabulate. Qed.

Lemma loc_align {A B C} (da : A) (db : B) (f : A -> B -> C)
    (a : Series A) (b : Series B) (t : Z) :
  loc (align da db f a b) t =
    if mem t (index a) || mem t (index b)
    then Some (f (default da (loc a t)) (default db (loc b t)))
    else None.
Proof. unfold align. rewrite loc_tabulate. now rewrite mem_union. Qed.

(** An operation that maps two [NaN] to [NaN] commutes with re-indexing. *)
Lemma reindex_falign (f : float64 -> float64 -> float64)
    (a b : Series float64) (t : Z) :
  f NaN NaN = NaN ->
  reindex (falign f a b) t = f (reindex a t) (reindex b t).
Proof.
  intros Hf. unfold reindex at 1, falign. rewrite loc_align.
  rewrite !loc_mem. unfold reindex.
  destruct (loc a t), (loc b t); simpl; congruence.
Qed.

Lemma index_combine {A} (ks : list Z) (vs : list A) :
  (length ks <= length vs)%nat -> index (combine ks vs) = ks.
Proof.
  revert vs. induction ks as [|k r IH]; intros vs H; [reflexivity|].
  destruct vs as [|v vs]; simpl in *; [lia|].
  unfold index in *. simpl. f_equal. apply IH. lia.
Qed.

Lemma shift1_rows (s : Series float64) :
  shift1 s = combine (index s) (NaN :: values s).
Proof. reflexivity. Qed.

Lemma shiftm1_rows (s : Series float64) :
  shiftm1 s = combine (index s) (tl (values s) ++ [NaN]).
Proof. unfold shiftm1, shift. cbn. now destruct (values s). Qed.

Lemma index_shift1 (s : Series float64) : index (shift1 s) = index s.
Proof.
  rewrite shift1_rows. apply index_combine. unfold index, values.
  simpl. rewrite !length_map. lia.
Qed.

Lemma index_shiftm1 (s : Series float64) : index (shiftm1 s) = index s.
Proof.
  rewrite shiftm1_rows. apply index_combine. unfold index, values.
  rewrite length_app, !length_map. destruct s; simpl; [lia|].
  rewrite length_map. lia.
Qed.

Lemma loc_shift_from (s : Series float64) (t : Z) : forall x p,
  x = default NaN p ->
  loc (combine (index s) (x :: values s)) t =
    option_map (default NaN) (prev_from p s t).
Proof.
  induction s as [|[k v] r IH]; intros x p Hx; simpl; [reflexivity|].
  destruct (k =? t); [now subst|]. now apply IH.
Qed.

Lemma loc_shift1 (s : Series float64) (t : Z) :
  loc (shift1 s) t = option_map (default NaN) (prev_row s t).
Proof. rewrite shift1_rows. now apply loc_shift_from. Qed.

Lemma loc_shiftm1 (s : Series float64) (t : Z) :
  loc (shiftm1 s) t = option_map (default NaN) (next_row s t).
Proof.
  rewrite shiftm1_rows.
  induction s as [|[k v] r IH]; [reflexivity|].
  destruct r as [|[k' v'] r'].
  - simpl. now destruct (k =? t).
  - simpl in IH |- *. destruct (k =? t); [reflexivity | exact IH].
Qed.

Lemma prev_from_smap {A B} (f : A -> B) (s : Series A) (t : Z) : forall p,
  prev_from (option_map f p) (smap f s) t =
    option_map (option_map f) (prev_from p s t).
Proof.
  induction s as [|[k v] r IH]; intros p; simpl; [reflexivity|].
  destruct (k =? t); [reflexivity|]. apply (IH (Some v)).
Qed.

Lemma prev_from_loc {A} (s : Series A) (t : Z) : forall p,
  match prev_from p s t, loc s t with
  | Some _, Some _ | None, None => True
  | _, _ => False
  end.
Proof.
  induction s as [|[k v] r IH]; intros p; simpl; [exact I|].
  destruct (k =? t); [exact I | apply IH].
Qed.

Lemma loc_slice {A} (start end_ : Z) (s : Series A) (t : Z) :
  loc (slice start end_ s) t =
    if in_window start end_ t then loc s t else None.
Proof.
  unfold slice. fold (in_window start end_ t).
  induction s as [|[k v] r IH]; cbn [List.filter loc fst].
  - now destruct (in_window start end_ t).
  - fold (in_window start end_ k).
    destruct (k =? t) eqn:E.
    + apply Z.eqb_eq in E. subst k.
      destruct (in_window start end_ t) eqn:W; cbn [loc].
      * now rewrite Z.eqb_refl.
      * exact IH.
    + destruct (in_window start end_ k); cbn [loc]; [|exact IH].
      rewrite E. exact IH.
Qed.

(** ** Cost and turnover *)

Lemma fmul_NaN_r (x : float64) : fmul x NaN = NaN.
Proof. now destruct x. Qed.

Lemma fgt_of_Z (a b : Z) : fgt (of_Z a) (of_Z b) = (b <? a).
Proof.
  unfold fgt, of_Z, fcmp, Qcompare. simpl. rewrite !Z.mul_1_r.
  destruct (Z.compare_spec a b), (Z.ltb_spec b a); (reflexivity || lia).
Qed.

Lemma flt_of_Z (a b : Z) : flt (of_Z a) (of_Z b) = (a <? b).
Proof.
  unfold flt, of_Z, fcmp, Qcompare. simpl. rewrite !Z.mul_1_r.
  destruct (Z.compare_spec a b), (Z.ltb_spec a b); (reflexivity || lia).
Qed.

Lemma Qtrunc_inject_Z (k : Z) : Qtrunc (inject_Z k) = k.
Proof. unfold Qtrunc. simpl. apply Z.quot_1_r. Qed.

(** The two products of the cost model add up to [c] times the turnover. *)
Lemma cost_arith (c : Q) (s p : Z) :
  fadd
    (fmul (fmul (Num c) (of_bool ((0 <? s) && (p <? s))))
          (fsub (of_Z s) (of_Z p)))
    (fmul (fmul (Num c) (of_bool ((s <? 0) && (s <? p))))
          (fsub (of_Z p) (of_Z s)))
  = fmul (Num c) (of_Z (turnover s (Some p))).
Proof.
  unfold turnover.
  destruct (0 <? s) eqn:E1, (p <? s) eqn:E2, (s <? 0) eqn:E3,
    (s <? p) eqn:E4; simpl;
    try (apply Z.ltb_lt in E1, E3; lia);
    apply Qred_eq; rewrite ?Qred_correct;
    unfold Z.sub; rewrite ?inject_Z_plus, ?inject_Z_opp;
    change (inject_Z 0) with 0%Q; ring.
Qed.

Lemma trade_arith (s p : Z) :
  fadd
    (fmul (of_bool ((0 <? s) && (p <? s))) (fsub (of_Z s) (of_Z p)))
    (fmul (of_bool ((s <? 0) && (s <? p))) (fsub (of_Z p) (of_Z s)))
  = Num (Qred (inject_Z (turnover s (Some p)))).
Proof.
  unfold turnover.
  destruct (0 <? s) eqn:E1, (p <? s) eqn:E2, (s <? 0) eqn:E3,
    (s <? p) eqn:E4; simpl;
    try (apply Z.ltb_lt in E1, E3; lia);
    apply Qred_eq; rewrite ?Qred_correct;
    unfold Z.sub; rewrite ?inject_Z_plus, ?inject_Z_opp;
    change (inject_Z 0) with 0%Q; ring.
Qed.

Lemma index_falign (f : float64 -> float64 -> float64) (a b : Series float64) :
  index (falign f a b) = union_index (index a) (index b).
Proof. apply index_align. Qed.

Lemma index_astype_float (s : Series Z) : index (astype_float s) = index s.
Proof. apply index_smap. Qed.

Create Rewrite HintDb series_index.
#[local] Hint Rewrite @index_align index_falign @index_smap index_astype_float
  index_shift1 index_shiftm1 union_index_same : series_index.

Lemma index_calc_ret_cost (spread : float64) (signal : Series Z) :
  index (calc_ret_cost spread signal) = index signal.
Proof.
  unfold calc_ret_cost, scale_bool, and_series, gt_series, lt_series,
    gt_scalar, lt_scalar.
  now autorewrite with series_index.
Qed.

Lemma index_trade_raw (signal : Series Z) :
  let sig := astype_float signal in
  index
    (falign fadd
       (falign fmul
          (smap of_bool
             (and_series (gt_scalar signal 0) (gt_series sig (shift1 sig))))
          (falign fsub sig (shift1 sig)))
       (falign fmul
          (smap of_bool
             (and_series (lt_scalar signal 0) (lt_series sig (shift1 sig))))
          (falign fsub (shift1 sig) sig))) = index signal.
Proof.
  intros sig. unfold sig, and_series, gt_series, lt_series, gt_scalar, lt_scalar.
  now autorewrite with series_index.
Qed.

Lemma index_calc_trades_trade (signal : Series Z) :
  index (calc_trades_trade signal) = index signal.
Proof.
  unfold calc_trades_trade, astype_int, fillna.
  rewrite !index_smap. apply index_trade_raw.
Qed.

Section CostRows.
Variable signal : Series Z.
Variable t : Z.

Let sig := astype_float signal.

Lemma mem_signal (s : Z) : loc signal t = Some s -> mem t (index signal) = true.
Proof. intros H. now rewrite loc_mem, H. Qed.

Lemma reindex_sig : reindex sig t = signal_at signal t.
Proof.
  unfold reindex, sig, astype_float, signal_at. rewrite loc_smap.
  now destruct (loc signal t).
Qed.

Lemma prev_row_signal (s : Z) :
  loc signal t = Some s -> prev_row signal t = Some (signal_prev signal t).
Proof.
  intros H. unfold signal_prev, prev_row.
  pose proof (prev_from_loc signal t None) as P. rewrite H in P.
  destruct (prev_from None signal t) as [[p|]|]; [reflexivity.. | contradiction].
Qed.

Lemma reindex_shift_sig (s : Z) :
  loc signal t = Some s ->
  reindex (shift1 sig) t = default NaN (option_map of_Z (signal_prev signal t)).
Proof.
  intros H. unfold reindex. rewrite loc_shift1. unfold sig, astype_float.
  unfold prev_row.
  pose proof (prev_from_smap of_Z signal t None) as P.
  cbn [option_map] in P. rewrite P.
  fold (prev_row signal t). rewrite (prev_row_signal s H). simpl.
  now destruct (signal_prev signal t).
Qed.

Lemma loc_long (s : Z) :
  loc signal t = Some s ->
  loc (and_series (gt_scalar signal 0) (gt_series sig (shift1 sig))) t =
    Some ((0 <? s) && fgt (of_Z s) (reindex (shift1 sig) t)).
Proof.
  intros H. unfold and_series, gt_series, gt_scalar.
  rewrite loc_align, index_smap, (mem_signal s H). cbn [orb].
  rewrite loc_smap, H. cbn [option_map].
  rewrite loc_align. unfold sig at 1, astype_float at 1.
  rewrite index_smap, (mem_signal s H). cbn [orb].
  fold (reindex sig t) (reindex (shift1 sig) t).
  rewrite reindex_sig. unfold signal_at. now rewrite H.
Qed.

Lemma loc_short (s : Z) :
  loc signal t = Some s ->
  loc (and_series (lt_scalar signal 0) (lt_series sig (shift1 sig))) t =
    Some ((s <? 0) && flt (of_Z s) (reindex (shift1 sig) t)).
Proof.
  intros H. unfold and_series, lt_series, lt_scalar.
  rewrite loc_align, index_smap, (mem_signal s H). cbn [orb].
  rewrite loc_smap, H. cbn [option_map].
  rewrite loc_align. unfold sig at 1, astype_float at 1.
  rewrite index_smap, (mem_signal s H). cbn [orb].
  fold (reindex sig t) (reindex (shift1 sig) t).
  rewrite reindex_sig. unfold signal_at. now rewrite H.
Qed.

(** The cost term of a bar. *)
Lemma reindex_cost (c : Q) :
  reindex (calc_ret_cost (Num c) signal) t = cost_at c signal t.
Proof.
  unfold calc_ret_cost, cost_at. fold sig.
  rewrite !reindex_falign by reflexivity.
  rewrite reindex_sig. unfold signal_at.
  destruct (loc signal t) as [s|] eqn:H.
  - unfold reindex at 1 3, scale_bool. rewrite !loc_smap.
    rewrite (loc_long s H), (loc_short s H). cbn [option_map].
    rewrite (reindex_shift_sig s H).
    destruct (signal_prev signal t) as [p|]; cbn [option_map default from_option id cost_term].
    + rewrite fgt_of_Z, flt_of_Z. apply cost_arith.
    + cbn [fsub of_Z]. now rewrite !fmul_NaN_r.
  - cbn [fsub]. now rewrite !fmul_NaN_r.
Qed.

(** The turnover [calc_trades] counts for a bar. *)
Lemma loc_trade (s : Z) :
  loc signal t = Some s ->
  loc (calc_trades_trade signal) t = Some (turnover s (signal_prev signal t)).
Proof.
  intros H. unfold calc_trades_trade, astype_int, fillna. fold sig.
  rewrite !loc_smap, loc_reindex.
  unfold sig at 1 2 3 4 5 6 7 8. rewrite (index_trade_raw signal).
  rewrite (mem_signal s H). fold sig.
  rewrite !reindex_falign by reflexivity.
  unfold reindex at 1 4. rewrite !loc_smap.
  rewrite (loc_long s H), (loc_short s H). cbn [option_map].
  rewrite reindex_sig, (reindex_shift_sig s H). unfold signal_at. rewrite H.
  destruct (signal_prev signal t) as [p|]; cbn [option_map default from_option id].
  - rewrite fgt_of_Z, flt_of_Z, trade_arith. cbn [is_nan]. f_equal.
    rewrite (Qtrunc_comp _ _ (Qred_correct _)). apply Qtrunc_inject_Z.
  - cbn [fsub of_Z]. rewrite !fmul_NaN_r. reflexivity.
Qed.
End CostRows.

Lemma falign_tabulate (f : float64 -> float64 -> float64)
    (a b : Series float64) :
  f NaN NaN = NaN ->
  falign f a b =
    map (fun t => (t, reindex (falign f a b) t)) (index (falign f a b)).
Proof.
  intros Hf. rewrite index_falign. unfold falign at 1, align.
  apply map_ext. intros t. now rewrite reindex_falign.
Qed.

Lemma slice_tabulate {A} (g : Z -> A) (ks : list Z) (start end_ : Z) :
  slice start end_ (map (fun k => (k, g k)) ks) =
    map (fun k => (k, g k)) (List.filter (in_window start end_) ks).
Proof.
  unfold slice. induction ks as [|k r IH]; cbn [map List.filter fst].
  - reflexivity.
  - fold (in_window start end_ k). destruct (in_window start end_ k).
    + cbn [map]. now rewrite IH.
    + exact IH.
Qed.

Lemma values_tabulate {A} (g : Z -> A) (ks : list Z) :
  values (map (fun k => (k, g k)) ks) = map g ks.
Proof. unfold values. now rewrite map_map. Qed.

Lemma turnover_nonneg (s : Z) (prev : option Z) : 0 <= turnover s prev.
Proof.
  unfold turnover. destruct prev as [p|]; [|lia].
  destruct (Z.ltb_spec 0 s), (Z.ltb_spec p s), (Z.ltb_spec s 0),
    (Z.ltb_spec s p); simpl; lia.
Qed.

Lemma calc_ret_cost_tabulate (c : Q) (signal : Series Z) :
  calc_ret_cost (Num c) signal =
    map (fun t => (t, cost_at c signal t)) (index signal).
Proof.
  rewrite <- (index_calc_ret_cost (Num c) signal).
  unfold calc_ret_cost at 1.
  rewrite falign_tabulate by reflexivity.
  apply map_ext. intros t. f_equal. apply reindex_cost.
Qed.

Lemma calc_trades_trade_loc (signal : Series Z) (t : Z) :
  loc (calc_trades_trade signal) t =
    option_map (fun s => turnover s (signal_prev signal t)) (loc signal t).
Proof.
  destruct (loc signal t) as [s|] eqn:H.
  - now apply loc_trade.
  - pose proof (loc_mem (calc_trades_trade signal) t) as M.
    rewrite index_calc_trades_trade, loc_mem, H in M.
    now destruct (loc (calc_trades_trade signal) t).
Qed.

(** Sum of the finite costs against the sum of the turnovers, row by row. *)
Lemma cost_sum_rows (c : Q) (F : Z -> float64) (G : Z -> Z) (ks : list Z) :
  (forall t, In t ks ->
     (F t = NaN /\ G t = 0) \/ F t = fmul (Num c) (of_Z (G t))) ->
  forall a z, Qred a = a -> (a == c * inject_Z z)%Q ->
  exists a', fold_left fadd (dropna (map F ks)) (Num a) = Num a' /\
             Qred a' = a' /\
             (a' == c * inject_Z (fold_left Z.add (map G ks) z))%Q.
Proof.
  induction ks as [|k r IH]; intros H a z Ha Haz.
  - exists a. simpl. auto.
  - assert (forall t, In t r ->
       (F t = NaN /\ G t = 0) \/ F t = fmul (Num c) (of_Z (G t))) as Hr.
    { intros t Ht. apply H. now right. }
    destruct (H k (or_introl eq_refl)) as [[Hk Gk]|Hk].
    + cbn [map dropna List.filter fold_left]. rewrite Hk. cbn [is_nan negb].
      rewrite Gk, Z.add_0_r. now apply IH.
    + cbn [map dropna List.filter fold_left]. rewrite Hk.
      cbn [fmul of_Z is_nan negb fold_left fadd].
      apply IH; [assumption | apply Qred_idem |].
      rewrite !Qred_correct, Haz, inject_Z_plus. ring.
Qed.

Lemma calc_trades_trade_tabulate (signal : Series Z) :
  exists G : Z -> Z,
    calc_trades_trade signal = map (fun t => (t, G t)) (index signal) /\
    forall t, loc (calc_trades_trade signal) t =
              if mem t (index signal) then Some (G t) else None.
Proof.
  unfold calc_trades_trade, astype_int, fillna.
  set (raw := falign fadd _ _).
  assert (index raw = index signal) as Hi by apply index_trade_raw.
  exists (fun t =>
    match (if is_nan (reindex raw t) then Num 0 else reindex raw t) with
    | Num q => Qtrunc q
    | _ => - 9223372036854775808
    end).
  assert (smap
    (fun x => match x with Num q => Qtrunc q | _ => - 9223372036854775808 end)
    (smap (fun x => if is_nan x then Num 0 else x) raw) =
    map (fun t => (t,
      match (if is_nan (reindex raw t) then Num 0 else reindex raw t) with
      | Num q => Qtrunc q
      | _ => - 9223372036854775808
      end)) (index signal)) as E.
  { rewrite <- Hi. unfold raw at 1.
    rewrite falign_tabulate by reflexivity. fold raw.
    unfold smap. rewrite !map_map. reflexivity. }
  split; [exact E|]. intros t. rewrite E. apply loc_tabulate.
Qed.

(** C2 (amended).  On every bar that has a predecessor in the signal the
    cost term of [calc_ret] is [c] times the turnover [calc_trades] counts;
    on the first bar the cost term is [NaN] and the turnover 0.  The costs
    that are numbers add up, over the window, to [c] times
    [calc_trades], and no cost is negative. *)
Theorem cost_is_spread_times_turnover (signal : Series Z) (c : Q)
    (start end_ : Z) :
  (0 <= c)%Q ->
  (forall t s, loc signal t = Some s ->
     loc (calc_ret_cost (Num c) signal) t =
       Some (match signal_prev signal t with
             | Some p => fmul (Num c) (of_Z (turnover s (Some p)))
             | None => NaN
             end) /\
     loc (calc_trades_trade signal) t =
       Some (turnover s (signal_prev signal t)) /\
     0 <= turnover s (signal_prev signal t)) /\
  series_sum (slice start end_ (calc_ret_cost (Num c) signal)) =
    fmul (Num c) (of_Z (calc_trades signal start end_)) /\
  (forall t v, loc (calc_ret_cost (Num c) signal) t = Some v ->
     flt v (Num 0) = false).
Proof.
  intros Hc.
  assert (forall t s, loc signal t = Some s ->
     loc (calc_ret_cost (Num c) signal) t =
       Some (cost_term c s (signal_prev signal t))) as Hcost.
  { intros t s H. rewrite loc_reindex, index_calc_ret_cost.
    rewrite (mem_signal signal t s H), reindex_cost.
    unfold cost_at. now rewrite H. }
  split; [|split].
  - intros t s H. split; [|split].
    + rewrite (Hcost t s H). unfold cost_term.
      now destruct (signal_prev signal t).
    + now apply loc_trade.
    + apply turnover_nonneg.
  - destruct (calc_trades_trade_tabulate signal) as (G & HG & HGloc).
    unfold series_sum, calc_trades, Zsum, fsum.
    rewrite HG, calc_ret_cost_tabulate, !slice_tabulate, !values_tabulate.
    destruct (cost_sum_rows c (cost_at c signal) G
                (List.filter (in_window start end_) (index signal)))
      with (a := 0%Q) (z := 0) as (a' & Ha' & Hcanon & Hval).
    + intros t Ht. apply filter_In in Ht. destruct Ht as [Ht _].
      assert (mem t (index signal) = true) as Hm.
      { unfold mem. apply existsb_exists. exists t.
        split; [assumption | apply Z.eqb_refl]. }
      pose proof (HGloc t) as HGt. rewrite Hm in HGt.
      rewrite calc_trades_trade_loc in HGt.
      unfold cost_at. destruct (loc signal t) as [s|] eqn:H;
        [|discriminate HGt].
      injection HGt as HGt. rewrite <- HGt. unfold cost_term.
      destruct (signal_prev signal t); [right; reflexivity | left; auto].
    + reflexivity.
    + change (inject_Z 0) with 0%Q. ring.
    + rewrite Ha'. cbn [fmul of_Z]. rewrite <- Hcanon. now apply Qred_eq.
  - intros t v Hv. rewrite loc_reindex, index_calc_ret_cost, reindex_cost in Hv.
    destruct (mem t (index signal)); [|discriminate Hv].
    injection Hv as <-. unfold cost_at.
    destruct (loc signal t) as [s|]; [|reflexivity].
    unfold cost_term. destruct (signal_prev signal t) as [p|]; [|reflexivity].
    cbn [fmul of_Z]. apply (bool_iff_false _ _ (flt_Num _ _)).
    rewrite Qred_correct.
    pose proof (turnover_nonneg s (Some p)) as Ht.
    assert (0 <= inject_Z (turnover s (Some p)))%Q as Hq.
    { change 0%Q with (inject_Z 0). now rewrite <- Zle_Qle. }
    pose proof (Qmult_le_0_compat _ _ Hc Hq). lra.
Qed.

Lemma cost_is_spread_times_turnover_witness :
  let signal : Series Z := [(0, 1); (1, 1); (2, 2); (3, 0); (4, -1); (5, -2)] in
  loc (calc_ret_cost (Num (1 # 10)) signal) 2 = Some (Num (1 # 10)) /\
  loc (calc_trades_trade signal) 2 = Some 1 /\
  series_sum (slice 0 5 (calc_ret_cost (Num (1 # 10)) signal)) =
    fmul (Num (1 # 10)) (of_Z (calc_trades signal 0 5)).
Proof.
  intros signal.
  destruct (cost_is_spread_times_turnover signal (1 # 10) 0 5)
    as (Hrow & Hsum & _).
  - discriminate.
  - destruct (Hrow 2 2 eq_refl) as (Hc & Ht & _).
    split; [exact Hc|]. split; [exact Ht | exact Hsum].
Defined.

(** C2, as stated, fails on the first bar of the signal: the cost term is
    [NaN] there, while [c] times the turnover counted by [calc_trades] is
    0. *)
Lemma cost_is_spread_times_turnover_counterexample :
  let signal : Series Z := [(0, 1); (1, 1)] in
  loc (calc_ret_cost (Num (1 # 10)) signal) 0 = Some NaN /\
  option_map (fun k => fmul (Num (1 # 10)) (of_Z k))
    (loc (calc_trades_trade signal) 0) = Some (Num 0).
Proof. split; reflexivity. Qed.

(** ** Returns *)

Lemma reindex_shiftm1 (op : Series float64) (t : Z) :
  reindex (shiftm1 op) t = open_next op t.
Proof.
  unfold reindex, open_next. rewrite loc_shiftm1.
  now destruct (next_row op t) as [[v|]|].
Qed.

Lemma clean_zero_if_not_finite (x : float64) :
  (fun y => if feqb y PInf || feqb y NInf then Num 0 else y)
    (if is_nan x then Num 0 else x) = zero_if_not_finite x.
Proof. now destruct x. Qed.

(** C1 (amended).  [calc_ret] has one row for every bar of the window that
    is a row of the open series or of the signal, and the value of the row
    is [((open_{t+1} - open_t) * signal_t - cost_t) / open_t] with every
    result that is not finite replaced by 0, where [cost_t] is [c] times
    the turnover on a bar that has a predecessor in the signal and [NaN] on
    the first bar of the signal; so the return of that first bar is 0. *)
Theorem calc_ret_rows (op : Series float64) (signal : Series Z) (c : Q)
    (start end_ t : Z) :
  loc (calc_ret op signal (Num c) start end_) t =
    (if in_window start end_ t && (mem t (index op) || mem t (index signal))
     then Some (zero_if_not_finite
                  (ret_formula (reindex op t) (open_next op t)
                     (signal_at signal t) (cost_at c signal t)))
     else None) /\
  (forall s, loc signal t = Some s ->
     cost_at c signal t =
       match signal_prev signal t with
       | Some p => fmul (Num c) (of_Z (turnover s (Some p)))
       | None => NaN
       end) /\
  (forall s, loc signal t = Some s -> signal_prev signal t = None ->
     in_window start end_ t = true ->
     loc (calc_ret op signal (Num c) start end_) t = Some (Num 0)).
Proof.
  assert (loc (calc_ret op signal (Num c) start end_) t =
    (if in_window start end_ t && (mem t (index op) || mem t (index signal))
     then Some (zero_if_not_finite
                  (ret_formula (reindex op t) (open_next op t)
                     (signal_at signal t) (cost_at c signal t)))
     else None)) as Hmain.
  { unfold calc_ret, replace_inf, fillna.
    rewrite loc_slice, !loc_smap, loc_reindex.
    rewrite !index_falign, !mem_union, index_shiftm1, index_astype_float.
    rewrite index_calc_ret_cost.
    rewrite !reindex_falign by reflexivity.
    rewrite reindex_shiftm1, reindex_cost.
    fold (astype_float signal). rewrite reindex_sig.
    destruct (in_window start end_ t); [|reflexivity].
    destruct (mem t (index op)), (mem t (index signal)); cbn [orb andb option_map];
      try reflexivity;
      now rewrite clean_zero_if_not_finite. }
  split; [exact Hmain|]. split.
  - intros s H. unfold cost_at, cost_term. rewrite H.
    now destruct (signal_prev signal t).
  - intros s H Hp Hw. rewrite Hmain, Hw, (mem_signal signal t s H).
    rewrite orb_true_r. cbn [andb]. unfold cost_at, cost_term, ret_formula.
    rewrite H, Hp.
    now destruct (fmul (fsub (open_next op t) (reindex op t)) (signal_at signal t)).
Qed.

(** C1, as stated, fails on the first bar of the signal.  With a long
    position held from the first bar, a price that goes from 1 to 2 and no
    spread, the claimed return of the first bar is 1; [calc_ret] returns
    0. *)
Lemma calc_ret_counterexample :
  let op : Series float64 := [(0, Num 1); (1, Num 2); (2, Num 3)] in
  let signal : Series Z := [(0, 1); (1, 1)] in
  loc (calc_ret op signal (Num 0) 0 2) 0 = Some (Num 0) /\
  zero_if_not_finite
    (ret_formula (reindex op 0) (open_next op 0) (signal_at signal 0)
       (claimed_cost_at 0 signal 0)) = Num 1.
Proof. split; reflexivity. Qed.

Lemma calc_ret_rows_witness :
  let op : Series float64 :=
    [(0, Num 1); (1, Num 2); (2, Num 3); (3, Num 0); (4, Num 4)] in
  let signal : Series Z := [(0, 1); (1, 1); (2, 2); (3, 0)] in
  loc (calc_ret op signal (Num (1 # 10)) 0 10) 0 = Some (Num 0) /\
  loc (calc_ret op signal (Num (1 # 10)) 0 10) 2 = Some (Num (-61 # 30)).
Proof.
  intros op signal.
  destruct (calc_ret_rows op signal (1 # 10) 0 10 0) as (_ & _ & H0).
  destruct (calc_ret_rows op signal (1 # 10) 0 10 2) as (H2 & _ & _).
  split.
  - apply (H0 1); reflexivity.
  - rewrite H2. reflexivity.
Defined.

(** Every value [calc_ret] returns is finite. *)
Lemma calc_ret_finite (op : Series float64) (signal : Series Z)
    (spread : float64) (start end_ : Z) :
  finite_series (calc_ret op signal spread start end_).
Proof.
  unfold calc_ret, finite_series, replace_inf, fillna, slice, values, smap.
  set (raw := falign fdiv _ _).
  rewrite map_map. induction raw as [|[k v] r IH]; cbn [map List.filter fst snd].
  - constructor.
  - destruct ((start <=? k) && (k <=? end_)); [|exact IH].
    cbn [map snd]. constructor; [|exact IH]. now destruct v.
Qed.

(** ** Drawdown *)

Lemma is_finite_Num (x : float64) : is_finite x -> exists q, x = Num q.
Proof. destruct x; simpl; try contradiction. eauto. Qed.

Lemma cumprod_from_finite (l : list float64) : forall acc,
  is_finite acc -> Forall is_finite l -> Forall is_finite (cumprod_from acc l).
Proof.
  induction l as [|x r IH]; intros acc Ha Hl; simpl; [constructor|].
  inversion Hl as [|? ? Hx Hr]; subst.
  destruct (is_finite_Num _ Hx) as [q ->]. destruct (is_finite_Num _ Ha) as [a ->].
  simpl. constructor; [exact I|]. apply IH; [exact I | assumption].
Qed.

Lemma cum_ret_finite (ret : Series float64) :
  finite_series ret -> Forall is_finite (cum_ret ret).
Proof.
  unfold finite_series, cum_ret, cumprod. intros H.
  assert (Forall is_finite (map (fun x => fadd x (Num 1)) (values ret))) as H1.
  { induction H as [|x l Hx Hl IH]; simpl; constructor; [|assumption].
    destruct (is_finite_Num _ Hx) as [q ->]. exact I. }
  pose proof (cumprod_from_finite _ (Num 1) I H1) as H2.
  induction H2 as [|x l Hx Hl IH]; simpl; constructor; [|assumption].
  destruct (is_finite_Num _ Hx) as [q ->]. exact I.
Qed.

Lemma cum_ret_length (ret : Series float64) : length (cum_ret ret) = length ret.
Proof.
  unfold cum_ret, cumprod, values. rewrite length_map.
  assert (forall l acc, length (cumprod_from acc l) = length l) as H.
  { induction l as [|x r IH]; intros acc; simpl; [reflexivity|].
    destruct (is_nan x); simpl; now rewrite IH. }
  now rewrite H, !length_map.
Qed.

Section DrawdownFacts.
Variable cum : list float64.
Hypothesis Hfin : Forall is_finite cum.

Lemma cell_finite (i : nat) :
  (i < length cum)%nat -> exists w, cell cum i = Num w.
Proof.
  intros Hi. apply is_finite_Num. unfold cell.
  rewrite List.Forall_forall in Hfin. apply Hfin. now apply nth_In.
Qed.

Lemma high_watermark_finite (i : nat) :
  (i < length cum)%nat -> exists h, high_watermark cum i = Num h.
Proof.
  induction i as [|j IH]; intros Hi; simpl.
  - now apply cell_finite.
  - destruct (fge _ _); [apply IH; lia | now apply cell_finite].
Qed.


Lemma drawdown_finite (i : nat) :
  (i < length cum)%nat -> exists d, drawdown cum i = Num d.
Proof.
  induction i as [|j IH]; intros Hi.
  - simpl. destruct (cell_finite 0 Hi) as [w Hw]. rewrite Hw.
    destruct (flt _ _) eqn:G; [eauto|].
    apply guard_nonzero in G. simpl.
    rewrite (proj2 (Qeq_bool_false _ _)); [eauto|].
    now rewrite Qred_correct.
  - cbn [drawdown]. destruct (cell_finite (S j) Hi) as [w Hw]. rewrite Hw.
    destruct (flt _ _) eqn:G; [apply IH; lia|].
    destruct (high_watermark_finite (S j) Hi) as [h Hh].
    rewrite Hh. apply guard_nonzero in G. simpl.
    rewrite (proj2 (Qeq_bool_false _ _)); [eauto|].
    now rewrite Qred_correct.
Qed.

(** The first cell of the drawdown array is zero. *)
Lemma drawdown_first : (0 < length cum)%nat -> drawdown cum 0 = Num 0.
Proof.
  intros Hi. simpl. destruct (cell_finite 0 Hi) as [w Hw]. rewrite Hw.
  destruct (flt _ _) eqn:G; [reflexivity|].
  apply guard_nonzero in G. simpl.
  rewrite (proj2 (Qeq_bool_false _ _)) by now rewrite Qred_correct.
  simpl. f_equal. apply Qred_zero. rewrite !Qred_correct. field.
  exact G.
Qed.
End DrawdownFacts.

(** The accumulator of the final loop is the largest cell seen so far. *)
Lemma running_max_spec (a : nat -> float64) (n : nat) :
  (forall j, (j <= n)%nat -> exists q, a j = Num q) ->
  exists m, running_max a n = Num m /\
    (forall j q, (j <= n)%nat -> a j = Num q -> (q <= m)%Q) /\
    (exists j, (j <= n)%nat /\ a j = Num m).
Proof.
  induction n as [|n IH]; intros Hfin.
  - destruct (Hfin 0%nat (le_n _)) as [q Hq]. exists q. simpl.
    split; [exact Hq|]. split.
    + intros j q' Hj Hq'. assert (j = 0)%nat as -> by lia.
      rewrite Hq in Hq'. injection Hq' as <-. lra.
    + exists 0%nat. split; [lia | exact Hq].
  - destruct IH as (m & Hm & Hub & jm & Hjm & Hjm').
    { intros j Hj. apply Hfin. lia. }
    destruct (Hfin (S n) (le_n _)) as [q Hq].
    simpl. rewrite Hm, Hq.
    destruct (fgt (Num q) (Num m)) eqn:G.
    + apply fgt_Num in G. exists q. split; [reflexivity|]. split.
      * intros j q' Hj Hq'. destruct (Nat.eq_dec j (S n)) as [->|Hne].
        -- rewrite Hq in Hq'. injection Hq' as <-. lra.
        -- assert (q' <= m)%Q by (apply (Hub j); [lia | assumption]). lra.
      * exists (S n). split; [lia | exact Hq].
    + apply (bool_iff_false _ _ (fgt_Num _ _)) in G.
      exists m. split; [reflexivity|]. split.
      * intros j q' Hj Hq'. destruct (Nat.eq_dec j (S n)) as [->|Hne].
        -- rewrite Hq in Hq'. injection Hq' as <-. lra.
        -- apply (Hub j); [lia | assumption].
      * exists jm. split; [lia | exact Hjm'].
Qed.

Lemma running_max_const (a : nat -> float64) (n : nat) :
  (forall j, (j <= n)%nat -> a j = Num 0) -> running_max a n = Num 0.
Proof.
  induction n as [|n IH]; intros H; simpl.
  - apply H. lia.
  - rewrite IH by (intros j Hj; apply H; lia).
    rewrite (H (S n)) by lia. reflexivity.
Qed.

Section MonotoneWealth.
Variable cum : list float64.
Hypothesis Hfin : Forall is_finite cum.
Hypothesis Hmono : nondecreasing cum.

(** With a wealth that never decreases the high-water mark is the wealth
    of the current bar. *)
Lemma high_watermark_monotone (i : nat) :
  (i < length cum)%nat ->
  exists h w, high_watermark cum i = Num h /\ cell cum i = Num w /\
              (h == w)%Q.
Proof.
  induction i as [|j IH]; intros Hi.
  - destruct (cell_finite cum Hfin 0 Hi) as [w Hw].
    exists w, w. simpl. rewrite Hw. repeat split; reflexivity.
  - destruct IH as (h & w & Hh & Hw & E); [lia|].
    destruct (cell_finite cum Hfin (S j) Hi) as [w' Hw'].
    specialize (Hmono j Hi). fold (cell cum j) (cell cum (S j)) in Hmono.
    rewrite Hw, Hw' in Hmono. apply fle_Num in Hmono.
    cbn [high_watermark]. rewrite Hh, Hw'.
    destruct (fge (Num h) (Num w')) eqn:G.
    + apply fge_Num in G. exists h, w'. repeat split; lra.
    + exists w', w'. repeat split; reflexivity.
Qed.

Lemma drawdown_monotone (i : nat) :
  (i < length cum)%nat -> drawdown cum i = Num 0.
Proof.
  induction i as [|j IH]; intros Hi.
  - apply drawdown_first; assumption.
  - destruct (high_watermark_monotone (S j) Hi) as (h & w & Hh & Hw & E).
    cbn [drawdown]. rewrite Hw.
    destruct (flt _ _) eqn:G; [apply IH; lia|].
    rewrite Hh. apply guard_nonzero in G. simpl.
    rewrite (proj2 (Qeq_bool_false _ _)) by now rewrite Qred_correct.
    simpl. f_equal. apply Qred_zero. rewrite !Qred_correct, E. field.
    exact G.
Qed.
End MonotoneWealth.

(** C3.  The maximal drawdown of a non-empty return series is never
    negative, and it is exactly zero when the cumulative wealth
    [W_t = prod (1 + ret_i) - 1] never decreases. *)
Theorem calc_drawdowns_nonneg (ret : Series float64) :
  ret <> [] -> finite_series ret ->
  (exists d, calc_drawdowns ret = Ok (Num d) /\ (0 <= d)%Q) /\
  (nondecreasing (cum_ret ret) -> calc_drawdowns ret = Ok (Num 0)).
Proof.
  intros Hne Hfin. pose proof (cum_ret_finite ret Hfin) as Hc.
  pose proof (cum_ret_length ret) as Hlen.
  unfold calc_drawdowns.
  destruct (length (cum_ret ret)) as [|n] eqn:El.
  { destruct ret; [contradiction | discriminate]. }
  split.
  - destruct (running_max_spec (drawdown (cum_ret ret)) n) as (m & Hm & Hub & _).
    { intros j Hj. apply drawdown_finite; [assumption | lia]. }
    exists m. split; [now rewrite Hm|].
    apply (Hub 0%nat); [lia|]. apply drawdown_first; [assumption | lia].
  - intros Hmono. f_equal. apply running_max_const.
    intros j Hj. apply drawdown_monotone; [assumption.. | lia].
Qed.

Lemma calc_drawdowns_nonneg_witness :
  let ret : Series float64 :=
    [(0, Num (1 # 10)); (1, Num 0); (2, Num (1 # 5))] in
  (exists d, calc_drawdowns ret = Ok (Num d) /\ (0 <= d)%Q) /\
  calc_drawdowns ret = Ok (Num 0).
Proof.
  intros ret.
  destruct (calc_drawdowns_nonneg ret) as [H1 H2].
  - discriminate.
  - repeat constructor.
  - split; [exact H1|]. apply H2.
    intros [|[|i]] Hi; [reflexivity | reflexivity | simpl in Hi; lia].
Defined.

(** ** Drawdown duration *)

Section DurationFacts.
Variable cum : list float64.
Hypothesis Hfin : Forall is_finite cum.


End DurationFacts.

(** The value [calc_durations] returns once the longest run is known. *)
Lemma calc_durations_value (ret : Series float64) (timeframe : Z) (n : nat)
    (longest : Q) :
  0 < timeframe ->
  length (cum_ret ret) = S n ->
  running_max (duration (cum_ret ret)) n = Num longest ->
  calc_durations ret timeframe =
    Ok (Qtrunc (longest / (1440 / inject_Z timeframe))).
Proof.
  intros Htf Hlen Hmax. unfold calc_durations. rewrite Hlen, Hmax.
  pose proof (inject_Z_nonzero timeframe ltac:(lia)) as Hnz.
  unfold py_div. rewrite (proj2 (Qeq_bool_false _ _) Hnz). simpl.
  assert (~ (1440 / inject_Z timeframe == 0)%Q) as Hk.
  { intros E. apply Hnz.
    assert (inject_Z timeframe == 1440 / (1440 / inject_Z timeframe))%Q as ->
      by (field; assumption).
    rewrite E. reflexivity. }
  rewrite (proj2 (Qeq_bool_false _ _)) by now rewrite Qred_correct.
  simpl. f_equal. apply Qtrunc_comp. now rewrite !Qred_correct.
Qed.




(** ** Sharpe ratio and Kelly fraction of a single return *)

Lemma fdiv_NaN_r (x : float64) : fdiv x NaN = NaN.
Proof. now destruct x. Qed.

Lemma years_zero (start end_ : Z) :
  Qeq_bool (years start end_) 0 = true <-> start = end_.
Proof.
  rewrite Qeq_bool_iff. unfold years. rewrite Qred_correct. split.
  - intros E.
    assert (inject_Z (60 * (end_ - start)) == 0)%Q as E'.
    { assert (inject_Z (60 * (end_ - start)) ==
              inject_Z (60 * (end_ - start)) / 60 / 60 / 24 / 365
              * (60 * 60 * 24 * 365))%Q as -> by (field; lra).
      rewrite E. ring. }
    unfold Qeq in E'. simpl in E'. lia.
  - intros ->. rewrite Z.sub_diag. reflexivity.
Qed.

Lemma series_std_one (sqrtQ : Q -> Q) (t : Z) (x : float64) :
  series_std sqrtQ [(t, x)] = NaN.
Proof. unfold series_std, series_var. now destruct x. Qed.

(** C10 (amended).  For a return series of one element [calc_kelly]
    returns [NaN]; [calc_sharpe] returns [NaN] when [end] differs from
    [start], and raises [ZeroDivisionError] on [bars / years] when the two
    are equal.  The standard deviation is [NaN], for which the guard
    [abs(std) < EPS] is false. *)
Theorem one_bar_sharpe_kelly (sqrtQ : Q -> Q) (t : Z) (x : float64)
    (start end_ : Z) :
  series_std sqrtQ [(t, x)] = NaN /\
  flt (fabs (series_std sqrtQ [(t, x)])) EPS = false /\
  calc_kelly sqrtQ [(t, x)] = NaN /\
  (start <> end_ -> calc_sharpe sqrtQ [(t, x)] start end_ = Ok NaN) /\
  (start = end_ ->
     calc_sharpe sqrtQ [(t, x)] start end_ = Err ZeroDivisionError).
Proof.
  pose proof (series_std_one sqrtQ t x) as Hstd.
  split; [exact Hstd|]. split; [now rewrite Hstd|]. split; [|split].
  - unfold calc_kelly. rewrite Hstd. cbn [fabs flt fcmp fmul].
    apply fdiv_NaN_r.
  - intros Hne. unfold calc_sharpe, py_div.
    destruct (Qeq_bool (years start end_) 0) eqn:E.
    + apply years_zero in E. contradiction.
    + cbn [bind]. rewrite Hstd. cbn [fabs flt fcmp]. f_equal.
      apply fdiv_NaN_r.
  - intros Heq. unfold calc_sharpe, py_div.
    now rewrite (proj2 (years_zero start end_) Heq).
Qed.

Lemma one_bar_sharpe_kelly_witness :
  calc_kelly (fun q => q) [(0, Num (1 # 100))] = NaN /\
  calc_sharpe (fun q => q) [(0, Num (1 # 100))] 0 1440 = Ok NaN.
Proof.
  destruct (one_bar_sharpe_kelly (fun q => q) 0 (Num (1 # 100)) 0 1440)
    as (_ & _ & Hk & Hs & _).
  split; [exact Hk|]. apply Hs. discriminate.
Defined.

(** C10, as stated, fails for a window of a single instant: with
    [start = end] the division [bars / years] raises before the guard is
    reached, and [calc_sharpe] returns nothing. *)
Lemma one_bar_sharpe_counterexample :
  calc_sharpe (fun q => q) [(0, Num (1 # 100))] 0 0 = Err ZeroDivisionError.
Proof. reflexivity. Qed.

(** ** Grid search *)












Lemma fle_trans (x y z : float64) :
  fle x y = true -> fle y z = true -> fle x z = true.
Proof.
  destruct x, y, z; try discriminate; try reflexivity.
  rewrite !fle_Num. lra.
Qed.










(** ** Walk-forward windows *)

Section WalkForwardFacts.
Variables timeframe in_sample_period out_of_sample_period : Z.
Variable fixed_window : Z.
Variables start end_ : Z.
Variable run_window :
  nat -> list Q -> window -> result (list Q * performance).

Hypothesis Hbar : 0 < timeframe.
Hypothesis Hspan : timeframe <= days out_of_sample_period.

Let win := window_of timeframe in_sample_period out_of_sample_period
             fixed_window start.
Let step := wf_step timeframe in_sample_period out_of_sample_period
              fixed_window start end_ run_window.
Let loop := wf_loop timeframe in_sample_period out_of_sample_period
              fixed_window start end_ run_window.
Let fit := fits timeframe in_sample_period out_of_sample_period
             fixed_window start end_.
Let count := window_count timeframe in_sample_period out_of_sample_period
               fixed_window start end_.

Lemma window_of_bounds (i : nat) :
  start_test (win i) =
    start + days (out_of_sample_period * Z.of_nat i)
    + days in_sample_period /\
  end_test (win i) =
    start + days (out_of_sample_period * Z.of_nat i)
    + days in_sample_period + days out_of_sample_period - timeframe /\
  end_train (win i) = start_test (win i) - timeframe.
Proof using Type.
  clear Hbar Hspan step loop fit count.
  unfold win, window_of. destruct (fixed_window =? 1); cbn; lia.
Qed.

Lemma end_test_succ (i : nat) :
  end_test (win (S i)) = end_test (win i) + days out_of_sample_period.
Proof using Type.
  clear Hbar Hspan step loop fit count.
  destruct (window_of_bounds i) as (_ & -> & _).
  destruct (window_of_bounds (S i)) as (_ & -> & _).
  unfold days. lia.
Qed.

Lemma end_test_linear (i : nat) :
  end_test (win i) =
    end_test (win 0) + Z.of_nat i * days out_of_sample_period.
Proof using Type.
  clear Hbar Hspan step loop fit count.
  induction i as [|i IH]; [lia|]. rewrite end_test_succ, IH. lia.
Qed.

(** The windows that fit are the first [count] ones. *)
Lemma fit_count (i : nat) : fit i <-> (i < count)%nat.
Proof.
  unfold fit, fits, count, window_count. fold win.
  rewrite (end_test_linear i).
  assert (0 < days out_of_sample_period) as HD by lia.
  set (D := days out_of_sample_period) in *.
  set (E0 := end_test (win 0)).
  destruct (Z.ltb_spec end_ E0) as [Hlt|Hge].
  - split; [|lia]. intros H. assert (0 <= Z.of_nat i * D) by nia. lia.
  - pose proof (Z.div_mod (end_ - E0) D ltac:(lia)) as Hdm.
    pose proof (Z.mod_pos_bound (end_ - E0) D HD) as Hmod.
    assert (0 <= (end_ - E0) / D) as Hq by (apply Z.div_pos; lia).
    split; intros H.
    + assert (Z.of_nat i <= (end_ - E0) / D) by nia. lia.
    + assert (Z.of_nat i <= (end_ - E0) / D) by lia. nia.
Qed.

Let inv := wf_inv timeframe in_sample_period out_of_sample_period
             fixed_window start.

Lemma wf_step_break (st : wf_state) (k : nat) :
  inv st k -> ~ fit k -> step st = None.
Proof.
  intros (Hi & _) Hk. unfold step, wf_step. rewrite Hi. fold win.
  unfold fit, fits in Hk. fold win in Hk.
  destruct (Z.ltb_spec end_ (end_test (win k))); [reflexivity | lia].
Qed.

Lemma wf_step_pass (st : wf_state) (k : nat) :
  inv st k -> fit k ->
  (exists st', step st = Some (Ok st') /\ inv st' (S k)) \/
  (exists e, step st = Some (Err e) /\
             run_window k (wf_parameter st) (win k) = Err e).
Proof.
  intros (Hi & Hrows & Hvars) Hk. unfold step, wf_step. rewrite Hi.
  fold win. unfold fit, fits in Hk. fold win in Hk.
  destruct (Z.ltb_spec end_ (end_test (win k))); [lia|].
  destruct (run_window k (wf_parameter st) (win k)) as [[parameter p]|e];
    [left | right; eauto].
  cbn [bind].
  assert (row_windows (wf_rows st ++ [(win k, parameter, p)]) =
          map win (seq 0 (S k))) as Hrows'.
  { unfold row_windows in *. rewrite map_app, Hrows, seq_S, map_app.
    reflexivity. }
  destruct k as [|k].
  - cbn [Nat.eqb]. eexists. split; [reflexivity|].
    destruct Hvars as (_ & _ & He).
    repeat split; cbn; eauto.
  - cbn [Nat.eqb].
    assert (is_Some (wf_signal_all st)) as [sig Hsig]
      by (destruct k; apply Hvars).
    rewrite Hsig. cbn [local bind].
    eexists. split; [reflexivity|].
    repeat split; cbn; eauto.
    destruct k; apply Hvars.
Qed.

(** The loop leaves through its [break] at pass [count], unless the body
    of an earlier pass raises. *)
Lemma wf_loop_from (d : nat) : forall (k : nat) (st : wf_state) (fuel : nat),
  (k + d = count)%nat -> inv st k -> (d < fuel)%nat ->
  (exists st', loop fuel st = Some (Ok st') /\ inv st' count) \/
  (exists e i p, loop fuel st = Some (Err e) /\ (i < count)%nat /\
                 run_window i p (win i) = Err e).
Proof.
  induction d as [|d IH]; intros k st fuel Hk Hinv Hfuel.
  - assert (k = count) as -> by lia.
    destruct fuel as [|fuel]; [lia|]. cbn [loop wf_loop]. fold step.
    rewrite (wf_step_break st count Hinv).
    + left. eauto.
    + rewrite fit_count. lia.
  - destruct fuel as [|fuel]; [lia|]. cbn [loop wf_loop]. fold step.
    assert (fit k) as Hfit by (rewrite fit_count; lia).
    destruct (wf_step_pass st k Hinv Hfit)
      as [(st' & -> & Hinv')|(e & -> & He)].
    + apply (IH (S k)); [lia | assumption | lia].
    + right. exists e, k, (wf_parameter st). repeat split; [lia | exact He].
Qed.

Lemma wf_init_inv (parameter : list Q) : inv (wf_init parameter) 0.
Proof. repeat split. Qed.

(** More passes than needed change nothing. *)
Lemma wf_loop_fuel (fuel : nat) : forall st r fuel',
  loop fuel st = Some r -> (fuel <= fuel')%nat -> loop fuel' st = Some r.
Proof.
  induction fuel as [|fuel IH]; intros st r fuel' H Hle; [discriminate|].
  destruct fuel' as [|fuel']; [lia|].
  cbn [loop wf_loop] in H |- *. fold step in H |- *.
  destruct (step st) as [[st'|e]|]; try exact H.
  apply (IH st' r fuel' H). lia.
Qed.
End WalkForwardFacts.

(** C6.  With a bar of positive length and an out-of-sample period of at
    least one bar: in every iteration the test window starts one bar after
    the train window ends and lasts the out-of-sample period less one bar;
    test windows are not empty, do not overlap, and follow each other in
    order; the windows that fit in the run are the first [window_count]
    ones, and the loop leaves at that iteration with exactly these windows
    produced, unless the body of an earlier iteration raises. *)
Theorem walk_forward_windows (timeframe in_sample_period
    out_of_sample_period fixed_window start end_ : Z)
    (run_window : nat -> list Q -> window -> result (list Q * performance))
    (parameter : list Q) :
  0 < timeframe -> timeframe <= days out_of_sample_period ->
  let win := window_of timeframe in_sample_period out_of_sample_period
               fixed_window start in
  let n := window_count timeframe in_sample_period out_of_sample_period
             fixed_window start end_ in
  let loop := wf_loop timeframe in_sample_period out_of_sample_period
                fixed_window start end_ run_window in
  (forall i,
     start_test (win i) = end_train (win i) + timeframe /\
     end_test (win i) =
       start_test (win i) + days out_of_sample_period - timeframe /\
     start_test (win i) <= end_test (win i) /\
     end_test (win i) < start_test (win (S i)) /\
     end_train (win i) < start_test (win i)) /\
  (forall i, end_test (win i) <= end_ <-> (i < n)%nat) /\
  (forall fuel, (n < fuel)%nat ->
     (exists st, loop fuel (wf_init parameter) = Some (Ok st) /\
                 wf_i st = n /\
                 row_windows (wf_rows st) = map win (seq 0 n)) \/
     (exists e i p, loop fuel (wf_init parameter) = Some (Err e) /\
                    (i < n)%nat /\ run_window i p (win i) = Err e)).
Proof.
  intros Hbar Hspan win n loop. split; [|split].
  - intros i.
    destruct (window_of_bounds timeframe in_sample_period
                out_of_sample_period fixed_window start i) as (Hs & He & Ht).
    destruct (window_of_bounds timeframe in_sample_period
                out_of_sample_period fixed_window start (S i)) as (Hs' & _).
    fold win in Hs, He, Ht, Hs'. rewrite Hs', He, Ht, Hs.
    unfold days in *. lia.
  - intros i. apply (fit_count timeframe in_sample_period
                       out_of_sample_period fixed_window start end_ Hbar Hspan).
  - intros fuel Hfuel.
    destruct (wf_loop_from timeframe in_sample_period out_of_sample_period
                fixed_window start end_ run_window Hbar Hspan n 0
                (wf_init parameter) fuel eq_refl
                (wf_init_inv _ _ _ _ _ parameter) Hfuel)
      as [(st & Hl & Hi & Hrows & _)|(e & i & p & Hl & Hi & He)].
    + left. exists st. auto.
    + right. exists e, i, p. auto.
Qed.

Lemma walk_forward_windows_witness :
  let run_window := fun (_ : nat) (p : list Q) (_ : window) =>
                      Ok (p, no_performance) in
  window_count 1440 10 5 1 0 28800 = 2%nat /\
  exists st, wf_loop 1440 10 5 1 0 28800 run_window 3 (wf_init []) =
               Some (Ok st) /\
             row_windows (wf_rows st) =
               [ {| start_train := 0; end_train := 12960;
                    start_test := 14400; end_test := 20160 |};
                 {| start_train := 7200; end_train := 20160;
                    start_test := 21600; end_test := 27360 |} ].
Proof.
  intros run_window. split; [reflexivity|].
  destruct (walk_forward_windows 1440 10 5 1 0 28800 run_window [])
    as (_ & _ & H).
  - lia.
  - unfold days. lia.
  - destruct (H 3%nat) as [(st & Hl & _ & Hr)|(e & i & p & _ & _ & He)].
    + change (window_count 1440 10 5 1 0 28800) with 2%nat. lia.
    + exists st. split; [exact Hl | exact Hr].
    + discriminate He.
Defined.

(** C9.  The loop of [walk_forward_test] ends for every fuel above the
    number of windows that fit.  When it ends through its [break], the
    aggregate step reads [signal_all], [start_all] and [end_all]: with no
    window [signal_all] is unbound, with one window [end_all] is unbound,
    and from two windows on the three are bound and the aggregate is
    computed from the first test start to the last test end.  So a run in
    which fewer than two windows fit never returns an aggregate. *)
Theorem walk_forward_aggregate_unbound (timeframe in_sample_period
    out_of_sample_period fixed_window start end_ : Z)
    (run_window : nat -> list Q -> window -> result (list Q * performance))
    (sqrtQ : Q -> Q) (op : Series float64) (spread : float64)
    (parameter : list Q) :
  0 < timeframe -> timeframe <= days out_of_sample_period ->
  let win := window_of timeframe in_sample_period out_of_sample_period
               fixed_window start in
  let n := window_count timeframe in_sample_period out_of_sample_period
             fixed_window start end_ in
  let loop := wf_loop timeframe in_sample_period out_of_sample_period
                fixed_window start end_ run_window in
  let runner := walk_forward_run timeframe in_sample_period
               out_of_sample_period fixed_window start end_ run_window
               sqrtQ op spread in
  let aggregate := wf_aggregate timeframe sqrtQ op spread in
  (forall fuel, (n < fuel)%nat -> exists r, runner fuel parameter = Some r) /\
  (forall fuel st, loop fuel (wf_init parameter) = Some (Ok st) ->
     match n with
     | O => aggregate st = Err (UnboundLocalError "signal_all")
     | S O => aggregate st = Err (UnboundLocalError "end_all")
     | S (S j) =>
         exists signal_all,
           wf_signal_all st = Some signal_all /\
           aggregate st =
             calc_aggregate timeframe sqrtQ op spread signal_all
               (start_test (win 0%nat)) (end_test (win (S j)))
     end) /\
  ((n < 2)%nat -> forall fuel r,
     runner fuel parameter = Some r -> exists e, r = Err e).
Proof.
  intros Hbar Hspan win n loop runner aggregate.
  assert (forall fuel, (n < fuel)%nat ->
    (exists st, loop fuel (wf_init parameter) = Some (Ok st) /\
                wf_inv timeframe in_sample_period out_of_sample_period
                  fixed_window start st n) \/
    (exists e, loop fuel (wf_init parameter) = Some (Err e))) as Hloop.
  { intros fuel Hfuel.
    destruct (wf_loop_from timeframe in_sample_period out_of_sample_period
                fixed_window start end_ run_window Hbar Hspan n 0
                (wf_init parameter) fuel eq_refl
                (wf_init_inv _ _ _ _ _ parameter) Hfuel)
      as [(st & Hl & Hinv)|(e & i & p & Hl & _)]; eauto. }
  assert (forall fuel st, loop fuel (wf_init parameter) = Some (Ok st) ->
    wf_inv timeframe in_sample_period out_of_sample_period
      fixed_window start st n) as Hinv.
  { intros fuel st Hl.
    pose proof (wf_loop_fuel timeframe in_sample_period
                  out_of_sample_period fixed_window start end_ run_window
                  fuel _ _ (fuel + S n)%nat Hl ltac:(lia)) as Hl'.
    destruct (Hloop (fuel + S n)%nat ltac:(lia))
      as [(st' & Hl'' & Hi)|(e & Hl'')];
      fold loop in Hl'; rewrite Hl' in Hl''; [|discriminate].
    injection Hl'' as <-. exact Hi. }
  assert (forall fuel st, loop fuel (wf_init parameter) = Some (Ok st) ->
     match n with
     | O => aggregate st = Err (UnboundLocalError "signal_all")
     | S O => aggregate st = Err (UnboundLocalError "end_all")
     | S (S j) =>
         exists signal_all,
           wf_signal_all st = Some signal_all /\
           aggregate st =
             calc_aggregate timeframe sqrtQ op spread signal_all
               (start_test (win 0%nat)) (end_test (win (S j)))
     end) as Hagg.
  { intros fuel st Hl. destruct (Hinv fuel st Hl) as (_ & _ & Hvars).
    unfold aggregate, wf_aggregate.
    destruct n as [|[|j]].
    - destruct Hvars as (-> & _). reflexivity.
    - destruct Hvars as ([sig ->] & -> & ->). reflexivity.
    - destruct Hvars as ([sig ->] & -> & ->). exists sig. auto. }
  split; [|split].
  - intros fuel Hfuel. unfold runner, walk_forward_run. fold loop.
    destruct (Hloop fuel Hfuel) as [(st & -> & _)|(e & ->)]; eauto.
  - exact Hagg.
  - intros Hn fuel r Hr. unfold runner, walk_forward_run in Hr. fold loop in Hr.
    destruct (loop fuel (wf_init parameter)) as [[st|e]|] eqn:Hl;
      [|injection Hr as <-; eauto | discriminate].
    specialize (Hagg fuel st Hl). fold aggregate in Hr.
    destruct n as [|[|j]]; [| |lia]; rewrite Hagg in Hr;
      injection Hr as <-; eauto.
Qed.

Lemma walk_forward_aggregate_unbound_witness :
  let run_window := fun (_ : nat) (p : list Q) (_ : window) =>
                      Ok (p, no_performance) in
  window_count 1440 10 5 1 0 21600 = 1%nat /\
  walk_forward_run 1440 10 5 1 0 21600 run_window (fun q => q) []
    (Num 0) 2 [] = Some (Err (UnboundLocalError "end_all")).
Proof.
  intros run_window. split; [reflexivity|].
  destruct (walk_forward_aggregate_unbound 1440 10 5 1 0 21600 run_window
              (fun q => q) [] (Num 0) []) as (_ & H & _).
  - lia.
  - unfold days. lia.
  - unfold walk_forward_run.
    destruct (wf_loop 1440 10 5 1 0 21600 run_window 2 (wf_init []))
      as [[st|e]|] eqn:Hl; [|discriminate Hl..].
    specialize (H 2%nat st Hl).
    change (window_count 1440 10 5 1 0 21600) with 1%nat in H.
    cbv beta iota zeta in H. rewrite H. reflexivity.
Defined.

(** ** Indicator cache *)

Section CacheFacts.
Variable path : string.
Variable read_csv : string -> result (nat -> Series float64).
Variable powQ : Q -> Q -> Q.
Variable symbol : string.
Variables timeframe period shift_ : Z.
Variable fs : gmap string artifact.

Let close_path : string :=
  path +:+ "/tmp/" +:+ "i_close" +:+ "_" +:+ symbol +:+ str timeframe
       +:+ "_" +:+ str shift_ +:+ ".pkl".
Let bandwalk_path : string :=
  path +:+ "/tmp/i_bandwalk_" +:+ symbol +:+ str timeframe +:+ "_"
       +:+ str period +:+ "_" +:+ str shift_ +:+ ".pkl".
Let csv_name : string :=
  "~/historical_data/" +:+ symbol +:+ str timeframe +:+ ".csv".

Lemma i_close_hit (s : Series float64) :
  fs !! close_path = Some (Pickle s) ->
  i_close None path read_csv symbol timeframe shift_ fs = (Ok s, fs).
Proof.
  intros H. unfold i_close, i_column, io_bind, path_exists, load.
  fold close_path. rewrite H. rewrite bool_decide_eq_true_2 by eauto.
  cbv beta iota. now rewrite H.
Qed.

Lemma i_close_miss (temp : nat -> Series float64) :
  fs !! close_path = None -> read_csv csv_name = Ok temp ->
  i_close None path read_csv symbol timeframe shift_ fs =
    (Ok (shift shift_ (temp 3%nat)),
     <[close_path := Pickle (shift shift_ (temp 3%nat))]> fs).
Proof.
  intros H Hcsv. unfold i_close, i_column, io_bind, path_exists, io_call.
  fold close_path csv_name. rewrite H, Hcsv.
  rewrite bool_decide_eq_false_2 by (intros [? ?]; discriminate).
  reflexivity.
Qed.

Lemma i_close_corrupt :
  fs !! close_path = Some Corrupt ->
  i_close None path read_csv symbol timeframe shift_ fs = (Err LoadError, fs).
Proof.
  intros H. unfold i_close, i_column, io_bind, path_exists, load.
  fold close_path. rewrite H. rewrite bool_decide_eq_true_2 by eauto.
  cbv beta iota. now rewrite H.
Qed.

Lemma i_bandwalk_corrupt :
  fs !! bandwalk_path = Some Corrupt ->
  i_bandwalk None path read_csv powQ symbol timeframe period shift_ fs =
    (Err LoadError, fs).
Proof.
  intros H. unfold i_bandwalk, io_bind, path_exists, load, is_backtest.
  fold bandwalk_path. rewrite H. rewrite bool_decide_eq_true_2 by eauto.
  cbv beta iota. now rewrite H.
Qed.

Lemma i_bandwalk_hit (s : Series float64) :
  fs !! bandwalk_path = Some (Pickle s) ->
  i_bandwalk None path read_csv powQ symbol timeframe period shift_ fs =
    (Ok s, fs).
Proof.
  intros H. unfold i_bandwalk, io_bind, path_exists, load, is_backtest.
  fold bandwalk_path. rewrite H. rewrite bool_decide_eq_true_2 by eauto.
  cbv beta iota. now rewrite H.
Qed.
End CacheFacts.

(** C7 (amended).  In a back-test a stored artifact is loaded whenever a
    file exists under the key: a readable one is returned as it is, and one
    that [joblib.load] cannot read makes the indicator raise, with nothing
    recomputed and the folder unchanged.  Only a missing file is a miss,
    which is computed, stored and returned. *)
Theorem cache_load_is_unguarded (path : string)
    (read_csv : string -> result (nat -> Series float64))
    (powQ : Q -> Q -> Q) (symbol : string) (timeframe period shift_ : Z)
    (fs : gmap string artifact) :
  let close_path :=
    path +:+ "/tmp/" +:+ "i_close" +:+ "_" +:+ symbol +:+ str timeframe
         +:+ "_" +:+ str shift_ +:+ ".pkl" in
  let bandwalk_path :=
    path +:+ "/tmp/i_bandwalk_" +:+ symbol +:+ str timeframe +:+ "_"
         +:+ str period +:+ "_" +:+ str shift_ +:+ ".pkl" in
  let csv_name :=
    "~/historical_data/" +:+ symbol +:+ str timeframe +:+ ".csv" in
  (fs !! close_path = Some Corrupt ->
     i_close None path read_csv symbol timeframe shift_ fs =
       (Err LoadError, fs)) /\
  (fs !! bandwalk_path = Some Corrupt ->
     i_bandwalk None path read_csv powQ symbol timeframe period shift_ fs =
       (Err LoadError, fs)) /\
  (forall s, fs !! close_path = Some (Pickle s) ->
     i_close None path read_csv symbol timeframe shift_ fs = (Ok s, fs)) /\
  (forall s, fs !! bandwalk_path = Some (Pickle s) ->
     i_bandwalk None path read_csv powQ symbol timeframe period shift_ fs =
       (Ok s, fs)) /\
  (forall temp, fs !! close_path = None -> read_csv csv_name = Ok temp ->
     i_close None path read_csv symbol timeframe shift_ fs =
       (Ok (shift shift_ (temp 3%nat)),
        <[close_path := Pickle (shift shift_ (temp 3%nat))]> fs)).
Proof.
  intros close_path bandwalk_path csv_name. repeat split.
  - apply i_close_corrupt.
  - apply i_bandwalk_corrupt.
  - apply i_close_hit.
  - apply i_bandwalk_hit.
  - apply i_close_miss.
Qed.

Lemma cache_load_is_unguarded_witness :
  let read_csv := fun _ : string =>
    Ok (fun k : nat => [(0, Num 1); (1, Num (inject_Z (Z.of_nat k)))]) in
  i_close None "/fs" read_csv "USDJPY" 60 1
    {[ "/fs/tmp/i_close_USDJPY60_1.pkl" := Corrupt ]} =
    (Err LoadError, {[ "/fs/tmp/i_close_USDJPY60_1.pkl" := Corrupt ]}) /\
  fst (i_close None "/fs" read_csv "USDJPY" 60 1 ∅) =
    Ok [(0, NaN); (1, Num 1)].
Proof.
  intros read_csv.
  destruct (cache_load_is_unguarded "/fs" read_csv (fun x _ => x) "USDJPY"
              60 2 1 {[ "/fs/tmp/i_close_USDJPY60_1.pkl" := Corrupt ]})
    as (Hc & _).
  destruct (cache_load_is_unguarded "/fs" read_csv (fun x _ => x) "USDJPY"
              60 2 1 ∅) as (_ & _ & _ & _ & Hm).
  split.
  - apply Hc. reflexivity.
  - rewrite (Hm _ eq_refl eq_refl). reflexivity.
Defined.

(** C7, as stated, fails: with a corrupt file under the key of
    [i_close], and a historical file from which the value could be
    recomputed, the indicator raises the error of [joblib.load]. *)
Lemma cache_corruption_counterexample :
  let read_csv := fun _ : string =>
    Ok (fun k : nat => [(0, Num 1); (1, Num (inject_Z (Z.of_nat k)))]) in
  fst (i_close None "/fs" read_csv "USDJPY" 60 1
         {[ "/fs/tmp/i_close_USDJPY60_1.pkl" := Corrupt ]}) = Err LoadError /\
  fst (i_bandwalk None "/fs" read_csv (fun x _ => x) "USDJPY" 60 2 1
         {[ "/fs/tmp/i_bandwalk_USDJPY60_2_1.pkl" := Corrupt ]}) = Err LoadError.
Proof. split; vm_compute; reflexivity. Qed.

(** ** Live loop *)

Section TradeFacts.
Variable spread : Q.
Variables ea mail : Z.
Variable a : answers.

Lemma notify_spec (signal : Z) (st : live_state) (tr : list event) :
  notify ea mail signal st tr = (Ok tt, st, tr ++ notifications ea mail signal).
Proof.
  unfold notify, notifications, seq_, when, emit, ret.
  destruct (ea =? 1), (mail =? 1); cbn [app];
    rewrite <- ?app_assoc, ?app_nil_r; reflexivity.
Qed.

Lemma close_position_spec (signal : Z) (st : live_state) (tr : list event) :
  close_position ea mail a signal st tr =
    match a_order_close a with
    | Ok _ =>
        (Ok tt, flat_of st,
         tr ++ OrderClose (ticket st) :: notifications ea mail signal)
    | Err e => (Err e, st, tr)
    end.
Proof.
  unfold close_position, seq_, get, call, emit, put.
  destruct (a_order_close a); [|reflexivity].
  rewrite notify_spec. rewrite <- app_assoc. reflexivity.
Qed.

Lemma open_position_spec (s : side) (signal : Z) (st : live_state)
    (tr : list event) :
  open_position ea mail a s signal st tr =
    match a_order_send a with
    | Ok t =>
        (Ok tt, held_of st s t,
         tr ++ OrderSend s t :: notifications ea mail signal)
    | Err e => (Err e, st, tr)
    end.
Proof.
  unfold open_position, seq_, get, call, emit, put.
  destruct (a_order_send a) as [t|e]; [|reflexivity].
  rewrite notify_spec. rewrite <- app_assoc. now destruct s.
Qed.

(** The trace of the order management: a close part, then an open
    part. *)
Lemma manage_orders_trace (bid ask : Q) (signal : Z) (st : live_state)
    (tr : list event) :
  snd (manage_orders spread ea mail a bid ask signal st tr) =
    tr ++ close_part ea mail a st signal
       ++ open_part spread ea mail a bid ask (after_close a st signal) signal.
Proof.
  assert (forall st1 tr1,
    snd (when ((pos st1 =? 0) && Qle_bool (ask - bid) spread)
           (if signal =? 1 then open_position ea mail a Buy signal
            else if signal =? -1 then open_position ea mail a Sell signal
            else ret tt) st1 tr1) =
    tr1 ++ open_part spread ea mail a bid ask (Some (pos st1)) signal) as Hopen.
  { intros st1 tr1. unfold when, open_part, open_side, ret.
    destruct ((pos st1 =? 0) && Qle_bool (ask - bid) spread).
    - destruct (signal =? 1); [|destruct (signal =? -1)];
        rewrite ?open_position_spec;
        destruct (a_order_send a); cbn [snd]; now rewrite ?app_nil_r.
    - destruct (signal =? 1); [|destruct (signal =? -1)];
        destruct (a_order_send a); cbn [snd]; now rewrite ?app_nil_r. }
  unfold manage_orders, seq_ at 1 2, get.
  unfold close_part, after_close, must_close.
  destruct ((pos st =? 1) && negb (signal =? 1)) eqn:B1;
    [|destruct ((pos st =? -1) && negb (signal =? -1)) eqn:B2]; cbn [orb].
  - rewrite close_position_spec.
    destruct (a_order_close a) as [[]|e].
    + unfold seq_. rewrite Hopen. now rewrite <- app_assoc.
    + cbn [snd]. unfold open_part. now rewrite !app_nil_r.
  - rewrite close_position_spec.
    destruct (a_order_close a) as [[]|e].
    + unfold seq_. rewrite Hopen. now rewrite <- app_assoc.
    + cbn [snd]. unfold open_part. now rewrite !app_nil_r.
  - unfold ret, seq_. rewrite Hopen. reflexivity.
Qed.

(** The trace of an iteration: the orders of the bar, if a new bar is
    processed, and then events that are not orders. *)
Lemma trade_iteration_trace (st : live_state) :
  (exists bid ask signal rest,
     new_bar a st bid ask signal /\
     snd (trade_iteration spread ea mail a st) =
       bar_orders spread ea mail a st bid ask signal ++ rest /\
     Forall no_order rest) \/
  ((forall bid ask signal, ~ new_bar a st bid ask signal) /\
   Forall no_order (snd (trade_iteration spread ea mail a st))).
Proof.
  assert (Forall no_order [LineDown]) as HL by (repeat constructor).
  assert (Forall no_order [Snapshot]) as HS by (repeat constructor).
  assert (Forall no_order [Snapshot; LineDown]) as HSL
    by (repeat constructor).
  remember (trade_iteration spread ea mail a st) as it eqn:Hit.
  cbv beta iota zeta delta
    [trade_iteration trade_body seq_ call get put when ret emit] in Hit.
  cbn [pre_bid pre_ask pre_history_time ticket pos] in Hit.
  unfold new_bar.
  destruct (a_bid a) as [bid|e].
  2:{ right. subst it. split; [|exact HL].
      intros ? ? ? (H & _). discriminate. }
  destruct (a_ask a) as [ask|e].
  2:{ right. subst it. split; [|exact HL].
      intros ? ? ? (_ & H & _). discriminate. }
  destruct (Qabs_ge (bid - pre_bid st) eps || Qabs_ge (ask - pre_ask st) eps)
    eqn:Etick.
  2:{ right. subst it. split; [|constructor].
      intros b k s (Hb & Hk & Ht & _).
      injection Hb as <-. injection Hk as <-. congruence. }
  destruct (a_history_time a) as [ht|e].
  2:{ right. subst it. split; [|exact HL].
      intros ? ? ? (_ & _ & _ & (h & H & _) & _). discriminate. }
  destruct (bool_decide (Some ht = pre_history_time st)) eqn:Enew;
    cbn [negb] in Hit.
  { right. apply bool_decide_eq_true in Enew. split.
    - intros ? ? ? (_ & _ & _ & (h & H & Hne) & _).
      injection H as <-. contradiction.
    - subst it. destruct (a_positions a); [exact HS | exact HL]. }
  apply bool_decide_eq_false in Enew.
  destruct (a_signal a) as [signal|e].
  2:{ right. subst it. split; [|exact HL].
      intros ? ? ? (_ & _ & _ & _ & H). discriminate. }
  left. exists bid, ask, signal.
  pose proof (manage_orders_trace bid ask signal
    {| pre_bid := bid; pre_ask := ask; pre_history_time := Some ht;
       ticket := ticket st; pos := pos st |} []) as Htr.
  change (close_part ea mail a _ signal) with (close_part ea mail a st signal)
    in Htr.
  change (after_close a _ signal) with (after_close a st signal) in Htr.
  cbn [app] in Htr.
  fold (bar_orders spread ea mail a st bid ask signal) in Htr.
  destruct (manage_orders spread ea mail a bid ask signal _ [])
    as [[r st'] tr'].
  cbn [snd] in Htr. subst tr'.
  assert (Ok bid = Ok bid /\ Ok ask = Ok ask /\
          Qabs_ge (bid - pre_bid st) eps
            || Qabs_ge (ask - pre_ask st) eps = true /\
          (exists history_time : Z,
             Ok ht = Ok history_time /\
             Some history_time <> pre_history_time st) /\
          Ok signal = Ok signal) as Hnew.
  { repeat split; [exact Etick|]. exists ht. auto. }
  destruct r as [[]|e].
  - destruct (a_positions a) as [[]|e].
    + exists [Snapshot]. subst it.
      split; [exact Hnew|]. split; [reflexivity | exact HS].
    + exists [LineDown]. subst it.
      split; [exact Hnew|]. split; [reflexivity | exact HL].
  - exists [LineDown]. subst it.
    split; [exact Hnew|]. split; [reflexivity | exact HL].
Qed.
End TradeFacts.

Lemma closes_before_opens_app (l1 l2 : list event) :
  Forall (fun e => is_send e = false) l1 ->
  Forall (fun e => is_close e = false) l2 ->
  closes_before_opens (l1 ++ l2).
Proof.
  intros H1 H2 i j ei ej Hi Ci Hj Sj.
  rewrite List.Forall_forall in H1, H2.
  destruct (Nat.lt_ge_cases j (length l1)) as [Hlt|Hge].
  - rewrite lookup_app_l in Hj by assumption.
    apply list_elem_of_lookup_2, list_elem_of_In in Hj.
    rewrite (H1 _ Hj) in Sj. discriminate.
  - destruct (Nat.lt_ge_cases i (length l1)) as [Hlt'|Hge']; [lia|].
    rewrite lookup_app_r in Hi by assumption.
    apply list_elem_of_lookup_2, list_elem_of_In in Hi.
    rewrite (H2 _ Hi) in Ci. discriminate.
Qed.

Lemma notifications_no_order (ea mail signal : Z) :
  Forall no_order (notifications ea mail signal).
Proof.
  unfold notifications. destruct (ea =? 1), (mail =? 1);
    repeat constructor.
Qed.

Lemma new_bar_unique (a : answers) (st : live_state) (bid ask : Q)
    (signal : Z) (bid' ask' : Q) (signal' : Z) :
  new_bar a st bid ask signal -> new_bar a st bid' ask' signal' ->
  bid = bid' /\ ask = ask' /\ signal = signal'.
Proof.
  intros (Hb & Hk & _ & _ & Hs) (Hb' & Hk' & _ & _ & Hs').
  rewrite Hb in Hb'. rewrite Hk in Hk'. rewrite Hs in Hs'.
  injection Hb' as <-. injection Hk' as <-. injection Hs' as <-. auto.
Qed.

(** C8.  In every iteration of the live loop every close precedes every
    open.  A position is opened only while a newly completed bar is
    processed, with the position flat (it was flat, or it has just been
    closed), the latest signal +1 for a buy and -1 for a sell, and
    [ask - bid <= spread].  A position that the signal no longer supports
    is closed whatever the spread is. *)
Theorem trade_closes_before_opens (spread : Q) (ea mail : Z) (a : answers)
    (st : live_state) :
  let tr := snd (trade_iteration spread ea mail a st) in
  closes_before_opens tr /\
  (forall s t, In (OrderSend s t) tr ->
     exists bid ask,
       new_bar a st bid ask (side_signal s) /\
       (ask - bid <= spread)%Q /\
       (pos st = 0 \/ In (OrderClose (ticket st)) tr)) /\
  (forall bid ask signal,
     new_bar a st bid ask signal -> a_order_close a = Ok tt ->
     (pos st = 1 /\ signal <> 1) \/ (pos st = -1 /\ signal <> -1) ->
     In (OrderClose (ticket st)) tr).
Proof.
  intros tr. subst tr.
  assert (forall signal, Forall (fun e => is_send e = false)
            (close_part ea mail a st signal)) as Hc.
  { intros signal. unfold close_part.
    destruct (must_close st signal); [|constructor].
    destruct (a_order_close a); [|constructor].
    constructor; [reflexivity|].
    eapply Forall_impl; [apply notifications_no_order|].
    intros e [_ H]. exact H. }
  assert (forall bid ask p signal, Forall (fun e => is_close e = false)
            (open_part spread ea mail a bid ask p signal)) as Ho.
  { intros bid ask p signal. unfold open_part.
    destruct p; [|constructor]. destruct (open_side signal); [|constructor].
    destruct (a_order_send a); [|constructor].
    destruct (_ && _); [|constructor].
    constructor; [reflexivity|].
    eapply Forall_impl; [apply notifications_no_order|].
    intros e [H _]. exact H. }
  destruct (trade_iteration_trace spread ea mail a st)
    as [(bid & ask & signal & rest & Hnew & Htr & Hrest)|[Hno Hall]].
  - rewrite Htr. unfold bar_orders. split; [|split].
    + rewrite <- app_assoc. apply closes_before_opens_app; [apply Hc|].
      apply Forall_app. split; [apply Ho|].
      eapply Forall_impl; [exact Hrest|]. intros e [H _]. exact H.
    + intros s t Hin. exists bid, ask.
      rewrite <- app_assoc in Hin. apply in_app_or in Hin.
      destruct Hin as [Hin|Hin].
      { specialize (Hc signal). rewrite List.Forall_forall in Hc.
        specialize (Hc _ Hin). discriminate. }
      apply in_app_or in Hin. destruct Hin as [Hin|Hin].
      2:{ rewrite List.Forall_forall in Hrest.
          destruct (Hrest _ Hin) as [_ H]. discriminate. }
      unfold open_part in Hin.
      destruct (after_close a st signal) as [p|] eqn:Ep; [|contradiction].
      destruct (open_side signal) as [s'|] eqn:Es; [|contradiction].
      destruct (a_order_send a) as [t'|]; [|contradiction].
      destruct ((p =? 0) && Qle_bool (ask - bid) spread) eqn:Ec;
        [|contradiction].
      apply andb_prop in Ec. destruct Ec as [Ep0 Eq].
      apply Z.eqb_eq in Ep0. apply Qle_bool_iff in Eq. subst p.
      destruct Hin as [Hin|Hin].
      2:{ pose proof (notifications_no_order ea mail signal) as Hn.
          rewrite List.Forall_forall in Hn.
          destruct (Hn _ Hin) as [_ H]. discriminate. }
      injection Hin as -> ->.
      assert (signal = side_signal s) as ->.
      { unfold open_side in Es.
        destruct (signal =? 1) eqn:E1.
        - apply Z.eqb_eq in E1. now injection Es as <-.
        - destruct (signal =? -1) eqn:E2; [|discriminate].
          apply Z.eqb_eq in E2. now injection Es as <-. }
      split; [exact Hnew|]. split; [exact Eq|].
      unfold after_close in Ep. unfold close_part.
      destruct (must_close st (side_signal s)).
      * destruct (a_order_close a); [|discriminate].
        right. apply in_or_app. left. now left.
      * left. now injection Ep.
    + intros bid' ask' signal' Hnew' Hok Hmust.
      destruct (new_bar_unique _ _ _ _ _ _ _ _ Hnew Hnew') as (<- & <- & <-).
      apply in_or_app. left. apply in_or_app. left.
      unfold close_part, must_close. rewrite Hok.
      destruct Hmust as [[-> Hs]|[-> Hs]].
      * apply Z.eqb_neq in Hs. rewrite Hs. now left.
      * apply Z.eqb_neq in Hs. rewrite Hs. now left.
  - split; [|split].
    + intros i j ei ej Hi Ci _ _.
      apply list_elem_of_lookup_2, list_elem_of_In in Hi.
      rewrite List.Forall_forall in Hall.
      destruct (Hall _ Hi) as [H _]. rewrite H in Ci. discriminate.
    + intros s t Hin. rewrite List.Forall_forall in Hall.
      destruct (Hall _ Hin) as [_ H]. discriminate.
    + intros bid ask signal Hnew. exfalso. exact (Hno _ _ _ Hnew).
Qed.

Lemma trade_closes_before_opens_witness :
  let a := {| a_bid := Ok 100%Q; a_ask := Ok (1001 # 10)%Q;
              a_history_time := Ok 60; a_signal := Ok (-1);
              a_order_close := Ok tt; a_order_send := Ok 8;
              a_positions := Ok tt |} in
  let st := {| pre_bid := 99%Q; pre_ask := 100%Q; pre_history_time := Some 0;
               ticket := 7; pos := 1 |} in
  In (OrderClose 7) (snd (trade_iteration (1 # 5) 1 1 a st)) /\
  snd (trade_iteration (1 # 5) 1 1 a st) =
    [OrderClose 7; WriteEA 1; SendMail; OrderSend Sell 8; WriteEA 1;
     SendMail; Snapshot].
Proof.
  intros a st.
  destruct (trade_closes_before_opens (1 # 5) 1 1 a st) as (_ & _ & H).
  split; [|reflexivity].
  apply (H 100%Q (1001 # 10)%Q (-1)).
  - repeat split. exists 60. split; [reflexivity | discriminate].
  - reflexivity.
  - left. split; [reflexivity | discriminate].
Defined.

(** ** Conversion tables *)

Lemma eqb_not_in (x y : string) (l : list string) :
  ~ In x l -> In y l -> String.eqb x y = false.
Proof.
  intros Hx Hy. destruct (String.eqb_spec x y) as [->|]; [contradiction|easy].
Qed.

(** X1.  For each of the 28 currency pairs of the system the instrument of
    [convert_symbol2instrument] is the symbol with an underscore between
    its two currencies, and [divide_symbol] returns these two currencies in
    lower case. *)
Theorem symbol_tables_spell_the_symbol (symbol : string) :
  In symbol symbols ->
  let base := String.substring 0 3 symbol in
  let quote := String.substring 3 3 symbol in
  symbol = base +:+ quote /\
  convert_symbol2instrument symbol = base +:+ "_" +:+ quote /\
  divide_symbol symbol = (lower base, lower quote).
Proof.
  intros H.
  repeat (destruct H as [<-|H]; [vm_compute; repeat split; reflexivity|]).
  destruct H.
Qed.

Lemma symbol_tables_spell_the_symbol_witness :
  convert_symbol2instrument "EURUSD" = "EUR_USD" /\
  divide_symbol "EURUSD" = ("eur", "usd").
Proof.
  destruct (symbol_tables_spell_the_symbol "EURUSD") as (_ & H1 & H2).
  - vm_compute. tauto.
  - split; [exact H1 | exact H2].
Defined.

(** X2.  For each of the 28 currency pairs [divide_symbol_time] gives the
    market of the base currency and the market of the quote currency that
    [divide_symbol] returns, and the price unit of [trade] and of the
    command line is the one of the yen exactly when the quote currency is
    the yen. *)
Theorem symbol_markets_follow_currencies (symbol : string) :
  In symbol symbols ->
  divide_symbol_time symbol =
    (market_of (fst (divide_symbol symbol)),
     market_of (snd (divide_symbol symbol))) /\
  is_jpy_symbol symbol = String.eqb (snd (divide_symbol symbol)) "jpy".
Proof.
  intros H.
  repeat (destruct H as [<-|H]; [vm_compute; repeat split; reflexivity|]).
  destruct H.
Qed.

Lemma symbol_markets_follow_currencies_witness :
  divide_symbol_time "GBPJPY" = ("ldn", "tokyo") /\
  is_jpy_symbol "GBPJPY" = true.
Proof.
  destruct (symbol_markets_follow_currencies "GBPJPY") as (H1 & H2).
  - vm_compute. tauto.
  - split; [exact H1 | exact H2].
Defined.

(** X3.  A symbol that is not one of the 28 pairs is not refused: it is
    converted to the instrument [USD_JPY] with the currencies and markets
    of USDJPY, while [trade] and the command line give it the price unit
    of the pairs that are not quoted in yen.  A timeframe that is not one
    of 1, 5, 15, 30, 60 and 240 is converted to the daily granularity.
    The spread of the command line is counted in tenths of the unit of
    [trade], whatever the symbol. *)
Theorem unknown_symbol_is_usdjpy (symbol : string) (timeframe spread : Z) :
  ~ In symbol symbols ->
  ~ In timeframe [1; 5; 15; 30; 60; 240] ->
  convert_symbol2instrument symbol = "USD_JPY" /\
  divide_symbol symbol = ("usd", "jpy") /\
  divide_symbol_time symbol = ("ny", "tokyo") /\
  trade_multiplier_digit symbol = (10000, 5) /\
  trade_multiplier_digit "USDJPY" = (100, 3) /\
  main_spread symbol spread = Qred (inject_Z spread / 100000) /\
  convert_timeframe2granularity timeframe = "D" /\
  (forall s,
     (main_spread s spread * inject_Z (fst (trade_multiplier_digit s))
      == inject_Z spread / 10)%Q).
Proof.
  intros Hs Ht.
  assert (forall y, In y symbols -> String.eqb symbol y = false) as E
    by (intros y; apply eqb_not_in; exact Hs).
  assert (forall y, In y [1; 5; 15; 30; 60; 240] -> (timeframe =? y) = false)
    as F.
  { intros y Hy. apply Z.eqb_neq. intros ->. contradiction. }
  repeat split.
  - unfold convert_symbol2instrument.
    rewrite !E by (vm_compute; tauto). reflexivity.
  - unfold divide_symbol. rewrite !E by (vm_compute; tauto). reflexivity.
  - unfold divide_symbol_time. rewrite !E by (vm_compute; tauto).
    reflexivity.
  - unfold trade_multiplier_digit, is_jpy_symbol.
    rewrite !E by (vm_compute; tauto). reflexivity.
  - unfold main_spread, is_jpy_symbol.
    rewrite !E by (vm_compute; tauto). reflexivity.
  - unfold convert_timeframe2granularity.
    rewrite !F by (cbn; tauto). reflexivity.
  - intros s. unfold main_spread, trade_multiplier_digit.
    destruct (is_jpy_symbol s); cbn [fst]; rewrite Qred_correct; field.
Qed.

Lemma unknown_symbol_is_usdjpy_witness :
  convert_symbol2instrument "XAUUSD" = "USD_JPY" /\
  trade_multiplier_digit "XAUUSD" = (10000, 5) /\
  convert_timeframe2granularity 10 = "D".
Proof.
  destruct (unknown_symbol_is_usdjpy "XAUUSD" 10 3)
    as (H1 & _ & _ & H4 & _ & _ & H7 & _).
  - vm_compute. intros H. repeat (destruct H as [H|H]; [discriminate H|]).
    exact H.
  - cbn. intros H. repeat (destruct H as [H|H]; [discriminate H|]). exact H.
  - repeat split; assumption.
Defined.

(** ** Trading hours *)

Lemma set_where_map {A} (p : Z -> bool) (v : A) (g : Z -> A) (l : list Z) :
  set_where (map p l) v (map g l) = map (fun t => if p t then v else g t) l.
Proof.
  unfold set_where. induction l as [|x l IH]; [reflexivity|].
  cbn. now rewrite IH.
Qed.

Lemma set_where_array_map {A} (p : Z -> bool) (f g : Z -> A) (l : list Z) :
  set_where_array (map p l) (map f l) (map g l) =
    map (fun t => if p t then f t else g t) l.
Proof.
  unfold set_where_array. induction l as [|x l IH]; [reflexivity|].
  cbn. now rewrite IH.
Qed.

Lemma combine_map_tabulate {A} (g : Z -> A) (l : list Z) :
  combine l (map g l) = map (fun t => (t, g t)) l.
Proof. induction l as [|x l IH]; [reflexivity|]. cbn. now rewrite IH. Qed.

Lemma mem_In (t : Z) (l : list Z) : In t l -> mem t l = true.
Proof.
  intros H. unfold mem. apply existsb_exists. exists t. split; [exact H|].
  apply Z.eqb_refl.
Qed.

Section TradingHoursFacts.
Variables hour minute month : Z -> Z.

(** The flag of a row as a function of its timestamp. *)
Lemma is_trading_hours_tabulate (index : list Z) (market : string) :
  is_trading_hours hour minute month index market =
    map (fun t =>
           (t,
            if String.eqb market "tokyo" then
              (0 <=? hour t) && (hour t <? 6)
            else if String.eqb market "ldn" then
              if (3 <=? month t) && (month t <? 11)
                 && (hour t =? 15) && (minute t <? 30) then true
              else if (3 <=? month t) && (month t <? 11)
                   then (7 <=? hour t) && (hour t <? 15)
              else if (hour t =? 16) && (minute t <? 30) then true
              else (8 <=? hour t) && (hour t <? 16)
            else
              if (3 <=? month t) && (month t <? 11)
                 && (hour t =? 13) && (30 <=? minute t) then true
              else if (3 <=? month t) && (month t <? 11)
                   then (14 <=? hour t) && (hour t <? 20)
              else if (hour t =? 14) && (30 <=? minute t) then true
              else (15 <=? hour t) && (hour t <? 21)))
        index.
Proof using Type.
  unfold is_trading_hours.
  destruct (String.eqb market "tokyo");
    [|destruct (String.eqb market "ldn")];
    rewrite ?set_where_map, ?set_where_array_map, ?set_where_map;
    apply combine_map_tabulate.
Qed.
End TradingHoursFacts.

(** X4.  [is_trading_hours] marks the rows whose minute of the day lies in
    the session of the market: Tokyo from 0:00 to 6:00 all the year,
    London from 8:00 to 16:30 and New York from 14:30 to 21:00, both one
    hour earlier in the months 3 to 10.  Every row of the index gets a
    flag, and a market that is neither [tokyo] nor [ldn] is taken for New
    York. *)
Theorem is_trading_hours_session (hour minute month : Z -> Z)
    (index : list Z) (market : string) (t : Z) :
  In t index -> 0 <= minute t < 60 ->
  map fst (is_trading_hours hour minute month index market) = index /\
  loc (is_trading_hours hour minute month index market) t =
    Some (let '(first, stop) := session market (is_summer (month t)) in
          (first <=? 60 * hour t + minute t)
          && (60 * hour t + minute t <? stop)) /\
  (String.eqb market "tokyo" = false -> String.eqb market "ldn" = false ->
   is_trading_hours hour minute month index market =
     is_trading_hours hour minute month index "ny").
Proof.
  intros Hin Hmin. rewrite !is_trading_hours_tabulate.
  split; [|split].
  - rewrite map_map. cbn. apply map_id.
  - rewrite loc_tabulate, (mem_In _ _ Hin). f_equal.
    unfold session, is_summer.
    destruct (String.eqb market "tokyo");
      [|destruct (String.eqb market "ldn")];
      destruct ((3 <=? month t) && (month t <? 11)); cbn [andb];
      repeat match goal with
             | |- context [?a <=? ?b] =>
                 destruct (Z.leb_spec a b); cbn [andb orb]
             | |- context [?a <? ?b] =>
                 destruct (Z.ltb_spec a b); cbn [andb orb]
             | |- context [?a =? ?b] =>
                 destruct (Z.eqb_spec a b); cbn [andb orb]
             end; try reflexivity; lia.
  - intros E1 E2. rewrite E1, E2. reflexivity.
Qed.

Lemma is_trading_hours_session_witness :
  let hour (t : Z) := (t / 60) mod 24 in
  let minute (t : Z) := t mod 60 in
  let month (t : Z) := t / 43200 + 1 in
  loc (is_trading_hours hour minute month [900; 930; 990] "ldn") 990 =
    Some false /\
  loc (is_trading_hours hour minute month [900; 930; 990] "ldn") 930 =
    Some true.
Proof.
  intros hour minute month.
  pose proof (is_trading_hours_session hour minute month [900; 930; 990]
                "ldn" 990) as H1.
  pose proof (is_trading_hours_session hour minute month [900; 930; 990]
                "ldn" 930) as H2.
  split.
  - destruct H1 as (_ & H & _); [cbn; tauto | change (0 <= 990 mod 60 < 60) + change (0 <= 930 mod 60 < 60); now vm_compute |].
    exact H.
  - destruct H2 as (_ & H & _); [cbn; tauto | change (0 <= 990 mod 60 < 60) + change (0 <= 930 mod 60 < 60); now vm_compute |].
    exact H.
Defined.

(** ** The cache of the indicators *)

Section CachedFacts.
Variable file_path : string.
Variable compute : io (Series float64).
Variable fs : gmap string artifact.

Lemma cached_live : cached false file_path compute fs = compute fs.
Proof using Type.
  unfold cached, io_bind, io_ret, dump.
  now destruct (compute fs) as [[v|e] fs1].
Qed.

Lemma cached_hit (s : Series float64) :
  fs !! file_path = Some (Pickle s) ->
  cached true file_path compute fs = (Ok s, fs).
Proof using Type.
  intros H. unfold cached, io_bind, path_exists, load.
  rewrite H. rewrite bool_decide_eq_true_2 by eauto.
  cbv beta iota. now rewrite H.
Qed.

Lemma cached_corrupt :
  fs !! file_path = Some Corrupt ->
  cached true file_path compute fs = (Err LoadError, fs).
Proof using Type.
  intros H. unfold cached, io_bind, path_exists, load.
  rewrite H. rewrite bool_decide_eq_true_2 by eauto.
  cbv beta iota. now rewrite H.
Qed.

Lemma cached_miss :
  fs !! file_path = None ->
  cached true file_path compute fs =
    match compute fs with
    | (Ok v, fs1) => (Ok v, <[file_path := Pickle v]> fs1)
    | (Err e, fs1) => (Err e, fs1)
    end.
Proof using Type.
  intros H. unfold cached, io_bind, path_exists, dump, io_ret.
  rewrite H. rewrite bool_decide_eq_false_2 by (intros [? ?]; discriminate).
  cbv beta iota. now destruct (compute fs) as [[v|e] fs1].
Qed.

(** After a successful call the file holds the value returned. *)
Lemma cached_stored (s : Series float64) (fs' : gmap string artifact) :
  cached true file_path compute fs = (Ok s, fs') ->
  fs' !! file_path = Some (Pickle s).
Proof using Type.
  intros H. destruct (fs !! file_path) as [[s0|]|] eqn:E.
  - rewrite (cached_hit s0 E) in H. now inversion H; subst.
  - rewrite (cached_corrupt E) in H. discriminate.
  - rewrite (cached_miss E) in H.
    destruct (compute fs) as [[v|e] fs1]; [|discriminate].
    inversion H; subst. apply lookup_insert_eq.
Qed.
End CachedFacts.

Lemma cached_again (file_path : string) (compute compute' : io (Series float64))
    (fs fs' : gmap string artifact) (s : Series float64) :
  cached true file_path compute fs = (Ok s, fs') ->
  cached true file_path compute' fs' = (Ok s, fs').
Proof.
  intros H. apply cached_hit. exact (cached_stored _ _ _ _ _ H).
Qed.

Section IndicatorShapes.
Variable environment :
  option (string -> Z -> string -> result (Series float64)).
Variable path : string.
Variable read_csv : string -> result (nat -> Series float64).
Variable sqrtQ : Q -> Q.
Variable powQ : Q -> Q -> Q.
Variable symbol : string.
Variables timeframe period shift_ : Z.
Variable fs : gmap string artifact.

Lemma i_column_cached (name : string) (column : nat) (field : string) :
  i_column environment path read_csv name column field symbol timeframe
    shift_ fs =
  cached (is_backtest environment)
    (path +:+ "/tmp/" +:+ name +:+ "_" +:+ symbol +:+ str timeframe +:+ "_"
          +:+ str shift_ +:+ ".pkl")
    (io_call (column_source environment read_csv column field symbol
                timeframe shift_)) fs.
Proof using Type.
  unfold i_column, cached, column_source, is_backtest, io_bind, io_call,
    io_ret, path_exists, dump, bind.
  destruct environment as [h|].
  - now destruct (h symbol timeframe field).
  - destruct (bool_decide _); [reflexivity|].
    now destruct (read_csv _).
Qed.

Lemma i_diff_cached :
  i_diff environment path read_csv symbol timeframe shift_ fs =
  cached (is_backtest environment)
    (path +:+ "/tmp/i_diff_" +:+ symbol +:+ str timeframe +:+ "_"
          +:+ str shift_ +:+ ".pkl")
    (io! close <-
       i_close environment path read_csv symbol timeframe shift_;
     io_ret (replace_inf (fillna (Num 0)
               (falign fsub close (shift1 close))))) fs.
Proof using Type.
  unfold i_diff, cached, io_bind, io_ret.
  destruct (is_backtest environment); unfold path_exists;
    [destruct (bool_decide _); [reflexivity|]|];
    now destruct (i_close _ _ _ _ _ _ fs) as [[close|e] fs2].
Qed.

Lemma i_z_score_cached :
  i_z_score environment path read_csv sqrtQ symbol timeframe period shift_
    fs =
  cached (is_backtest environment)
    (path +:+ "/tmp/i_z_score_" +:+ symbol +:+ str timeframe +:+ "_"
          +:+ str period +:+ "_" +:+ str shift_ +:+ ".pkl")
    (io! close <-
       i_close environment path read_csv symbol timeframe shift_;
     io_ret (replace_inf (fillna (Num 0)
               (rolling (Z.to_nat period) (calc_z_score sqrtQ) close)))) fs.
Proof using Type.
  unfold i_z_score, cached, io_bind, io_ret.
  destruct (is_backtest environment); unfold path_exists;
    [destruct (bool_decide _); [reflexivity|]|];
    now destruct (i_close _ _ _ _ _ _ fs) as [[close|e] fs2].
Qed.

Lemma i_bandwalk_cached :
  i_bandwalk environment path read_csv powQ symbol timeframe period shift_
    fs =
  cached (is_backtest environment)
    (path +:+ "/tmp/i_bandwalk_" +:+ symbol +:+ str timeframe +:+ "_"
          +:+ str period +:+ "_" +:+ str shift_ +:+ ".pkl")
    (io! high <- i_high environment path read_csv symbol timeframe shift_;
     io! low <- i_low environment path read_csv symbol timeframe shift_;
     io! close <-
       i_close environment path read_csv symbol timeframe shift_;
     io_ret (bandwalk_of powQ period high low close)) fs.
Proof using Type.
  unfold i_bandwalk, cached, bandwalk_of, io_bind, io_ret.
  destruct (is_backtest environment); unfold path_exists;
    [destruct (bool_decide _); [reflexivity|]|];
    destruct (i_high _ _ _ _ _ _ fs) as [[high|e] fs1]; try reflexivity;
    destruct (i_low _ _ _ _ _ _ fs1) as [[low|e] fs2]; try reflexivity;
    now destruct (i_close _ _ _ _ _ _ fs2) as [[close|e] fs3].
Qed.

(** In a live session no indicator of a candle field looks at the
    folder. *)
Lemma i_column_live (get_history : string -> Z -> string ->
                                   result (Series float64))
    (name : string) (column : nat) (field : string) :
  i_column (Some get_history) path read_csv name column field symbol
    timeframe shift_ fs =
  (do temp <- get_history symbol timeframe field; Ok (shift shift_ temp),
   fs).
Proof using Type.
  unfold i_column, io_bind, io_call, io_ret, bind.
  now destruct (get_history symbol timeframe field).
Qed.
End IndicatorShapes.

(** X5.  In a live session no indicator reads or writes the temporary
    folder: the price indicators return the shifted candles just fetched,
    and [i_diff], [i_bandwalk], [i_z_score] and [i_hl_band] leave the folder
    as they found it, whatever it holds. *)
Theorem live_indicators_bypass_cache
    (get_history : string -> Z -> string -> result (Series float64))
    (path : string) (read_csv : string -> result (nat -> Series float64))
    (sqrtQ : Q -> Q) (powQ : Q -> Q -> Q) (symbol : string)
    (timeframe period shift_ : Z) (fs : gmap string artifact)
    (frames : gmap string frame_artifact) :
  let env := Some get_history in
  let fetch (field : string) : result (Series float64) :=
    do temp <- get_history symbol timeframe field; Ok (shift shift_ temp) in
  i_open env path read_csv symbol timeframe shift_ fs = (fetch "openBid", fs)
  /\ i_high env path read_csv symbol timeframe shift_ fs
     = (fetch "highBid", fs)
  /\ i_low env path read_csv symbol timeframe shift_ fs = (fetch "lowBid", fs)
  /\ i_close env path read_csv symbol timeframe shift_ fs
     = (fetch "closeBid", fs)
  /\ i_volume env path read_csv symbol timeframe shift_ fs
     = (fetch "volumeBid", fs)
  /\ snd (i_diff env path read_csv symbol timeframe shift_ fs) = fs
  /\ snd (i_bandwalk env path read_csv powQ symbol timeframe period shift_ fs)
     = fs
  /\ snd (i_z_score env path read_csv sqrtQ symbol timeframe period shift_ fs)
     = fs
  /\ snd (i_hl_band env path read_csv symbol timeframe period shift_
            (fs, frames)) = (fs, frames).
Proof.
  intros env fetch.
  assert (forall name column field,
    i_column env path read_csv name column field symbol timeframe shift_ fs
    = (fetch field, fs)) as Hcol by (intros; apply i_column_live).
  repeat split; try apply Hcol.
  - rewrite i_diff_cached. cbn [is_backtest env]. rewrite cached_live.
    unfold io_bind, io_ret, i_close. rewrite Hcol. now destruct (fetch _).
  - rewrite i_bandwalk_cached. cbn [is_backtest env]. rewrite cached_live.
    unfold io_bind, io_ret, i_high, i_low, i_close. rewrite Hcol.
    destruct (fetch "highBid"); [|reflexivity]. rewrite Hcol.
    destruct (fetch "lowBid"); [|reflexivity]. rewrite Hcol.
    now destruct (fetch "closeBid").
  - rewrite i_z_score_cached. cbn [is_backtest env]. rewrite cached_live.
    unfold io_bind, io_ret, i_close. rewrite Hcol. now destruct (fetch _).
  - unfold i_hl_band, fio_bind, fio_ret, lift, i_close.
    cbn [is_backtest env fst snd]. rewrite Hcol.
    now destruct (fetch _).
Qed.

(** X6.  In a back-test a call of an indicator that has returned a series
    leaves it in the folder, and the same call made again returns that
    series and leaves the folder as it is, without reading the historical
    file: the second call gives the same result whatever the file holds
    by then. *)
Theorem backtest_indicators_repeat (path : string)
    (read_csv read_csv' : string -> result (nat -> Series float64))
    (sqrtQ : Q -> Q) (powQ : Q -> Q -> Q) (symbol : string)
    (timeframe period shift_ : Z) (fs fs' : gmap string artifact)
    (s : Series float64) :
  (forall name column field,
     i_column None path read_csv name column field symbol timeframe shift_ fs
       = (Ok s, fs') ->
     i_column None path read_csv' name column field symbol timeframe shift_
       fs' = (Ok s, fs')) /\
  (i_diff None path read_csv symbol timeframe shift_ fs = (Ok s, fs') ->
   i_diff None path read_csv' symbol timeframe shift_ fs' = (Ok s, fs')) /\
  (i_bandwalk None path read_csv powQ symbol timeframe period shift_ fs
     = (Ok s, fs') ->
   i_bandwalk None path read_csv' powQ symbol timeframe period shift_ fs'
     = (Ok s, fs')) /\
  (i_z_score None path read_csv sqrtQ symbol timeframe period shift_ fs
     = (Ok s, fs') ->
   i_z_score None path read_csv' sqrtQ symbol timeframe period shift_ fs'
     = (Ok s, fs')).
Proof.
  repeat split.
  - intros name column field. rewrite !i_column_cached. apply cached_again.
  - rewrite !i_diff_cached. apply cached_again.
  - rewrite !i_bandwalk_cached. apply cached_again.
  - rewrite !i_z_score_cached. apply cached_again.
Qed.

(** ** [i_hl_band] *)

Section HlBandFacts.
Variable path : string.
Variable read_csv : string -> result (nat -> Series float64).
Variable symbol : string.
Variables timeframe shift_ : Z.




End HlBandFacts.



(** ** The temporary folder at the start of a back-test *)

Lemma prefix_app (p s : string) : String.prefix p (p +:+ s) = true.
Proof.
  induction p as [|c p IH]; simpl.
  - now destruct s.
  - destruct (Ascii.ascii_dec c c); [exact IH | contradiction].
Qed.

Lemma app_assoc_string (a b c : string) : (a +:+ b) +:+ c = a +:+ b +:+ c.
Proof.
  induction a as [|x a IH]; [reflexivity|].
  change (String x ((a +:+ b) +:+ c) = String x (a +:+ b +:+ c)).
  now rewrite IH.
Qed.

Lemma kept_lookup_tmp {A} (path name : string) (m : gmap string A) :
  filter (fun kv : string * A =>
            String.prefix (path +:+ "/tmp/") (fst kv) = false) m
    !! (path +:+ "/tmp/" +:+ name) = None.
Proof.
  apply map_lookup_filter_None. right. intros x _. cbn.
  rewrite <- app_assoc_string, prefix_app. discriminate.
Qed.

Lemma kept_lookup_other {A} (path file : string) (m : gmap string A) :
  String.prefix (path +:+ "/tmp/") file = false ->
  filter (fun kv : string * A =>
            String.prefix (path +:+ "/tmp/") (fst kv) = false) m !! file
    = m !! file.
Proof.
  intros H. destruct (m !! file) as [x|] eqn:E.
  - apply map_lookup_filter_Some. split; [exact E | exact H].
  - apply map_lookup_filter_None. left. exact E.
Qed.

(** X8.  A [ForexSystem] created for a back-test starts from an empty
    temporary folder: no file of an earlier run is left under it, the files
    elsewhere are untouched, and the first call of a price indicator reads
    the historical file, so that a file the earlier run left unreadable is
    never loaded.  Created for a live session it leaves the folder as it
    is. *)
Theorem backtest_starts_with_empty_folder (path : string)
    (read_csv : string -> result (nat -> Series float64)) (symbol : string)
    (timeframe shift_ : Z) (fs : folder)
    (get_history : string -> Z -> string -> result (Series float64)) :
  let fs0 := snd (ForexSystem_init None path fs) in
  (forall name,
     fst fs0 !! (path +:+ "/tmp/" +:+ name) = None /\
     snd fs0 !! (path +:+ "/tmp/" +:+ name) = None) /\
  (forall file, String.prefix (path +:+ "/tmp/") file = false ->
     fst fs0 !! file = fst fs !! file /\ snd fs0 !! file = snd fs !! file) /\
  (forall name column field,
     i_column None path read_csv name column field symbol timeframe shift_
       (fst fs0) =
     match read_csv ("~/historical_data/" +:+ symbol +:+ str timeframe
                     +:+ ".csv") with
     | Ok temp =>
         (Ok (shift shift_ (temp column)),
          <[path +:+ "/tmp/" +:+ name +:+ "_" +:+ symbol +:+ str timeframe
                 +:+ "_" +:+ str shift_ +:+ ".pkl"
            := Pickle (shift shift_ (temp column))]> (fst fs0))
     | Err e => (Err e, fst fs0)
     end) /\
  ForexSystem_init (Some get_history) path fs = (Ok tt, fs).
Proof.
  intros fs0. subst fs0. unfold ForexSystem_init. cbn [is_backtest snd fst].
  split; [|split; [|split]].
  - intros name. split; apply kept_lookup_tmp.
  - intros file H. split; apply kept_lookup_other; exact H.
  - intros name column field. rewrite i_column_cached. cbn [is_backtest].
    rewrite cached_miss by apply kept_lookup_tmp.
    unfold io_call, column_source, bind.
    now destruct (read_csv _).
  - reflexivity.
Qed.

(** ** What the indicators compute *)

Lemma cached_computed (backtest : bool) (file_path : string)
    (compute : io (Series float64)) (fs : gmap string artifact) :
  (backtest = true -> fs !! file_path = None) ->
  fst (cached backtest file_path compute fs) = fst (compute fs).
Proof.
  intros H. destruct backtest.
  - rewrite cached_miss by now apply H.
    now destruct (compute fs) as [[v|e] fs1].
  - now rewrite cached_live.
Qed.

Lemma clean_finite (s : Series float64) :
  finite_series (replace_inf (fillna (Num 0) s)).
Proof.
  unfold finite_series, replace_inf, fillna, values, smap.
  rewrite !map_map. induction s as [|[k v] r IH]; cbn [map snd fst].
  - constructor.
  - constructor; [|exact IH]. now destruct v.
Qed.

Lemma loc_clean (s : Series float64) (t : Z) :
  loc (replace_inf (fillna (Num 0) s)) t =
    option_map zero_if_not_finite (loc s t).
Proof.
  unfold replace_inf, fillna. rewrite !loc_smap.
  destruct (loc s t) as [v|]; [|reflexivity].
  cbn [option_map]. f_equal. now destruct v.
Qed.

Lemma index_clean (s : Series float64) :
  index (replace_inf (fillna (Num 0) s)) = index s.
Proof. unfold replace_inf, fillna. now rewrite !index_smap. Qed.

(** X9.  When [i_diff] computes its result (in a live session, or in a
    back-test that finds no file), the result has the rows of the close
    series, the value of a row is the close minus the close of the row
    before, 0 on the first row and wherever the difference is not finite,
    and so no value is [NaN] or infinite. *)
Theorem i_diff_rows
    (environment : option (string -> Z -> string -> result (Series float64)))
    (path : string) (read_csv : string -> result (nat -> Series float64))
    (symbol : string) (timeframe shift_ : Z) (fs : gmap string artifact)
    (diff : Series float64) :
  (is_backtest environment = true ->
   fs !! (path +:+ "/tmp/i_diff_" +:+ symbol +:+ str timeframe +:+ "_"
               +:+ str shift_ +:+ ".pkl") = None) ->
  fst (i_diff environment path read_csv symbol timeframe shift_ fs)
    = Ok diff ->
  exists close,
    fst (i_close environment path read_csv symbol timeframe shift_ fs)
      = Ok close /\
    index diff = index close /\
    finite_series diff /\
    (forall t c, loc close t = Some c ->
       loc diff t =
         Some (match prev_row close t with
               | Some (Some p) => zero_if_not_finite (fsub c p)
               | _ => Num 0
               end)).
Proof.
  intros Hmiss H. rewrite i_diff_cached in H.
  rewrite cached_computed in H by exact Hmiss.
  unfold io_bind, io_ret in H.
  destruct (i_close _ _ _ _ _ _ fs) as [[close|e] fs1]; [|discriminate].
  cbn [fst] in H. inversion H; subst diff. clear H.
  exists close. split; [reflexivity|]. split; [|split].
  - rewrite index_clean. unfold falign. rewrite index_align, index_shift1.
    apply union_index_same.
  - apply clean_finite.
  - intros t c Hc. rewrite loc_clean. unfold falign. rewrite loc_align.
    rewrite index_shift1, loc_mem, Hc. cbn [orb option_map default].
    rewrite loc_shift1. f_equal.
    destruct (prev_row close t) as [[p|]|]; cbn [option_map default];
      [reflexivity | now destruct c | now destruct c].
Qed.

Lemma i_diff_rows_witness :
  let history (_ : string) (_ : Z) (_ : string) : result (Series float64) :=
    Ok [(0, Num 5); (60, Num 7); (120, PInf)] in
  exists diff,
    fst (i_diff (Some history) "/fs" (fun _ => Err LoadError) "USDJPY" 60 0 ∅)
      = Ok diff /\
    loc diff 0 = Some (Num 0) /\ loc diff 60 = Some (Num 2) /\
    loc diff 120 = Some (Num 0).
Proof.
  intros history.
  destruct (fst (i_diff (Some history) "/fs" (fun _ => Err LoadError)
                   "USDJPY" 60 0 ∅)) as [diff|e] eqn:E;
    [|vm_compute in E; discriminate E].
  exists diff. split; [reflexivity|].
  destruct (i_diff_rows (Some history) "/fs" (fun _ => Err LoadError)
              "USDJPY" 60 0 ∅ diff) as (close & Hc & _ & _ & Hrow).
  - discriminate.
  - exact E.
  - vm_compute in Hc. inversion Hc; subst close.
    split; [|split].
    + exact (Hrow 0 (Num 5) eq_refl).
    + exact (Hrow 60 (Num 7) eq_refl).
    + exact (Hrow 120 PInf eq_refl).
Defined.

Lemma rolling_index (period : nat) (f : list float64 -> float64)
    (s : Series float64) :
  index (rolling period f s) = index s.
Proof.
  unfold rolling, index, Series in *. apply list_eq. intros i.
  rewrite !list_lookup_fmap, list_lookup_imap.
  now destruct (s !! i) as [[k v]|].
Qed.

Lemma rolling_values (period : nat) (f : list float64 -> float64)
    (s : Series float64) (i : nat) :
  (i < length s)%nat ->
  values (rolling period f s) !! i =
    Some (if (S i <? period)%nat then NaN
          else
            let window := take period (drop (S i - period) (values s)) in
            if existsb is_nan window then NaN else f window).
Proof.
  intros Hi. unfold rolling, values at 1. unfold Series in *.
  rewrite list_lookup_fmap, list_lookup_imap.
  destruct (lookup_lt_is_Some_2 s i Hi) as [[k v] ->]. reflexivity.
Qed.

Lemma values_clean (s : Series float64) (i : nat) :
  values (replace_inf (fillna (Num 0) s)) !! i =
    zero_if_not_finite <$> values s !! i.
Proof.
  unfold replace_inf, fillna, values, smap, Series in *.
  rewrite !list_lookup_fmap.
  destruct (s !! i) as [[k v]|]; [|reflexivity].
  cbn. f_equal. now destruct v.
Qed.

Lemma sort_float_replicate (n : nat) (q : Q) :
  sort_float (replicate n (Num q)) = replicate n (Num q).
Proof.
  induction n as [|n IH]; [reflexivity|].
  cbn [replicate sort_float foldr]. fold (sort_float (replicate n (Num q))).
  rewrite IH. destruct n as [|n]; [reflexivity|].
  cbn [replicate insert_float].
  assert (fle (Num q) (Num q) = true) as -> by (apply fle_Num; lra).
  reflexivity.
Qed.

Lemma np_median_replicate (n : nat) (q : Q) :
  (0 < n)%nat ->
  exists m, np_median (replicate n (Num q)) = Num m /\ (m == q)%Q.
Proof.
  intros Hn. unfold np_median.
  assert (existsb is_nan (replicate n (Num q)) = false) as ->.
  { clear Hn. induction n as [|n IH]; [reflexivity | exact IH]. }
  rewrite sort_float_replicate, length_replicate.
  destruct (Nat.eqb_spec n 0) as [->|_]; [lia|].
  assert (forall k, (k < n)%nat -> nth k (replicate n (Num q)) NaN = Num q)
    as Hnth.
  { intros k Hk. apply nth_lookup_Some with (d := NaN).
    now apply lookup_replicate_2. }
  assert (n `div` 2 < n)%nat as H2 by (apply Nat.div_lt; lia).
  destruct (Nat.even n).
  - rewrite !Hnth by lia. cbn [fadd fdiv].
    assert (Qeq_bool 2 0 = false) as -> by reflexivity.
    eexists. split; [reflexivity|]. rewrite !Qred_correct. field.
  - rewrite Hnth by lia. exists q. split; [reflexivity | reflexivity].
Qed.

Lemma calc_z_score_constant (sqrtQ : Q -> Q) (n : nat) (q : Q) :
  (0 < n)%nat -> (sqrtQ 0 < 1 # 100000)%Q ->
  calc_z_score sqrtQ (replicate n (Num q)) = Num 0.
Proof.
  intros Hn Hs. unfold calc_z_score.
  destruct (np_median_replicate n q Hn) as (m & -> & Hm).
  assert (forall k,
    fold_left
      (fun std x => fadd std (fmul (fsub x (Num m)) (fsub x (Num m))))
      (replicate k (Num q)) (Num 0) = Num 0) as ->.
  { induction k as [|k IH]; [reflexivity|].
    cbn [replicate fold_left fsub].
    rewrite (Qred_zero (q - m)%Q) by (rewrite Hm; ring).
    exact IH. }
  rewrite length_replicate. unfold of_nat, of_Z. cbn [fdiv].
  assert (Qeq_bool (inject_Z (Z.of_nat n)) 0 = false) as ->.
  { apply Qeq_bool_false. apply inject_Z_nonzero. lia. }
  rewrite (Qred_zero (0 / inject_Z (Z.of_nat n))%Q) by (unfold Qdiv; ring).
  unfold np_sqrt. change (Qsign 0) with Eq. cbv beta iota.
  assert (flt (Num (Qred (sqrtQ 0%Q))) EPS = true) as ->; [|reflexivity].
  apply flt_Num. now rewrite Qred_correct.
Qed.

(** X10.  When [i_z_score] computes its result, the result has the rows of
    the close series and holds no [NaN] and no infinity: a row is 0 until
    [period] closes are there and whenever one of the last [period] closes
    is missing, and otherwise the z-score of the last [period] closes,
    replaced by 0 if it is not finite.  The z-score of [period] equal
    closes is 0, the deviation 0 being caught by the guard. *)
Theorem i_z_score_rows
    (environment : option (string -> Z -> string -> result (Series float64)))
    (path : string) (read_csv : string -> result (nat -> Series float64))
    (sqrtQ : Q -> Q) (symbol : string) (timeframe period shift_ : Z)
    (fs : gmap string artifact) (z_score : Series float64) :
  0 < period ->
  (is_backtest environment = true ->
   fs !! (path +:+ "/tmp/i_z_score_" +:+ symbol +:+ str timeframe +:+ "_"
               +:+ str period +:+ "_" +:+ str shift_ +:+ ".pkl") = None) ->
  fst (i_z_score environment path read_csv sqrtQ symbol timeframe period
         shift_ fs) = Ok z_score ->
  exists close,
    fst (i_close environment path read_csv symbol timeframe shift_ fs)
      = Ok close /\
    index z_score = index close /\
    finite_series z_score /\
    (forall i, (i < length close)%nat ->
       values z_score !! i =
         Some (if (S i <? Z.to_nat period)%nat then Num 0
               else
                 let window :=
                   take (Z.to_nat period)
                        (drop (S i - Z.to_nat period) (values close)) in
                 if existsb is_nan window then Num 0
                 else zero_if_not_finite (calc_z_score sqrtQ window))) /\
    (forall q, (sqrtQ 0 < 1 # 100000)%Q ->
       calc_z_score sqrtQ (replicate (Z.to_nat period) (Num q)) = Num 0).
Proof.
  intros Hp Hmiss H. rewrite i_z_score_cached in H.
  rewrite cached_computed in H by exact Hmiss.
  unfold io_bind, io_ret in H.
  destruct (i_close _ _ _ _ _ _ fs) as [[close|e] fs1]; [|discriminate].
  cbn [fst] in H. inversion H; subst z_score. clear H.
  exists close. split; [reflexivity|]. split; [|split; [|split]].
  - now rewrite index_clean, rolling_index.
  - apply clean_finite.
  - intros i Hi. rewrite values_clean, rolling_values by exact Hi.
    cbn [fmap option_fmap option_map]. f_equal.
    destruct (S i <? Z.to_nat period)%nat; [reflexivity|].
    cbv zeta. now destruct (existsb is_nan _).
  - intros q Hs. apply calc_z_score_constant; [lia | exact Hs].
Qed.

Lemma i_z_score_rows_witness :
  let history (_ : string) (_ : Z) (_ : string) : result (Series float64) :=
    Ok [(0, Num 5); (60, Num 5); (120, Num 5)] in
  exists z_score,
    fst (i_z_score (Some history) "/fs" (fun _ => Err LoadError)
           (fun _ => 0%Q) "USDJPY" 60 2 0 ∅) = Ok z_score /\
    values z_score = [Num 0; Num 0; Num 0].
Proof.
  intros history.
  destruct (fst (i_z_score (Some history) "/fs" (fun _ => Err LoadError)
                   (fun _ => 0%Q) "USDJPY" 60 2 0 ∅)) as [z|e] eqn:E;
    [|vm_compute in E; discriminate E].
  exists z. split; [reflexivity|].
  destruct (i_z_score_rows (Some history) "/fs" (fun _ => Err LoadError)
              (fun _ => 0%Q) "USDJPY" 60 2 0 ∅ z)
    as (close & Hc & Hi & _ & Hrow & _).
  - lia.
  - discriminate.
  - exact E.
  - vm_compute in Hc. inversion Hc; subst close.
    pose proof (f_equal length Hi) as Hlen. unfold index in Hlen.
    rewrite !length_map in Hlen. cbn in Hlen.
    pose proof (Hrow 0%nat ltac:(cbn; lia)) as H0.
    pose proof (Hrow 1%nat ltac:(cbn; lia)) as H1.
    pose proof (Hrow 2%nat ltac:(cbn; lia)) as H2.
    unfold values in *.
    destruct z as [|[k0 v0] [|[k1 v1] [|[k2 v2] [|? ?]]]];
      try discriminate Hlen.
    vm_compute in H0, H1, H2. cbn [map snd]. congruence.
Defined.

(** ** The band walk *)

Lemma calc_bandwalk_counters (rows : list (float64 * float64 * float64)) :
  forall up down,
    calc_bandwalk up down rows =
      zip_with (fun u d => of_Z (u - d))
        (count_from up (map bar_above rows))
        (count_from down (map bar_below rows)).
Proof.
  induction rows as [|[[h l] m] r IH]; intros up down; [reflexivity|].
  cbn [calc_bandwalk map count_from zip_with bar_above bar_below].
  now rewrite IH.
Qed.

Lemma leading_app_false (l x : list bool) :
  forallb id l = false -> leading (l ++ x) = leading l.
Proof.
  induction l as [|[] l IH]; cbn; intros H; [discriminate | | reflexivity].
  now rewrite IH.
Qed.

Lemma leading_all (l : list bool) (b : bool) :
  forallb id l = true ->
  leading (l ++ [b]) = Z.of_nat (length l) + (if b then 1 else 0).
Proof.
  induction l as [|[] l IH]; cbn [forallb id andb app leading length];
    intros H; [now destruct b | | discriminate].
  rewrite IH by exact H. lia.
Qed.

Lemma forallb_rev (l : list bool) : forallb id (rev l) = forallb id l.
Proof.
  induction l as [|b l IH]; [reflexivity|].
  cbn [rev forallb]. rewrite forallb_app, IH. cbn [forallb].
  unfold id. destruct b, (forallb (fun x => x) l); reflexivity.
Qed.

Lemma count_from_lookup (flags : list bool) : forall n i,
  (i < length flags)%nat ->
  count_from n flags !! i =
    Some (if forallb id (take (S i) flags) then n + Z.of_nat (S i)
          else streak flags i).
Proof.
  induction flags as [|b r IH]; intros n i Hi; [cbn in Hi; lia|].
  destruct i as [|j].
  - cbn. unfold streak. now destruct b.
  - cbn [count_from lookup list_lookup]. cbn [length] in Hi.
    rewrite IH by lia. f_equal.
    unfold streak. cbn [take forallb rev].
    change (take (S j) r) with (take (S j) r).
    destruct (forallb id (take (S j) r)) eqn:F.
    + destruct b; cbn [id andb].
      * lia.
      * rewrite leading_all by now rewrite forallb_rev.
        rewrite length_rev, length_take. lia.
    + rewrite Bool.andb_false_r.
      rewrite leading_app_false by now rewrite forallb_rev. reflexivity.
Qed.

Lemma leading_bounds (l : list bool) : 0 <= leading l <= Z.of_nat (length l).
Proof.
  induction l as [|[] l IH]; cbn [leading length]; lia.
Qed.

Lemma streak_positive (flags : list bool) (i : nat) (b : bool) :
  flags !! i = Some b -> (0 < streak flags i <-> b = true).
Proof.
  intros H. unfold streak.
  rewrite (take_S_r _ _ _ H), rev_app_distr. cbn [rev app].
  pose proof (leading_bounds (rev (take i flags))).
  destruct b; cbn [leading]; split; intros; try reflexivity; try lia;
    discriminate.
Qed.

Lemma streak_bounds (flags : list bool) (i : nat) :
  0 <= streak flags i <= Z.of_nat (S i).
Proof.
  unfold streak. pose proof (leading_bounds (rev (take (S i) flags))) as H.
  rewrite length_rev, length_take in H. lia.
Qed.

Lemma above_not_below (h l m : float64) :
  fle l h = true -> fgt l m = true -> flt h m = true -> False.
Proof.
  unfold fle, fgt, flt. destruct h as [h| | |], l as [l| | |], m as [m| | |];
    cbn; try discriminate.
  destruct (Qcompare_spec l h), (Qcompare_spec l m), (Qcompare_spec h m);
    try discriminate; intros _ _ _; lra.
Qed.

Lemma calc_bandwalk_lookup (rows : list (float64 * float64 * float64))
    (i : nat) :
  (i < length rows)%nat ->
  calc_bandwalk 0 0 rows !! i =
    Some (of_Z (streak (map bar_above rows) i
                - streak (map bar_below rows) i)).
Proof.
  intros Hi.
  rewrite calc_bandwalk_counters, lookup_zip_with.
  rewrite !count_from_lookup by (rewrite length_map; exact Hi).
  cbn [mbind option_bind].
  assert (forall flags : list bool, (i < length flags)%nat ->
    (if forallb id (take (S i) flags) then 0 + Z.of_nat (S i)
     else streak flags i) = streak flags i) as E.
  { intros flags Hf. destruct (forallb id (take (S i) flags)) eqn:F;
      [|reflexivity].
    unfold streak. rewrite <- (app_nil_r (rev _)).
    rewrite <- forallb_rev in F.
    assert (forall l, forallb id l = true ->
              leading l = Z.of_nat (length l)) as L.
    { induction l as [|[] l IH]; cbn [forallb id andb leading length];
        intros G; [reflexivity | rewrite IH by exact G; lia | discriminate]. }
    rewrite app_nil_r, (L _ F), length_rev, length_take. lia. }
  rewrite !E by (rewrite length_map; exact Hi). reflexivity.
Qed.

(** X12.  The jitted loop of [i_bandwalk] gives every bar the length of the
    run of bars wholly above the median that ends with it, minus the length
    of the run of bars wholly below the median that ends with it.  A run
    counts the bar itself, so it is positive exactly when the bar is on
    that side; and when the low of the bar is not above its high, at most
    one of the two runs is positive. *)
Theorem calc_bandwalk_streaks (rows : list (float64 * float64 * float64))
    (i : nat) (high low median : float64) :
  rows !! i = Some (high, low, median) ->
  let up := streak (map bar_above rows) i in
  let down := streak (map bar_below rows) i in
  calc_bandwalk 0 0 rows !! i = Some (of_Z (up - down)) /\
  0 <= up <= Z.of_nat i + 1 /\ 0 <= down <= Z.of_nat i + 1 /\
  (0 < up <-> fgt low median = true) /\
  (0 < down <-> flt high median = true) /\
  (fle low high = true -> up = 0 \/ down = 0).
Proof.
  intros H up down.
  assert (i < length rows)%nat as Hi by (apply lookup_lt_is_Some; eauto).
  assert (map bar_above rows !! i = Some (fgt low median)) as Ha
    by (rewrite list_lookup_fmap, H; reflexivity).
  assert (map bar_below rows !! i = Some (flt high median)) as Hb
    by (rewrite list_lookup_fmap, H; reflexivity).
  pose proof (streak_positive _ _ _ Ha) as Pa.
  pose proof (streak_positive _ _ _ Hb) as Pb.
  pose proof (streak_bounds (map bar_above rows) i) as Ba.
  pose proof (streak_bounds (map bar_below rows) i) as Bb.
  fold up in Pa, Ba. fold down in Pb, Bb.
  split; [|split; [lia | split; [lia | split; [exact Pa | split;
    [exact Pb|]]]]].
  - now apply calc_bandwalk_lookup.
  - intros Hle.
    destruct (Z.eq_dec up 0) as [|Nu]; [now left|].
    destruct (Z.eq_dec down 0) as [|Nd]; [now right|].
    exfalso. apply (above_not_below high low median Hle).
    + apply Pa. lia.
    + apply Pb. lia.
Qed.

Lemma calc_bandwalk_streaks_witness :
  calc_bandwalk 0 0
    [(Num 3, Num 2, Num 1); (Num 4, Num 3, Num 2); (Num 1, Num 0, Num 2)]
    !! 1%nat = Some (Num 2).
Proof.
  exact (proj1 (calc_bandwalk_streaks
    [(Num 3, Num 2, Num 1); (Num 4, Num 3, Num 2); (Num 1, Num 0, Num 2)]
    1 (Num 4) (Num 3) (Num 2) eq_refl)).
Defined.

Lemma values_combine {A} (ks : list Z) (vs : list A) :
  (length vs <= length ks)%nat -> values (combine ks vs) = vs.
Proof.
  revert vs. induction ks as [|k r IH]; intros vs H.
  - destruct vs; [reflexivity | cbn in H; lia].
  - destruct vs as [|v vs]; [reflexivity|].
    cbn in H |- *. unfold values in IH. rewrite IH by lia. reflexivity.
Qed.

Lemma values_smap {A B} (f : A -> B) (s : Series A) :
  values (smap f s) = map f (values s).
Proof. unfold values, smap. now rewrite !map_map. Qed.

Lemma calc_bandwalk_length (rows : list (float64 * float64 * float64)) :
  forall up down, length (calc_bandwalk up down rows) = length rows.
Proof.
  induction rows as [|[[h l] m] r IH]; intros up down; [reflexivity|].
  cbn. now rewrite IH.
Qed.

Lemma rolling_median_lookup (period : nat) (s : Series float64) (i : nat) :
  (i < length s)%nat -> (S i < period)%nat ->
  values (rolling_median period s) !! i = Some NaN.
Proof.
  intros Hi Hp. unfold rolling_median, values at 1. unfold Series in *.
  rewrite list_lookup_fmap, list_lookup_imap.
  destruct (lookup_lt_is_Some_2 s i Hi) as [[k v] ->].
  cbn [fmap option_fmap option_map snd]. f_equal.
  destruct (Nat.ltb_spec (S i) period); [reflexivity | lia].
Qed.

Lemma rolling_median_index (period : nat) (s : Series float64) :
  index (rolling_median period s) = index s.
Proof.
  unfold rolling_median, index, Series in *. apply list_eq. intros i.
  rewrite !list_lookup_fmap, list_lookup_imap.
  now destruct (s !! i) as [[k v]|].
Qed.

Lemma bandwalk_of_rows (powQ : Q -> Q -> Q) (period : Z)
    (high low close : Series float64) :
  index (bandwalk_of powQ period high low close) = index close /\
  no_nan (values (bandwalk_of powQ period high low close)) /\
  (forall i, (i < length close)%nat -> (S i < Z.to_nat period)%nat ->
     values (bandwalk_of powQ period high low close) !! i = Some (Num 0)).
Proof.
  unfold bandwalk_of.
  set (median := rolling_median (Z.to_nat period) close).
  set (rows := imap _ (values median)).
  set (scale := Num _).
  assert (length (values median) = length close) as Lm.
  { unfold values. rewrite length_map. unfold median.
    pose proof (f_equal length (rolling_median_index (Z.to_nat period) close))
      as H.
    unfold index in H. now rewrite !length_map in H. }
  assert (length rows = length close) as Lr
    by (unfold rows; now rewrite length_imap).
  assert (length (index median) = length close) as Li.
  { unfold median. rewrite rolling_median_index. unfold index.
    now rewrite length_map. }
  split; [|split].
  - unfold fillna. rewrite index_smap, index_combine.
    + apply rolling_median_index.
    + rewrite length_map, calc_bandwalk_length. lia.
  - unfold no_nan, fillna, values, smap. rewrite map_map.
    apply List.Forall_forall. intros x Hx.
    apply in_map_iff in Hx. destruct Hx as ([k v] & <- & _).
    cbn. now destruct v.
  - intros i Hi Hp. unfold fillna.
    rewrite values_smap.
    rewrite values_combine
      by (rewrite length_map, calc_bandwalk_length; lia).
    rewrite !list_lookup_fmap.
    assert (exists h l, rows !! i = Some (h, l, NaN)) as (h & l & Hrow).
    { unfold rows. rewrite list_lookup_imap.
      unfold median. rewrite (rolling_median_lookup _ _ _ Hi Hp).
      cbn. eauto. }
    assert (i < length rows)%nat as Hlen
      by (apply lookup_lt_is_Some; eauto).
    pose proof (calc_bandwalk_lookup rows i Hlen) as Hv.
    assert (map bar_above rows !! i = Some (fgt l NaN)) as Ha
      by (rewrite list_lookup_fmap, Hrow; reflexivity).
    assert (map bar_below rows !! i = Some (flt h NaN)) as Hb
      by (rewrite list_lookup_fmap, Hrow; reflexivity).
    pose proof (streak_positive _ _ _ Ha) as Pa.
    pose proof (streak_positive _ _ _ Hb) as Pb.
    pose proof (streak_bounds (map bar_above rows) i) as Ba.
    pose proof (streak_bounds (map bar_below rows) i) as Bb.
    assert (streak (map bar_above rows) i = 0) as Ua.
    { destruct (Z.eq_dec (streak (map bar_above rows) i) 0) as [E|N];
        [exact E|].
      assert (fgt l NaN = true) as F by (apply Pa; lia).
      now destruct l. }
    assert (streak (map bar_below rows) i = 0) as Ub.
    { destruct (Z.eq_dec (streak (map bar_below rows) i) 0) as [E|N];
        [exact E|].
      assert (flt h NaN = true) as F by (apply Pb; lia).
      now destruct h. }
    rewrite Hv, Ua, Ub. cbn [fmap option_fmap option_map]. f_equal.
    unfold scale, of_Z. cbn [fdiv].
    destruct (Qeq_bool _ 0); reflexivity.
Qed.

(** X11.  When [i_bandwalk] computes its result, from the highs, the lows
    and the closes it has just obtained, the result has the rows of the
    close series and holds no [NaN], and the band walk is 0 on every row
    before the [period]-th: there is no median yet to be above or
    below. *)
Theorem i_bandwalk_rows
    (environment : option (string -> Z -> string -> result (Series float64)))
    (path : string) (read_csv : string -> result (nat -> Series float64))
    (powQ : Q -> Q -> Q) (symbol : string) (timeframe period shift_ : Z)
    (fs : gmap string artifact) (bandwalk : Series float64) :
  (is_backtest environment = true ->
   fs !! (path +:+ "/tmp/i_bandwalk_" +:+ symbol +:+ str timeframe +:+ "_"
               +:+ str period +:+ "_" +:+ str shift_ +:+ ".pkl") = None) ->
  fst (i_bandwalk environment path read_csv powQ symbol timeframe period
         shift_ fs) = Ok bandwalk ->
  exists high low close fs1 fs2 fs3,
    i_high environment path read_csv symbol timeframe shift_ fs
      = (Ok high, fs1) /\
    i_low environment path read_csv symbol timeframe shift_ fs1
      = (Ok low, fs2) /\
    i_close environment path read_csv symbol timeframe shift_ fs2
      = (Ok close, fs3) /\
    index bandwalk = index close /\
    no_nan (values bandwalk) /\
    (forall i, (i < length close)%nat -> (S i < Z.to_nat period)%nat ->
       values bandwalk !! i = Some (Num 0)).
Proof.
  intros Hmiss H. rewrite i_bandwalk_cached in H.
  rewrite cached_computed in H by exact Hmiss.
  unfold io_bind, io_ret in H.
  destruct (i_high _ _ _ _ _ _ fs) as [[high|e] fs1] eqn:E1; [|discriminate].
  destruct (i_low _ _ _ _ _ _ fs1) as [[low|e] fs2] eqn:E2; [|discriminate].
  destruct (i_close _ _ _ _ _ _ fs2) as [[close|e] fs3] eqn:E3;
    [|discriminate].
  cbn [fst] in H. inversion H; subst bandwalk. clear H.
  exists high, low, close, fs1, fs2, fs3.
  split; [reflexivity|]. split; [exact E2|]. split; [exact E3|].
  apply bandwalk_of_rows.
Qed.

Lemma i_bandwalk_rows_witness :
  let history (_ : string) (_ : Z) (field : string)
      : result (Series float64) :=
    Ok (if String.eqb field "lowBid"
        then [(0, Num 4); (60, Num 6); (120, Num 8)]
        else [(0, Num 5); (60, Num 7); (120, Num 9)]) in
  exists bandwalk,
    fst (i_bandwalk (Some history) "/fs" (fun _ => Err LoadError)
           (fun x _ => x) "USDJPY" 60 3 0 ∅) = Ok bandwalk /\
    values bandwalk !! 0%nat = Some (Num 0) /\
    values bandwalk !! 1%nat = Some (Num 0).
Proof.
  intros history.
  destruct (fst (i_bandwalk (Some history) "/fs" (fun _ => Err LoadError)
                   (fun x _ => x) "USDJPY" 60 3 0 ∅)) as [b|e] eqn:E;
    [|vm_compute in E; discriminate E].
  exists b. split; [reflexivity|].
  destruct (i_bandwalk_rows (Some history) "/fs" (fun _ => Err LoadError)
              (fun x _ => x) "USDJPY" 60 3 0 ∅ b)
    as (high & low & close & fs1 & fs2 & fs3 & _ & _ & Hc & _ & _ & Hrow).
  - discriminate.
  - exact E.
  - assert (length close = 3%nat) as Hlen.
    { unfold i_close in Hc. rewrite i_column_live in Hc.
      now inversion Hc. }
    split; apply Hrow; rewrite ?Hlen; vm_compute; lia.
Defined.

(** ** [convert_hst2csv] *)

Section HstFacts.
Variable unpack_double : list Byte.byte -> float64.

(** The row written for the bar that starts at the offset [at] of the
    file. *)
Let row_at (file : list Byte.byte) (at_ : nat) : csv_row :=
  {| datetime := unpack_int (take 4 (drop at_ file));
     open_price := unpack_double (take 8 (drop (at_ + 4) file));
     high_price := unpack_double (take 8 (drop (at_ + 20) file));
     low_price := unpack_double (take 8 (drop (at_ + 12) file));
     close_price := unpack_double (take 8 (drop (at_ + 28) file));
     volume := unpack_double (take 8 (drop (at_ + 36) file)) |}.

Lemma take_drop_take {A} (l : list A) (n a b : nat) :
  (a + n <= b)%nat -> take n (drop a (take b l)) = take n (drop a l).
Proof using Type.
  intros H. replace b with (a + (b - a))%nat by lia.
  rewrite <- take_drop_commute, take_take. f_equal. lia.
Qed.

Lemma read_bars_spec (fuel : nat) : forall (file : list Byte.byte) (at_ : nat),
  (length (drop at_ file) < fuel)%nat ->
  read_bars unpack_double fuel (drop at_ file) =
    Some (if (length (drop at_ file) mod 44 =? 0)%nat
          then inr (map (fun k => row_at file (at_ + 44 * k))
                        (seq 0 (length (drop at_ file) / 44)))
          else inl StructError).
Proof using Type.
  induction fuel as [|fuel IH]; intros file at_ Hf; [lia|].
  cbn [read_bars].
  destruct (take 44 (drop at_ file)) as [|b buf] eqn:Eb.
  - assert (length (drop at_ file) = 0%nat) as L.
    { apply (f_equal length) in Eb. rewrite length_take in Eb.
      change (length (@nil Byte.byte)) with 0%nat in Eb. lia. }
    rewrite L. reflexivity.
  - rewrite <- Eb. unfold unpack. rewrite length_take.
    destruct (Nat.eqb_spec (44 `min` length (drop at_ file)) 44) as [E|N].
    + assert (44 <= length (drop at_ file))%nat as Hge by lia.
      rewrite !take_drop_take by lia.
      rewrite take_take. change (4 `min` 44)%nat with 4%nat.
      rewrite !drop_drop.
      assert (length (drop (at_ + 44) file)
              = (length (drop at_ file) - 44)%nat) as L
        by (rewrite !length_drop; lia).
      rewrite IH by lia.
      rewrite L.
      assert ((length (drop at_ file) - 44) mod 44
              = length (drop at_ file) mod 44)%nat as ->.
      { rewrite <- (Nat.Div0.mod_add (length (drop at_ file) - 44) 1 44).
        f_equal. lia. }
      destruct (length (drop at_ file) mod 44 =? 0)%nat; [|reflexivity].
      assert (length (drop at_ file) / 44
              = S ((length (drop at_ file) - 44) / 44))%nat as ->.
      { rewrite <- (Nat.add_1_r ((length (drop at_ file) - 44) / 44)).
        rewrite <- (Nat.div_add (length (drop at_ file) - 44) 1 44) by lia.
        f_equal. lia. }
      cbn [seq map]. rewrite <- seq_shift, map_map.
      unfold row_at. rewrite Nat.mul_0_r, !Nat.add_0_r.
      f_equal. f_equal. f_equal.
      apply map_ext. intros k.
      replace (at_ + 44 + 44 * k)%nat with (at_ + 44 * S k)%nat by lia.
      reflexivity.
    + assert (length (drop at_ file) < 44)%nat as Hlt by lia.
      assert (length (drop at_ file) <> 0)%nat as Hne.
      { intros Z0. apply length_zero_iff_nil in Z0.
        rewrite Z0 in Eb. discriminate. }
      rewrite Nat.mod_small by exact Hlt.
      destruct (Nat.eqb_spec (length (drop at_ file)) 0); [lia|].
      reflexivity.
Qed.
End HstFacts.

(** X13.  [convert_hst2csv] skips the first 148 bytes of the file, whatever
    they are, and reads the rest in records of 44 bytes.  When the rest is
    a whole number of records (none for a file of at most 148 bytes) it
    writes one row for each record, in order: the time of the record, its
    first number as the open, its third as the high, its second as the
    low, then the close and the volume.  When bytes are left over at the
    end it raises [struct.error] and writes nothing.  The loop ends in
    both cases. *)
Theorem convert_hst2csv_rows (unpack_double : list Byte.byte -> float64)
    (file : list Byte.byte) :
  let body := (length file - 148)%nat in
  let row (k : nat) : csv_row :=
    let at_ := (148 + 44 * k)%nat in
    {| datetime := unpack_int (take 4 (drop at_ file));
       open_price := unpack_double (take 8 (drop (at_ + 4) file));
       high_price := unpack_double (take 8 (drop (at_ + 20) file));
       low_price := unpack_double (take 8 (drop (at_ + 12) file));
       close_price := unpack_double (take 8 (drop (at_ + 28) file));
       volume := unpack_double (take 8 (drop (at_ + 36) file)) |} in
  convert_hst2csv unpack_double file =
    Some (if (body mod 44 =? 0)%nat
          then inr (map row (seq 0 (body / 44)))
          else inl StructError) /\
  ((length file <= 148)%nat ->
   convert_hst2csv unpack_double file = Some (inr [])).
Proof.
  intros body row.
  assert (convert_hst2csv unpack_double file =
    Some (if (body mod 44 =? 0)%nat
          then inr (map row (seq 0 (body / 44)))
          else inl StructError)) as H.
  { unfold convert_hst2csv.
    rewrite read_bars_spec by (rewrite length_drop; lia).
    rewrite length_drop. reflexivity. }
  split; [exact H|].
  intros Hs. rewrite H.
  assert (body = 0%nat) as -> by (unfold body; lia). reflexivity.
Qed.

(** ** The live loop over several passes *)

Section TradeRuns.
Variable spread : Q.
Variables ea mail : Z.
Variable a : answers.

(** The order management in full: result, local variables and trace. *)
Lemma manage_orders_run (bid ask : Q) (signal : Z) (st : live_state)
    (tr : list event) :
  manage_orders spread ea mail a bid ask signal st tr =
    match (if must_close st signal then a_order_close a else Ok tt) with
    | Err e => (Err e, st, tr)
    | Ok _ =>
        let st1 := if must_close st signal then flat_of st else st in
        let tr1 := tr ++ close_part ea mail a st signal in
        if (pos st1 =? 0) && Qle_bool (ask - bid) spread then
          match open_side signal with
          | Some s =>
              match a_order_send a with
              | Ok t =>
                  (Ok tt, held_of st1 s t,
                   tr1 ++ OrderSend s t :: notifications ea mail signal)
              | Err e => (Err e, st1, tr1)
              end
          | None => (Ok tt, st1, tr1)
          end
        else (Ok tt, st1, tr1)
    end.
Proof using Type.
  assert (forall st1 tr1,
    when ((pos st1 =? 0) && Qle_bool (ask - bid) spread)
      (if signal =? 1 then open_position ea mail a Buy signal
       else if signal =? -1 then open_position ea mail a Sell signal
       else ret tt) st1 tr1 =
    if (pos st1 =? 0) && Qle_bool (ask - bid) spread then
      match open_side signal with
      | Some s =>
          match a_order_send a with
          | Ok t =>
              (Ok tt, held_of st1 s t,
               tr1 ++ OrderSend s t :: notifications ea mail signal)
          | Err e => (Err e, st1, tr1)
          end
      | None => (Ok tt, st1, tr1)
      end
    else (Ok tt, st1, tr1)) as Hopen.
  { intros st1 tr1. unfold when, open_side, ret.
    destruct ((pos st1 =? 0) && Qle_bool (ask - bid) spread);
      [|reflexivity].
    destruct (signal =? 1); [|destruct (signal =? -1)];
      rewrite ?open_position_spec; reflexivity. }
  unfold manage_orders, seq_ at 1 2, get.
  unfold close_part, must_close.
  destruct ((pos st =? 1) && negb (signal =? 1)) eqn:B1;
    [|destruct ((pos st =? -1) && negb (signal =? -1)) eqn:B2]; cbn [orb].
  - rewrite close_position_spec.
    destruct (a_order_close a) as [[]|e]; [|reflexivity].
    unfold seq_. apply Hopen.
  - rewrite close_position_spec.
    destruct (a_order_close a) as [[]|e]; [|reflexivity].
    unfold seq_. apply Hopen.
  - unfold ret, seq_. rewrite app_nil_r. apply Hopen.
Qed.

(** A pass of the loop in full. *)
Lemma trade_iteration_run (st : live_state) :
  trade_iteration spread ea mail a st =
    match a_bid a, a_ask a with
    | Ok bid, Ok ask =>
        if moved st bid ask then
          let st1 := with_quotes st bid ask in
          match a_history_time a with
          | Ok history_time =>
              if bool_decide (Some history_time = pre_history_time st)
              then report_positions a st1 []
              else
                let st2 := with_candle st1 history_time in
                match a_signal a with
                | Ok signal =>
                    match manage_orders spread ea mail a bid ask signal
                            st2 [] with
                    | (Ok _, st3, tr) => report_positions a st3 tr
                    | (Err _, st3, tr) => (st3, tr ++ [LineDown])
                    end
                | Err _ => (st2, [LineDown])
                end
          | Err _ => (st1, [LineDown])
          end
        else (st, [])
    | _, _ => (st, [LineDown])
    end.
Proof using Type.
  unfold trade_iteration, trade_body, moved, report_positions.
  unfold seq_ at 1. unfold call at 1.
  destruct (a_bid a) as [bid|e]; [|reflexivity].
  unfold seq_ at 1. unfold call at 1.
  destruct (a_ask a) as [ask|e]; [|reflexivity].
  unfold seq_ at 1. unfold get at 1. unfold when at 1.
  destruct (Qabs_ge (bid - pre_bid st) eps
            || Qabs_ge (ask - pre_ask st) eps); [|reflexivity].
  unfold seq_ at 1 2. unfold put at 1. unfold call at 1.
  destruct (a_history_time a) as [ht|e]; [|reflexivity].
  unfold seq_ at 1 2. unfold get at 1. unfold when at 1.
  cbn [pre_history_time with_quotes].
  destruct (bool_decide (Some ht = pre_history_time st)); cbn [negb].
  - unfold ret, seq_, call, emit.
    now destruct (a_positions a) as [[]|e].
  - unfold seq_ at 1 2 3. unfold put at 1. unfold call at 1.
    destruct (a_signal a) as [signal|e]; [|reflexivity].
    match goal with
    | |- context [manage_orders _ _ _ _ _ _ _ ?s0 _] =>
        change s0 with (with_candle (with_quotes st bid ask) ht)
    end.
    destruct (manage_orders spread ea mail a bid ask signal
                (with_candle (with_quotes st bid ask) ht) [])
      as [[[[]|e] st3] tr]; [|reflexivity].
    unfold seq_, call, emit.
    now destruct (a_positions a) as [[]|e].
Qed.
End TradeRuns.

Lemma not_moved_same (st : live_state) (bid ask : Q) :
  moved (with_quotes st bid ask) bid ask = false.
Proof.
  unfold moved, Qabs_ge, with_quotes. cbn [pre_bid pre_ask].
  assert (forall x : Q, Qle_bool eps (Qabs (x - x)) = false) as H.
  { intros x. destruct (Qle_bool eps (Qabs (x - x))) eqn:E; [|reflexivity].
    apply Qle_bool_iff in E. exfalso.
    assert (Qabs (x - x) == 0)%Q as Z0.
    { assert (x - x == 0)%Q as -> by ring. reflexivity. }
    rewrite Z0 in E. unfold eps in E. revert E. apply Qlt_not_le.
    reflexivity. }
  now rewrite !H.
Qed.

(** X14.  The quotes of a tick are stored before the candles are
    requested.  When that request raises, the pass ends with the line
    reported as down and the quotes stored; a later pass that gets the same
    quotes does nothing at all, so the request is not made again before the
    price has moved. *)
Theorem failed_history_consumes_tick (spread : Q) (ea mail : Z)
    (a a' : answers) (st : live_state) (bid ask : Q) (e : error) :
  a_bid a = Ok bid -> a_ask a = Ok ask -> moved st bid ask = true ->
  a_history_time a = Err e ->
  trade_iteration spread ea mail a st = (with_quotes st bid ask, [LineDown]) /\
  (a_bid a' = Ok bid -> a_ask a' = Ok ask ->
   trade_iteration spread ea mail a' (with_quotes st bid ask)
     = (with_quotes st bid ask, [])).
Proof.
  intros Hb Ha Hm Hh. split.
  - rewrite trade_iteration_run, Hb, Ha, Hm, Hh. reflexivity.
  - intros Hb' Ha'. rewrite trade_iteration_run, Hb', Ha', not_moved_same.
    reflexivity.
Qed.

Lemma failed_history_consumes_tick_witness :
  let a := {| a_bid := Ok (1 # 1); a_ask := Ok (11 # 10);
              a_history_time := Err LoadError; a_signal := Ok 1;
              a_order_close := Ok tt; a_order_send := Ok 7;
              a_positions := Ok tt |} in
  let a' := {| a_bid := Ok (1 # 1); a_ask := Ok (11 # 10);
               a_history_time := Ok 60; a_signal := Ok 1;
               a_order_close := Ok tt; a_order_send := Ok 7;
               a_positions := Ok tt |} in
  snd (trade_iteration 1 0 0 a trade_init) = [LineDown] /\
  snd (trade_iteration 1 0 0 a'
         (fst (trade_iteration 1 0 0 a trade_init))) = [].
Proof.
  intros a a'.
  destruct (failed_history_consumes_tick 1 0 0 a a' trade_init (1 # 1)
              (11 # 10) LoadError) as [H1 H2]; try reflexivity.
  rewrite H1. split; [reflexivity|].
  cbn [fst]. rewrite H2 by reflexivity. reflexivity.
Defined.

Lemma replay_app (l1 l2 : list event) : forall held,
  replay held (l1 ++ l2) =
    match replay held l1 with
    | Some held' => replay held' l2
    | None => None
    end.
Proof.
  induction l1 as [|ev l1 IH]; intros held; [reflexivity|].
  cbn [app replay].
  destruct ev as [t|s t|v| | |]; try apply IH.
  - destruct held as [t'|]; [|reflexivity].
    destruct (t =? t'); [apply IH | reflexivity].
  - destruct held; [reflexivity | apply IH].
Qed.

Lemma replay_notifications (ea mail signal : Z) (held : option Z) :
  replay held (notifications ea mail signal) = Some held.
Proof.
  unfold notifications. destruct (ea =? 1), (mail =? 1); reflexivity.
Qed.

Lemma must_close_held (st : live_state) (signal : Z) :
  must_close st signal = true ->
  held_ticket st = Some (ticket st) /\ (pos st = 1 \/ pos st = -1).
Proof.
  unfold must_close, held_ticket. intros M.
  destruct (Z.eqb_spec (pos st) 1) as [E|_].
  - rewrite E. cbn. auto.
  - destruct (Z.eqb_spec (pos st) (-1)) as [E|_]; [|discriminate].
    rewrite E. cbn. auto.
Qed.

Section CandleFacts.
Variable spread : Q.
Variables ea mail : Z.
Variable a : answers.

(** What the order management leaves behind, whatever the broker
    answers: the candle is kept, the position the loop believes to hold
    is the one the orders of the trace lead to, and it is flat, long or
    short. *)
Lemma manage_orders_keeps (bid ask : Q) (signal : Z) (st : live_state) :
  (pos st = 0 \/ pos st = 1 \/ pos st = -1) ->
  let r := manage_orders spread ea mail a bid ask signal st [] in
  pre_history_time (snd (fst r)) = pre_history_time st /\
  replay (held_ticket st) (snd r) = Some (held_ticket (snd (fst r))) /\
  (pos (snd (fst r)) = 0 \/ pos (snd (fst r)) = 1 \/
   pos (snd (fst r)) = -1).
Proof using Type.
  intros Hp. cbv zeta. rewrite manage_orders_run.
  assert (forall st1 tr1,
    replay (held_ticket st) tr1 = Some (held_ticket st1) ->
    pre_history_time st1 = pre_history_time st ->
    (pos st1 = 0 \/ pos st1 = 1 \/ pos st1 = -1) ->
    let r :=
      if (pos st1 =? 0) && Qle_bool (ask - bid) spread then
        match open_side signal with
        | Some s =>
            match a_order_send a with
            | Ok t =>
                (Ok tt, held_of st1 s t,
                 tr1 ++ OrderSend s t :: notifications ea mail signal)
            | Err e => (Err e, st1, tr1)
            end
        | None => (Ok tt, st1, tr1)
        end
      else (Ok tt, st1, tr1) in
    pre_history_time (snd (fst r)) = pre_history_time st /\
    replay (held_ticket st) (snd r) = Some (held_ticket (snd (fst r))) /\
    (pos (snd (fst r)) = 0 \/ pos (snd (fst r)) = 1 \/
     pos (snd (fst r)) = -1)) as Hopen.
  { intros st1 tr1 Hr Hh Hp1. cbv zeta.
    destruct (pos st1 =? 0) eqn:P0; cbn [andb]; [|now auto].
    destruct (Qle_bool (ask - bid) spread); [|now auto].
    destruct (open_side signal) as [s|]; [|now auto].
    destruct (a_order_send a) as [t|e]; [|now auto].
    cbn [fst snd held_of pre_history_time pos]. split; [exact Hh|].
    split; [|destruct s; cbn; auto].
    rewrite replay_app, Hr. unfold held_ticket at 1. rewrite P0.
    cbn [replay]. rewrite replay_notifications.
    unfold held_ticket. cbn [pos ticket]. now destruct s. }
  unfold close_part.
  destruct (must_close st signal) eqn:M.
  - destruct (a_order_close a) as [[]|e].
    + apply Hopen; [| reflexivity | now left].
      destruct (must_close_held _ _ M) as [Hh _].
      cbn [app replay]. rewrite Hh, Z.eqb_refl.
      rewrite replay_notifications. reflexivity.
    + cbn [fst snd replay]. auto.
  - apply Hopen; [reflexivity | reflexivity | exact Hp].
Qed.

(** The same for a whole pass of the loop. *)
Lemma trade_iteration_keeps (st : live_state) :
  (pos st = 0 \/ pos st = 1 \/ pos st = -1) ->
  let r := trade_iteration spread ea mail a st in
  replay (held_ticket st) (snd r) = Some (held_ticket (fst r)) /\
  (pos (fst r) = 0 \/ pos (fst r) = 1 \/ pos (fst r) = -1).
Proof using Type.
  intros Hp. cbv zeta. rewrite trade_iteration_run.
  assert (forall st1 tr1,
    replay (held_ticket st) tr1 = Some (held_ticket st1) ->
    (pos st1 = 0 \/ pos st1 = 1 \/ pos st1 = -1) ->
    replay (held_ticket st) (snd (report_positions a st1 tr1))
      = Some (held_ticket (fst (report_positions a st1 tr1))) /\
    (pos (fst (report_positions a st1 tr1)) = 0 \/
     pos (fst (report_positions a st1 tr1)) = 1 \/
     pos (fst (report_positions a st1 tr1)) = -1)) as Hrep.
  { intros st1 tr1 Hr Hp1. unfold report_positions.
    destruct (a_positions a); cbn [fst snd];
      rewrite replay_app, Hr; auto. }
  destruct (a_bid a) as [bid|e]; [|now auto].
  destruct (a_ask a) as [ask|e]; [|now auto].
  destruct (moved st bid ask); [|now auto].
  cbv zeta.
  destruct (a_history_time a) as [ht|e]; [|now auto].
  destruct (bool_decide (Some ht = pre_history_time st)).
  { apply Hrep; [reflexivity | exact Hp]. }
  destruct (a_signal a) as [signal|e]; [|now auto].
  pose proof (manage_orders_keeps bid ask signal
                (with_candle (with_quotes st bid ask) ht) Hp)
    as (_ & Hr & Hp3).
  destruct (manage_orders spread ea mail a bid ask signal
              (with_candle (with_quotes st bid ask) ht) [])
    as [[[[]|e] st3] tr]; cbn [fst snd] in Hr, Hp3.
  - apply Hrep; [exact Hr | exact Hp3].
  - cbn [fst snd]. rewrite replay_app.
    change (held_ticket (with_candle (with_quotes st bid ask) ht))
      with (held_ticket st) in Hr.
    rewrite Hr. auto.
Qed.
End CandleFacts.

(** X15.  A candle is processed in the first pass that sees it and never
    again.  It is marked as seen before the strategy is called and before
    any order is sent, so when the strategy or the close of the position
    raises in that pass, the pass ends with the line reported as down, and
    no later pass that finds the same candle sends an order: a position
    that was to be closed stays open until the next candle. *)
Theorem candle_is_processed_once (spread : Q) (ea mail : Z) (a : answers)
    (st : live_state) (bid ask : Q) (history_time : Z) :
  a_bid a = Ok bid -> a_ask a = Ok ask -> moved st bid ask = true ->
  a_history_time a = Ok history_time ->
  Some history_time <> pre_history_time st ->
  let st' := fst (trade_iteration spread ea mail a st) in
  let failed := (with_candle (with_quotes st bid ask) history_time,
                 [LineDown]) in
  pre_history_time st' = Some history_time /\
  (forall e, a_signal a = Err e ->
     trade_iteration spread ea mail a st = failed) /\
  (forall signal e,
     a_signal a = Ok signal -> must_close st signal = true ->
     a_order_close a = Err e ->
     trade_iteration spread ea mail a st = failed) /\
  (forall a', a_history_time a' = Ok history_time ->
     let r := trade_iteration spread ea mail a' st' in
     Forall no_order (snd r) /\ pos (fst r) = pos st' /\
     ticket (fst r) = ticket st' /\
     pre_history_time (fst r) = Some history_time).
Proof.
  intros Hb Ha Hm Hh Hnew st' failed.
  assert (trade_iteration spread ea mail a st =
    match a_signal a with
    | Ok signal =>
        match manage_orders spread ea mail a bid ask signal
                (with_candle (with_quotes st bid ask) history_time) [] with
        | (Ok _, st3, tr) => report_positions a st3 tr
        | (Err _, st3, tr) => (st3, tr ++ [LineDown])
        end
    | Err _ => (with_candle (with_quotes st bid ask) history_time, [LineDown])
    end) as Hrun.
  { rewrite trade_iteration_run, Hb, Ha, Hm, Hh.
    rewrite bool_decide_eq_false_2 by exact Hnew. reflexivity. }
  assert (pre_history_time st' = Some history_time) as Hseen.
  { subst st'. rewrite Hrun.
    destruct (a_signal a) as [signal|e]; [|reflexivity].
    rewrite manage_orders_run.
    destruct (must_close _ signal);
      [destruct (a_order_close a) as [[]|e]; [|reflexivity]|];
      cbv zeta;
      (destruct (_ && _); [|unfold report_positions;
                             now destruct (a_positions a)]);
      (destruct (open_side signal); [|unfold report_positions;
                                      now destruct (a_positions a)]);
      (destruct (a_order_send a); [|reflexivity]);
      unfold report_positions; now destruct (a_positions a). }
  split; [exact Hseen|]. split; [|split].
  - intros e He. rewrite Hrun, He. reflexivity.
  - intros signal e Hs Hc He. rewrite Hrun, Hs, manage_orders_run.
    change (must_close (with_candle (with_quotes st bid ask) history_time)
              signal) with (must_close st signal).
    rewrite Hc, He. reflexivity.
  - intros a' Hh' r. subst r. rewrite trade_iteration_run.
    assert (Forall no_order [LineDown]) as HL by (repeat constructor).
    assert (Forall no_order [Snapshot]) as HS by (repeat constructor).
    destruct (a_bid a') as [bid'|e]; [|now auto].
    destruct (a_ask a') as [ask'|e]; [|now auto].
    destruct (moved st' bid' ask'); [|now auto].
    rewrite Hh'. rewrite bool_decide_eq_true_2 by now rewrite Hseen.
    unfold report_positions.
    destruct (a_positions a'); cbn [fst snd app with_quotes pos ticket
                                      pre_history_time]; auto.
Qed.

Lemma candle_is_processed_once_witness :
  let a := {| a_bid := Ok (1 # 1); a_ask := Ok (11 # 10);
              a_history_time := Ok 60; a_signal := Ok 0;
              a_order_close := Err LoadError; a_order_send := Ok 7;
              a_positions := Ok tt |} in
  let a' := {| a_bid := Ok (2 # 1); a_ask := Ok (21 # 10);
               a_history_time := Ok 60; a_signal := Ok 0;
               a_order_close := Ok tt; a_order_send := Ok 7;
               a_positions := Ok tt |} in
  let st := {| pre_bid := 0; pre_ask := 0; pre_history_time := Some 0;
               ticket := 5; pos := 1 |} in
  snd (trade_iteration 1 0 0 a st) = [LineDown] /\
  pos (fst (trade_iteration 1 0 0 a'
              (fst (trade_iteration 1 0 0 a st)))) = 1.
Proof.
  intros a a' st.
  destruct (candle_is_processed_once 1 0 0 a st (1 # 1) (11 # 10) 60)
    as (_ & _ & H2 & H3); try reflexivity; [discriminate|].
  split.
  - rewrite (H2 0 LoadError); reflexivity.
  - destruct (H3 a' eq_refl) as (_ & -> & _).
    rewrite (H2 0 LoadError); reflexivity.
Defined.

(** X16.  Through any number of passes, whatever the broker and the
    strategy answer, the loop sends an open only while it believes to be
    flat and a close only for the ticket of the open sent last, and the
    position it believes to hold is the one these orders lead to: none,
    long or short (the writing of the EA file and the sending of the mail
    being taken not to raise). *)
Theorem trade_orders_alternate (spread : Q) (ea mail : Z)
    (feed : list answers) :
  let r := trade spread ea mail feed in
  replay None (snd r) = Some (held_ticket (fst r)) /\
  (pos (fst r) = 0 \/ pos (fst r) = 1 \/ pos (fst r) = -1).
Proof.
  cbv zeta. unfold trade.
  assert (forall acc : live_state * list event,
    replay None (snd acc) = Some (held_ticket (fst acc)) /\
    (pos (fst acc) = 0 \/ pos (fst acc) = 1 \/ pos (fst acc) = -1) ->
    let r :=
      fold_left
        (fun acc a =>
           let '(st, tr) := trade_iteration spread ea mail a (fst acc) in
           (st, snd acc ++ tr))
        feed acc in
    replay None (snd r) = Some (held_ticket (fst r)) /\
    (pos (fst r) = 0 \/ pos (fst r) = 1 \/ pos (fst r) = -1)) as H.
  { induction feed as [|a feed IH]; intros acc Hacc; [exact Hacc|].
    cbn [fold_left]. apply IH.
    destruct Hacc as [Hr Hp].
    pose proof (trade_iteration_keeps spread ea mail a (fst acc) Hp)
      as [Hr' Hp'].
    destruct (trade_iteration spread ea mail a (fst acc)) as [st' tr'].
    cbn [fst snd] in *. split; [|exact Hp'].
    now rewrite replay_app, Hr. }
  apply H. cbn. auto.
Qed.

(** ** The report of the walk-forward test *)



(** ** A signal that never trades *)

(** A value that is 0 or missing. *)
Lemma zero_or_nan_fmul (x y : float64) :
  y = Num 0 \/ y = NaN -> fmul x y = Num 0 \/ fmul x y = NaN.
Proof.
  intros [-> | ->]; [|right; apply fmul_NaN_r].
  destruct x as [q| | |]; cbn; auto.
  left. f_equal. apply Qred_zero. ring.
Qed.

Lemma zero_or_nan_fsub (x y : float64) :
  x = Num 0 \/ x = NaN -> y = Num 0 \/ y = NaN ->
  fsub x y = Num 0 \/ fsub x y = NaN.
Proof. intros [-> | ->] [-> | ->]; cbn; auto. Qed.

Lemma zero_or_nan_fdiv (x y : float64) :
  x = Num 0 \/ x = NaN -> fdiv x y = Num 0 \/ fdiv x y = NaN.
Proof.
  intros [-> | ->]; [|right; now destruct y].
  destruct y as [q| | |]; cbn; auto.
  destruct (Qeq_bool q 0); cbn; auto.
Qed.

Lemma turnover_zero (prev : option Z) : turnover 0 prev = 0.
Proof. now destruct prev. Qed.

Lemma cost_at_flat (c : Q) (signal : Series Z) (t : Z) :
  Forall (fun v => v = 0) (values signal) ->
  cost_at c signal t = Num 0 \/ cost_at c signal t = NaN.
Proof.
  intros H. unfold cost_at.
  destruct (loc signal t) as [s|] eqn:E; [|now right].
  assert (s = 0) as ->.
  { clear -H E. induction signal as [|[k v] r IH]; [discriminate|].
    cbn in E. inversion H as [|? ? Hv Hr]; subst.
    destruct (k =? t); [now injection E as <- | now apply IH]. }
  unfold cost_term. destruct (signal_prev signal t); [|now right].
  rewrite turnover_zero. left. cbn. f_equal. apply Qred_zero. ring.
Qed.

Lemma signal_at_flat (signal : Series Z) (t : Z) :
  Forall (fun v => v = 0) (values signal) ->
  signal_at signal t = Num 0 \/ signal_at signal t = NaN.
Proof.
  intros H. unfold signal_at.
  destruct (loc signal t) as [s|] eqn:E; [|now right].
  assert (s = 0) as ->; [|now left].
  clear -H E. induction signal as [|[k v] r IH]; [discriminate|].
  cbn in E. inversion H as [|? ? Hv Hr]; subst.
  destruct (k =? t); [now injection E as <- | now apply IH].
Qed.

Lemma reindex_astype_float (signal : Series Z) (t : Z) :
  reindex (astype_float signal) t = signal_at signal t.
Proof.
  unfold reindex, astype_float, signal_at. rewrite loc_smap.
  now destruct (loc signal t).
Qed.

Lemma Zsum_zero (l : list Z) : Forall (fun v => v = 0) l -> Zsum l = 0.
Proof.
  unfold Zsum. induction 1 as [|x l -> _ IH]; [reflexivity | exact IH].
Qed.

Lemma Forall_slice {A} (P : A -> Prop) (start end_ : Z) (s : Series A) :
  Forall P (values s) -> Forall P (values (slice start end_ s)).
Proof.
  unfold values, slice. intros H.
  induction s as [|[k v] r IH]; [constructor|].
  inversion H as [|? ? Hv Hr]; subst. cbn [List.filter fst].
  destruct ((start <=? k) && (k <=? end_)); [|now apply IH].
  cbn [map snd]. constructor; [exact Hv | now apply IH].
Qed.

(** X18.  A signal that is 0 on every bar earns and costs nothing,
    whatever the prices and the spread are: every return of [calc_ret] is
    0, also where a price is 0, missing or infinite, and [calc_trades]
    counts no trade; so the maximal drawdown and its duration are 0 on any
    window that holds a bar. *)
Theorem flat_signal_earns_nothing (op : Series float64) (signal : Series Z)
    (c : Q) (start end_ timeframe : Z) :
  Forall (fun v => v = 0) (values signal) ->
  let ret := calc_ret op signal (Num c) start end_ in
  Forall (fun x => x = Num 0) (values ret) /\
  calc_trades signal start end_ = 0 /\
  (ret <> [] -> calc_drawdowns ret = Ok (Num 0)) /\
  (ret <> [] -> 0 < timeframe -> calc_durations ret timeframe = Ok 0).
Proof.
  intros Hflat ret.
  assert (Forall (fun x => x = Num 0) (values ret)) as Hret.
  { subst ret. unfold calc_ret.
    apply Forall_slice.
    set (raw := falign fdiv _ op).
    assert (forall t, reindex raw t = Num 0 \/ reindex raw t = NaN) as Hraw.
    { intros t. unfold raw.
      rewrite !reindex_falign by reflexivity.
      apply zero_or_nan_fdiv. apply zero_or_nan_fsub.
      - apply zero_or_nan_fmul. rewrite reindex_astype_float.
        now apply signal_at_flat.
      - rewrite reindex_cost. now apply cost_at_flat. }
    unfold raw at 1. rewrite falign_tabulate by reflexivity. fold raw.
    unfold replace_inf, fillna. rewrite !values_smap, values_tabulate.
    rewrite !map_map.
    apply List.Forall_forall. intros x Hx.
    apply in_map_iff in Hx. destruct Hx as (t & <- & _).
    destruct (Hraw t) as [-> | ->]; reflexivity. }
  assert (calc_trades signal start end_ = 0) as Htrades.
  { unfold calc_trades. apply Zsum_zero. apply Forall_slice.
    destruct (calc_trades_trade_tabulate signal) as (G & HG1 & HG).
    rewrite HG1, values_tabulate.
    apply List.Forall_forall. intros x Hx.
    apply in_map_iff in Hx. destruct Hx as (t & <- & Hin).
    pose proof (HG t) as Ht. rewrite calc_trades_trade_loc in Ht.
    rewrite (mem_In _ _ Hin) in Ht.
    destruct (loc signal t) as [s|] eqn:E; [|discriminate].
    cbn in Ht. injection Ht as <-.
    assert (s = 0) as ->; [|apply turnover_zero].
    clear -Hflat E. induction signal as [|[k v] r IH]; [discriminate|].
    cbn in E. inversion Hflat as [|? ? Hv Hr]; subst.
    destruct (k =? t); [now injection E as <- | now apply IH]. }
  split; [exact Hret|]. split; [exact Htrades|].
  assert (forall i, (i < length (cum_ret ret))%nat ->
            nth i (cum_ret ret) NaN = Num 0) as Hcum.
  { unfold cum_ret, cumprod.
    assert (forall l acc, Forall (fun x => x = Num 0) l -> acc = Num 1 ->
      forall i, (i < length l)%nat ->
        nth i (map (fun x => fsub x (Num 1))
                 (cumprod_from acc (map (fun x => fadd x (Num 1)) l))) NaN
        = Num 0) as H.
    { induction l as [|x l IH]; intros acc Hl -> i Hi; [cbn in Hi; lia|].
      inversion Hl as [|? ? -> Hr]; subst. cbn [map cumprod_from fadd is_nan].
      change (fmul (Num 1) (Num (Qred (0 + 1)))) with (Num 1).
      cbn [map]. destruct i as [|i]; [reflexivity|].
      cbn [nth]. apply IH; [exact Hr | reflexivity | cbn in Hi; lia]. }
    intros i Hi. apply H; [exact Hret | reflexivity |].
    rewrite length_map in Hi.
    assert (forall l acc, length (cumprod_from acc l) = length l) as L.
    { induction l as [|x r IH]; intros acc; [reflexivity|].
      cbn. destruct (is_nan x); cbn; now rewrite IH. }
    rewrite L, length_map in Hi. exact Hi. }
  assert (forall i, (i < length (cum_ret ret))%nat ->
            drawdown (cum_ret ret) i = Num 0) as Hdd.
  { assert (forall i, (i < length (cum_ret ret))%nat ->
              high_watermark (cum_ret ret) i = Num 0) as Hhw.
    { induction i as [|i IH]; intros Hi; cbn [high_watermark]; unfold cell.
      - now apply Hcum.
      - rewrite IH by lia. rewrite Hcum by exact Hi. reflexivity. }
    intros i Hi. destruct i as [|i]; cbn [drawdown]; unfold cell;
      rewrite Hcum, Hhw by exact Hi; reflexivity. }
  assert (forall i, (i < length (cum_ret ret))%nat ->
            duration (cum_ret ret) i = Num 0) as Hdu.
  { intros i Hi. destruct i as [|i]; cbn [duration].
    - now apply Hdd.
    - now rewrite Hdd by exact Hi. }
  split.
  - intros Hne. unfold calc_drawdowns.
    destruct (length (cum_ret ret)) as [|n] eqn:El.
    { rewrite cum_ret_length in El. destruct ret; [contradiction | discriminate]. }
    f_equal. apply running_max_const. intros j Hj. apply Hdd. lia.
  - intros Hne Htf.
    destruct (length (cum_ret ret)) as [|n] eqn:El.
    { rewrite cum_ret_length in El. destruct ret; [contradiction | discriminate]. }
    rewrite (calc_durations_value ret timeframe n 0 Htf El).
    + f_equal.
    + apply running_max_const. intros j Hj. apply Hdu. lia.
Qed.

Lemma flat_signal_earns_nothing_witness :
  let op : Series float64 := [(0, Num 5); (60, Num 0); (120, PInf)] in
  let signal : Series Z := [(0, 0); (60, 0); (120, 0)] in
  values (calc_ret op signal (Num (1 # 100)) 0 120) = [Num 0; Num 0; Num 0] /\
  calc_trades signal 0 120 = 0.
Proof.
  intros op signal.
  destruct (flat_signal_earns_nothing op signal (1 # 100) 0 120 60)
    as (H1 & H2 & _).
  - repeat constructor.
  - split; [|exact H2].
    remember (values (calc_ret op signal (Num (1 # 100)) 0 120)) as v eqn:E.
    assert (length v = 3%nat) as L by (subst v; reflexivity).
    destruct v as [|x0 [|x1 [|x2 [|? ?]]]]; try discriminate L.
    inversion H1 as [|? ? -> H1']. inversion H1' as [|? ? -> H1''].
    inversion H1'' as [|? ? -> _]. reflexivity.
Defined.

(** ** The annual rate and the wealth curve *)

Lemma last_cons {A} (a d : A) (l : list A) :
  List.last (a :: l) d = List.last l a.
Proof.
  revert a d. induction l as [|x l IH]; intros a d; [reflexivity|].
  change (List.last (a :: x :: l) d) with (List.last (x :: l) d).
  now rewrite !IH.
Qed.

Lemma last_default {A} (l : list A) (d d' : A) :
  l <> [] -> List.last l d = List.last l d'.
Proof.
  destruct l as [|x l]; [contradiction|]. intros _. now rewrite !last_cons.
Qed.

Lemma cumprod_from_last (l : list float64) : forall acc,
  no_nan l -> List.last (cumprod_from acc l) acc = fold_left fmul l acc.
Proof.
  induction l as [|x l IH]; intros acc Hl; [reflexivity|].
  inversion Hl as [|? ? Hx Hr]; subst. cbn [cumprod_from fold_left].
  rewrite Hx. cbv zeta. rewrite last_cons. now apply IH.
Qed.

Lemma fadd_one_no_nan (l : list float64) :
  no_nan l -> no_nan (map (fun x => fadd x (Num 1)) l).
Proof.
  unfold no_nan. induction 1 as [|x l Hx _ IH]; cbn; constructor;
    [now destruct x | exact IH].
Qed.

Lemma dropna_no_nan (l : list float64) : no_nan l -> dropna l = l.
Proof.
  unfold no_nan, dropna. induction 1 as [|x l Hx _ IH]; [reflexivity|].
  cbn. rewrite Hx. cbn. now rewrite IH.
Qed.

Lemma last_map {A B} (f : A -> B) (l : list A) (d : A) :
  List.last (map f l) (f d) = f (List.last l d).
Proof.
  induction l as [|x l IH]; [reflexivity|].
  destruct l as [|y l]; [reflexivity|]. exact IH.
Qed.

(** X19.  For a return series without missing values and with at least one
    bar, the rate of [calc_apr] is the last value of the cumulative return
    from which [calc_drawdowns] and [calc_durations] compute the wealth
    curve, divided by the length of the window in years. *)
Theorem calc_apr_is_final_wealth (ret : Series float64) (start end_ : Z) :
  no_nan (values ret) -> ret <> [] ->
  calc_apr ret start end_ =
    fdiv (List.last (cum_ret ret) NaN) (Num (years start end_)).
Proof.
  intros Hn Hne. unfold calc_apr, cum_ret, cumprod, series_prod.
  rewrite values_smap.
  rewrite dropna_no_nan by now apply fadd_one_no_nan.
  f_equal.
  rewrite (last_default _ NaN ((fun x => fsub x (Num 1)) (Num 1))).
  - rewrite (last_map (fun x => fsub x (Num 1)) _ (Num 1)).
    rewrite cumprod_from_last by now apply fadd_one_no_nan.
    reflexivity.
  - destruct ret as [|[k v] r]; [contradiction|]. cbn.
    destruct (is_nan (fadd v (Num 1))); discriminate.
Qed.

Lemma calc_apr_is_final_wealth_witness :
  let ret : Series float64 := [(0, Num (1 # 10)); (60, Num (-1 # 10))] in
  calc_apr ret 0 525600 = Num (-1 # 100) /\
  List.last (cum_ret ret) NaN = Num (-1 # 100).
Proof.
  intros ret.
  rewrite (calc_apr_is_final_wealth ret 0 525600);
    [split; reflexivity | repeat constructor | discriminate].
Defined.

(** ** Turnover *)

Lemma turnover_opp (s : Z) (prev : option Z) :
  turnover (- s) (option_map Z.opp prev) = turnover s prev.
Proof.
  destruct prev as [p|]; [|reflexivity]. cbn [option_map turnover].
  destruct (Z.ltb_spec 0 (- s)), (Z.ltb_spec (- p) (- s)),
    (Z.ltb_spec (- s) 0), (Z.ltb_spec (- s) (- p)),
    (Z.ltb_spec 0 s), (Z.ltb_spec p s), (Z.ltb_spec s 0), (Z.ltb_spec s p);
    cbn [andb]; lia.
Qed.

Lemma signal_prev_opp (signal : Series Z) (t : Z) :
  signal_prev (smap Z.opp signal) t = option_map Z.opp (signal_prev signal t).
Proof.
  unfold signal_prev, prev_row.
  change (@None Z) with (option_map Z.opp None) at 1.
  rewrite prev_from_smap.
  now destruct (prev_from None signal t) as [[p|]|].
Qed.

Lemma Zsum_cons (x : Z) (l : list Z) : Zsum (x :: l) = x + Zsum l.
Proof.
  unfold Zsum. cbn [fold_left].
  assert (forall l a b, fold_left Z.add l (a + b) = a + fold_left Z.add l b)
    as H.
  { clear. induction l as [|y l IH]; intros a b; [reflexivity|].
    cbn [fold_left]. rewrite <- Z.add_assoc. apply IH. }
  rewrite <- (H l x 0). f_equal. lia.
Qed.

(** X20.  The turnover does not depend on the direction of the positions:
    the signal with every position reversed has the same count of trades
    in every window, and the same cost on every bar. *)
Theorem reversed_signal_same_turnover (signal : Series Z) (c : Q)
    (start end_ : Z) :
  calc_trades (smap Z.opp signal) start end_ = calc_trades signal start end_
  /\ calc_ret_cost (Num c) (smap Z.opp signal) = calc_ret_cost (Num c) signal.
Proof.
  assert (forall t, loc (smap Z.opp signal) t = option_map Z.opp (loc signal t))
    as Hloc by (intros; apply loc_smap).
  split.
  - unfold calc_trades. f_equal. f_equal. f_equal.
    destruct (calc_trades_trade_tabulate signal) as (G & HG1 & HG).
    destruct (calc_trades_trade_tabulate (smap Z.opp signal))
      as (G' & HG1' & HG').
    rewrite HG1, HG1', index_smap.
    apply map_ext_in. intros t Hin. f_equal.
    pose proof (HG t) as Ht. pose proof (HG' t) as Ht'.
    rewrite calc_trades_trade_loc in Ht, Ht'.
    rewrite index_smap in Ht'. rewrite (mem_In _ _ Hin) in Ht, Ht'.
    rewrite Hloc, signal_prev_opp in Ht'.
    destruct (loc signal t) as [s|]; [|discriminate].
    cbn [option_map] in Ht, Ht'. rewrite turnover_opp in Ht'. congruence.
  - rewrite !calc_ret_cost_tabulate, index_smap.
    apply map_ext. intros t. f_equal.
    unfold cost_at. rewrite Hloc, signal_prev_opp.
    destruct (loc signal t) as [s|]; [|reflexivity]. cbn [option_map].
    unfold cost_term.
    destruct (signal_prev signal t) as [p|]; [|reflexivity].
    cbn [option_map].
    pose proof (turnover_opp s (Some p)) as E. cbn [option_map] in E.
    now rewrite E.
Qed.

(** X21.  The trades of a window are the trades of its parts: for
    [start <= mid + 1 <= end + 1] the count over [start, end] is the count
    over [start, mid] plus the count over [mid + 1, end]. *)
Theorem calc_trades_adjacent_windows (signal : Series Z)
    (start mid end_ : Z) :
  start <= mid + 1 -> mid <= end_ ->
  calc_trades signal start end_ =
    calc_trades signal start mid + calc_trades signal (mid + 1) end_.
Proof.
  intros H1 H2. unfold calc_trades.
  generalize (calc_trades_trade signal). intros s.
  unfold slice, values.
  induction s as [|[k v] r IH]; [reflexivity|].
  cbn [List.filter fst].
  destruct (Z.leb_spec start k), (Z.leb_spec k end_), (Z.leb_spec k mid),
    (Z.leb_spec (mid + 1) k); cbn [andb map snd];
    rewrite ?Zsum_cons, IH; lia.
Qed.

Lemma calc_trades_adjacent_windows_witness :
  let signal : Series Z := [(0, 0); (60, 1); (120, 0); (180, -2)] in
  calc_trades signal 0 180 = 3 /\
  calc_trades signal 0 60 + calc_trades signal 61 180 = 3.
Proof.
  intros signal.
  pose proof (calc_trades_adjacent_windows signal 0 60 180 ltac:(lia)
                ltac:(lia)) as H.
  split; [reflexivity|].
  transitivity (calc_trades signal 0 180); [symmetry; exact H | reflexivity].
Defined.

(** ** The optimization over degenerate ranges *)

Lemma axis_error (r : Q * Q * Q) (e : error) :
  axis r = Err e -> e = ZeroDivisionError.
Proof.
  destruct r as [[start stop] step]. unfold axis, py_div, bind.
  destruct (Qeq_bool step 0); [now intros [= <-] | discriminate].
Qed.

Lemma axis_zero_step (start stop step : Q) :
  (step == 0)%Q -> axis (start, stop, step) = Err ZeroDivisionError.
Proof.
  intros H. unfold axis, py_div, bind.
  now rewrite (proj2 (Qeq_bool_iff step 0) H).
Qed.

Lemma axis_ok (start stop step : Q) :
  ~ (step == 0)%Q ->
  axis (start, stop, step) =
    Ok (map (fun k => Qred (start + inject_Z (Z.of_nat k) * step))
            (seq 0 (Z.to_nat (Qceiling (Qred ((stop - start) / step)))))).
Proof.
  intros H. unfold axis, py_div, bind.
  now rewrite (proj2 (Qeq_bool_false step 0) H).
Qed.

Lemma map_result_axis_error (rranges : list (Q * Q * Q)) :
  Exists (fun r => (snd r == 0)%Q) rranges ->
  map_result axis rranges = Err ZeroDivisionError.
Proof.
  induction rranges as [|r rs IH]; intros H; [inversion H|].
  cbn [map_result]. destruct (axis r) as [ax|e] eqn:E.
  - cbn [bind]. rewrite IH; [reflexivity|].
    inversion H as [? ? Hr|? ? Hr]; subst; [|exact Hr].
    destruct r as [[start stop] step]. cbn in Hr.
    rewrite (axis_zero_step _ _ _ Hr) in E. discriminate.
  - cbn [bind]. now rewrite (axis_error _ _ E).
Qed.

Lemma cartesian_empty (axes : list (list Q)) :
  In [] axes -> cartesian axes = [].
Proof.
  induction axes as [|ax axes IH]; intros H; [contradiction|].
  cbn [cartesian]. destruct H as [-> | H]; [reflexivity|].
  rewrite (IH H). induction ax as [|x ax IHx]; [reflexivity | exact IHx].
Qed.

Lemma map_result_axis_ok (rranges : list (Q * Q * Q)) :
  Forall (fun r => ~ (snd r == 0)%Q) rranges ->
  exists axes,
    map_result axis rranges = Ok axes /\
    forall start stop step,
      In (start, stop, step) rranges ->
      In (map (fun k => Qred (start + inject_Z (Z.of_nat k) * step))
              (seq 0 (Z.to_nat (Qceiling (Qred ((stop - start) / step))))))
         axes.
Proof.
  induction 1 as [|[[start stop] step] rs Hr _ IH].
  - exists []. split; [reflexivity | contradiction].
  - destruct IH as (axes & E & Hin). cbn in Hr.
    eexists. cbn [map_result]. rewrite (axis_ok _ _ _ Hr), E. cbn [bind].
    split; [reflexivity|].
    intros a b c [[= <- <- <-] | H]; [now left | right; now apply Hin].
Qed.

(** X22.  An optimizing back-test over degenerate ranges raises before the
    strategy is evaluated once: [ZeroDivisionError] when the step of a
    range is 0, and [ValueError] when no step is 0 and a range holds no
    point because its stop is not beyond its start.  Without optimization
    the ranges are not looked at. *)
Theorem backtest_degenerate_ranges (sqrtQ : Q -> Q)
    (calc_signal : list Q -> Z -> Z -> Z -> Z -> Series Z)
    (op : Series float64) (timeframe : Z) (spread : float64)
    (parameter : list Q) (rranges : list (Q * Q * Q))
    (min_trade start end_ : Z) :
  let test := backtest sqrtQ calc_signal op timeframe spread parameter in
  (Exists (fun r => (snd r == 0)%Q) rranges ->
   test rranges 1 min_trade start end_ = Err ZeroDivisionError) /\
  (Forall (fun r => ~ (snd r == 0)%Q) rranges ->
   Exists (fun r => let '(first, stop, step) := r in
                    ((stop - first) / step <= 0)%Q) rranges ->
   test rranges 1 min_trade start end_ = Err ValueError) /\
  (forall rranges',
     test rranges 0 min_trade start end_
       = test rranges' 0 min_trade start end_).
Proof.
  intros test. subst test. unfold backtest. cbn [Z.eqb Pos.eqb].
  split; [|split].
  - intros H. unfold brute, mgrid.
    now rewrite (map_result_axis_error _ H).
  - intros Hstep Hempty. unfold brute, mgrid.
    destruct (map_result_axis_ok _ Hstep) as (axes & -> & Hin).
    cbn [bind]. rewrite cartesian_empty; [reflexivity|].
    apply List.Exists_exists in Hempty.
    destruct Hempty as ([[first stop] step] & Hr & Hle).
    specialize (Hin _ _ _ Hr).
    assert (Z.to_nat (Qceiling (Qred ((stop - first) / step))) = 0%nat)
      as Z0.
    { assert (Qceiling (Qred ((stop - first) / step)) <= 0); [|lia].
      rewrite (Qceiling_comp _ _ (Qred_correct _)).
      change 0 with (Qceiling 0). now apply Qceiling_resp_le. }
    now rewrite Z0 in Hin.
  - reflexivity.
Qed.

(** ** The strategy [long_short] *)

Lemma values_lookup_smap {A B} (f : A -> B) (s : Series A) (i : nat) :
  values (smap f s) !! i = f <$> values s !! i.
Proof. now rewrite values_smap, list_lookup_fmap. Qed.

Lemma values_lookup_zip {A B C} (f : A -> B -> C) (a : Series A)
    (b : Series B) (i : nat) :
  values (zip_series f a b) !! i =
    match values a !! i, values b !! i with
    | Some x, Some y => Some (f x y)
    | _, _ => None
    end.
Proof.
  unfold zip_series, values. unfold Series in *.
  rewrite !list_lookup_fmap, lookup_zip_with.
  destruct (a !! i) as [[ka x]|]; [|reflexivity].
  now destruct (b !! i) as [[kb y]|].
Qed.

Lemma length_smap {A B} (f : A -> B) (s : Series A) :
  length (smap f s) = length s.
Proof. unfold smap. apply length_map. Qed.

Lemma index_zip_series {A B C} (f : A -> B -> C) (a : Series A)
    (b : Series B) :
  (length a <= length b)%nat -> index (zip_series f a b) = index a.
Proof.
  unfold zip_series, index. revert b.
  induction a as [|[k x] a IH]; intros [|[k' y] b] H; cbn in H;
    try reflexivity; try lia.
  cbn. f_equal. apply IH. lia.
Qed.

Lemma length_zip_series {A B C} (f : A -> B -> C) (a : Series A)
    (b : Series B) :
  length (zip_series f a b) = (length a `min` length b)%nat.
Proof. unfold zip_series. apply length_zip_with. Qed.

Lemma length_ffill_from (s : Series float64) : forall last,
  length (ffill_from last s) = length s.
Proof.
  induction s as [|[k v] r IH]; intros last; [reflexivity|].
  cbn. f_equal. apply IH.
Qed.

Lemma index_length {A B} (a : Series A) (b : Series B) :
  index a = index b -> length a = length b.
Proof.
  intros H. apply (f_equal length) in H. unfold index in H.
  now rewrite !length_map in H.
Qed.

Lemma index_ffill_from (s : Series float64) : forall last,
  index (ffill_from last s) = index s.
Proof.
  induction s as [|[k v] r IH]; intros last; [reflexivity|].
  cbn. f_equal. apply IH.
Qed.

Lemma ffill_from_head (s : Series float64) (last : float64) :
  values (ffill_from last s) !! 0%nat =
    (fun x => if is_nan x then last else x) <$> values s !! 0%nat.
Proof. now destruct s as [|[k v] r]. Qed.

Lemma ffill_from_step (s : Series float64) : forall last i,
  values (ffill_from last s) !! S i =
    match values s !! S i, values (ffill_from last s) !! i with
    | Some x, Some p => Some (if is_nan x then p else x)
    | _, _ => None
    end.
Proof.
  induction s as [|[k v] r IH]; intros last i; [reflexivity|].
  cbn [ffill_from values map snd lookup list_lookup].
  fold (values r). fold (values (ffill_from (if is_nan v then last else v) r)).
  destruct i as [|i].
  - rewrite ffill_from_head. cbn [lookup list_lookup].
    destruct (values r !! 0%nat); reflexivity.
  - change ((v :: values r) !! S (S i)) with (values r !! S i).
    change (((if is_nan v then last else v)
             :: values (ffill_from (if is_nan v then last else v) r))
            !! S i)
      with (values (ffill_from (if is_nan v then last else v) r) !! i).
    apply IH.
Qed.

Lemma row_lookup (s : Series float64) (i : nat) :
  (i < length s)%nat -> values s !! i = Some (row s i).
Proof.
  intros H. unfold row. rewrite nth_lookup.
  destruct (lookup_lt_is_Some_2 (values s) i) as [x ->]; [|reflexivity].
  unfold values. now rewrite length_map.
Qed.

(** A position that is held on a bar: by recursion on the bars. *)
Lemma held_first (e x : nat -> bool) :
  held e x 0 <-> e 0%nat = true /\ x 0%nat = false.
Proof.
  split.
  - intros (j & Hj & He & Hx). assert (j = 0%nat) as -> by lia.
    split; [exact He | apply Hx; lia].
  - intros [He Hx]. exists 0%nat. repeat split; [lia | exact He |].
    intros k Hk. now assert (k = 0%nat) as -> by lia.
Qed.

Lemma held_next (e x : nat -> bool) (i : nat) :
  held e x (S i) <->
  x (S i) = false /\ (e (S i) = true \/ held e x i).
Proof.
  split.
  - intros (j & Hj & He & Hx). split; [apply Hx; lia|].
    destruct (decide (j = S i)) as [->|Hne]; [now left|].
    right. exists j. repeat split; [lia | exact He |].
    intros k Hk. apply Hx. lia.
  - intros [Hx [He | (j & Hj & He & Hxj)]].
    + exists (S i). repeat split; [lia | exact He |].
      intros k Hk. now assert (k = S i) as -> by lia.
    + exists j. repeat split; [lia | exact He |].
      intros k Hk. destruct (decide (k = S i)) as [->|Hne]; [exact Hx|].
      apply Hxj. lia.
Qed.

(** A position series before the forward fill: 0 on an exit, [side] on an
    entry without exit, missing elsewhere. *)
Lemma raw_position (position0 exit_ : Series Z) (side : Z)
    (e x : nat -> bool) (i : nat) :
  side <> 0 ->
  values position0 !! i = Some (if e i then side else 0) ->
  values exit_ !! i = Some (if x i then 1 else 0) ->
  values
    (mask_set (smap (fun n => n =? 1) exit_) (Num 0)
       (mask_set (smap (fun n => n =? 0) position0) NaN
          (astype_float position0))) !! i =
  Some (if x i then Num 0 else if e i then of_Z side else NaN).
Proof.
  intros Hs He Hx. unfold mask_set.
  rewrite !values_lookup_zip. unfold astype_float.
  rewrite !values_lookup_smap, He, Hx. cbn [fmap option_fmap option_map].
  destruct (x i), (e i); cbn [Z.eqb]; try reflexivity;
    destruct (Z.eqb_spec side 0); try contradiction; reflexivity.
Qed.

(** The forward fill of such a series: [side] exactly on the bars where the
    position is held, 0 or missing on the others. *)
Lemma filled_position (raw : Series float64) (side : Z)
    (e x : nat -> bool) (n : nat) :
  side <> 0 ->
  (forall i, (i < n)%nat ->
     values raw !! i =
       Some (if x i then Num 0 else if e i then of_Z side else NaN)) ->
  forall i, (i < n)%nat ->
    exists v, values (ffill raw) !! i = Some v /\
      (v = of_Z side \/ v = Num 0 \/ v = NaN) /\
      (v = of_Z side <-> held e x i) /\
      ((exists k, (k <= i)%nat /\ x k = true) -> v <> NaN).
Proof.
  intros Hs Hraw.
  assert (Hne : of_Z side <> Num 0).
  { unfold of_Z, inject_Z. intros H. injection H as H. contradiction. }
  induction i as [|i IH]; intros Hi.
  - unfold ffill. rewrite ffill_from_head, (Hraw 0%nat Hi).
    cbn [fmap option_fmap option_map]. eexists. split; [reflexivity|].
    rewrite held_first.
    assert (Hk : (exists k, (k <= 0)%nat /\ x k = true) -> x 0%nat = true).
    { intros (k & Hk & Hx). now assert (k = 0%nat) as <- by lia. }
    destruct (x 0%nat), (e 0%nat); cbn [is_nan]; unfold of_Z in *.
    + split; [auto|]. split; [|intros _ H; discriminate H].
      split; [congruence | intros [_ ?]; congruence].
    + split; [auto|]. split; [|intros _ H; discriminate H].
      split; [congruence | intros [? _]; congruence].
    + split; [auto|]. split; [|intros _ H; discriminate H]. split; auto.
    + split; [auto|]. split; [|intros H; specialize (Hk H); congruence].
      split; [congruence | intros [? _]; congruence].
  - destruct IH as (p & Hp & Hcase & Hheld & Hnan); [lia|].
    unfold ffill in *. rewrite ffill_from_step, (Hraw (S i) Hi), Hp.
    eexists. split; [reflexivity|]. rewrite held_next, <- Hheld.
    assert (Hk : (exists k, (k <= S i)%nat /\ x k = true) ->
                 x (S i) = false -> exists k, (k <= i)%nat /\ x k = true).
    { intros (k & Hk & Hx) Hxi. exists k. split; [|exact Hx].
      destruct (decide (k = S i)) as [->|Hd]; [congruence | lia]. }
    destruct (x (S i)), (e (S i)); cbn [is_nan]; unfold of_Z in *.
    + split; [auto|]. split; [|intros _ H; discriminate H].
      split; [congruence | intros [? _]; congruence].
    + split; [auto|]. split; [|intros _ H; discriminate H].
      split; [congruence | intros [? _]; congruence].
    + split; [auto|]. split; [|intros _ H; discriminate H]. split; auto.
    + split; [exact Hcase|]. split; [|intros H; apply Hnan, Hk; auto].
      split; [auto|]. intros [_ [?|?]]; [congruence | assumption].
Qed.

Lemma eqb_true_same (b : bool) : Bool.eqb b true = b.
Proof. now destruct b. Qed.

Lemma longs_exit_row (z : Series float64) (i : nat) :
  (i < length z)%nat ->
  values (times_one (smap (fun x => fge x (Num 0)) z)) !! i =
  Some (if long_exit z i then 1 else 0).
Proof.
  intros Hi. unfold times_one. rewrite !values_lookup_smap.
  now rewrite row_lookup by lia.
Qed.

Lemma shorts_exit_row (z : Series float64) (i : nat) :
  (i < length z)%nat ->
  values (times_one (smap (fun x => fle x (Num 0)) z)) !! i =
  Some (if short_exit z i then 1 else 0).
Proof.
  intros Hi. unfold times_one. rewrite !values_lookup_smap.
  now rewrite row_lookup by lia.
Qed.

(** A long position can only be held from a bar with a negative z-score,
    which is an exit of the short side; and the other way round. *)
Lemma long_entry_negative (z bw kzb kzq kbb kbq : Series float64)
    (thr f : Q) (j : nat) :
  long_entry z bw kzb kzq kbb kbq thr f j = true ->
  long_exit z j = false ->
  short_exit z j = true.
Proof.
  unfold long_entry, long_exit, short_exit. intros He Hx.
  apply andb_prop in He as [He _]. apply andb_prop in He as [He _].
  destruct (row z j) as [q| | |]; try discriminate; [|reflexivity].
  apply fle_Num. destruct (Qlt_le_dec q 0) as [Hq|Hq]; [lra|].
  apply fge_Num in Hq. congruence.
Qed.

Lemma short_entry_positive (z bw kzb kzq kbb kbq : Series float64)
    (thr f : Q) (j : nat) :
  short_entry z bw kzb kzq kbb kbq thr f j = true ->
  short_exit z j = false ->
  long_exit z j = true.
Proof.
  unfold short_entry, long_exit, short_exit. intros He Hx.
  apply andb_prop in He as [He _]. apply andb_prop in He as [He _].
  destruct (row z j) as [q| | |]; try discriminate; [|reflexivity].
  apply fge_Num. destruct (Qlt_le_dec 0 q) as [Hq|Hq]; [lra|].
  apply fle_Num in Hq. congruence.
Qed.

Lemma long_short_exclusive (z bw kzb kzq kbb kbq : Series float64)
    (thr f : Q) (i : nat) :
  held (long_entry z bw kzb kzq kbb kbq thr f) (long_exit z) i ->
  held (short_entry z bw kzb kzq kbb kbq thr f) (short_exit z) i ->
  False.
Proof.
  intros (j & Hj & He & Hx) (j' & Hj' & He' & Hx').
  apply long_entry_negative in He; [|apply Hx; lia].
  apply short_entry_positive in He'; [|apply Hx'; lia].
  destruct (le_lt_dec j j') as [Hle|Hlt].
  - specialize (Hx j' ltac:(lia)). congruence.
  - specialize (Hx' j ltac:(lia)). congruence.
Qed.

Section LongShortFacts.
Variables z bw kzb kzq kbb kbq : Series float64.
Variables thr f : Q.

Hypothesis Lbw : length bw = length z.
Hypothesis Lkzb : length kzb = length z.
Hypothesis Lkzq : length kzq = length z.
Hypothesis Lkbb : length kbb = length z.
Hypothesis Lkbq : length kbq = length z.

Lemma longs_entry_row (i : nat) :
  (i < length z)%nat ->
  values
    (times_one
       (zip_series andb
          (zip_series andb (smap (fun x => fle x (Num (- thr))) z)
             (smap (fun x => fle x (Num (- f))) bw))
          (smap (fun x => Bool.eqb x true)
             (zip_series andb
                (zip_series andb
                   (zip_series andb
                      (smap (fun x => fle x (Num (- thr))) kzb)
                      (smap (fun x => fge x (Num thr)) kzq))
                   (smap (fun x => fle x (Num (- f))) kbb))
                (smap (fun x => fge x (Num f)) kbq))))) !! i =
  Some (if long_entry z bw kzb kzq kbb kbq thr f i then 1 else 0).
Proof using Lbw Lkzb Lkzq Lkbb Lkbq.
  intros Hi. unfold times_one.
  repeat (rewrite values_lookup_smap || rewrite values_lookup_zip).
  rewrite !row_lookup by lia. cbn [fmap option_fmap option_map].
  unfold long_entry. rewrite eqb_true_same. reflexivity.
Qed.

Lemma shorts_entry_row (i : nat) :
  (i < length z)%nat ->
  values
    (smap Z.opp
       (times_one
          (zip_series andb
             (zip_series andb (smap (fun x => fge x (Num thr)) z)
                (smap (fun x => fge x (Num f)) bw))
             (smap (fun x => Bool.eqb x true)
                (zip_series andb
                   (zip_series andb
                      (zip_series andb
                         (smap (fun x => fge x (Num thr)) kzb)
                         (smap (fun x => fle x (Num (- thr))) kzq))
                      (smap (fun x => fge x (Num f)) kbb))
                   (smap (fun x => fle x (Num (- f))) kbq)))))) !! i =
  Some (if short_entry z bw kzb kzq kbb kbq thr f i then - (1) else 0).
Proof using Lbw Lkzb Lkzq Lkbb Lkbq.
  intros Hi. unfold times_one.
  repeat (rewrite values_lookup_smap || rewrite values_lookup_zip).
  rewrite !row_lookup by lia. cbn [fmap option_fmap option_map].
  unfold short_entry. rewrite eqb_true_same.
  now destruct (_ && _ && _).
Qed.
End LongShortFacts.

Ltac series_length :=
  unfold mask_set, ffill, times_one, astype_float;
  repeat (rewrite length_zip_series || rewrite length_ffill_from
          || rewrite length_smap);
  lia.

(** X23 ([long_short.calc_signal]).  On indicator series of one index the
    signal has the rows of the z-score, and on every bar it is the long
    position (1 while a long is held: entered on a bar up to this one and
    not left on that bar nor since), the short position (-1 while a short is
    held), or their sum, as [position] is 0, 1 or another number.  A long
    and a short are never held together, so that the sum is 1, -1 or 0. *)
Theorem calc_signal_follows_positions
    (z bw kzb kzq kbb kbq : Series float64) (parameter : list Q)
    (position : Z) (signal : Series Z) :
  index bw = index z -> index kzb = index z -> index kzq = index z ->
  index kbb = index z -> index kbq = index z ->
  calc_signal z bw kzb kzq kbb kbq parameter position = Ok signal ->
  exists thr f,
    parameter !! 1%nat = Some thr /\ parameter !! 2%nat = Some f /\
    index signal = index z /\
    forall i, (i < length z)%nat ->
      exists long short : bool,
        (long = true <->
         held (long_entry z bw kzb kzq kbb kbq thr f) (long_exit z) i) /\
        (short = true <->
         held (short_entry z bw kzb kzq kbb kbq thr f) (short_exit z) i) /\
        long && short = false /\
        values signal !! i =
          Some (if position =? 0 then if long then 1 else 0
                else if position =? 1 then if short then - 1 else 0
                else (if long then 1 else 0) - (if short then 1 else 0)).
Proof.
  intros Hbw Hkzb Hkzq Hkbb Hkbq Hc.
  apply index_length in Hbw, Hkzb, Hkzq, Hkbb, Hkbq.
  destruct parameter as [|p0 [|thr [|f rest]]]; try discriminate.
  exists thr, f. split; [reflexivity|]. split; [reflexivity|].
  unfold calc_signal in Hc. cbv beta zeta in Hc. injection Hc as <-.
  split.
  - unfold astype_int, fillna. rewrite !index_smap.
    destruct (position =? 0); [|destruct (position =? 1)];
      [| |rewrite index_zip_series by series_length];
      unfold ffill; rewrite index_ffill_from; unfold mask_set;
      rewrite index_zip_series by series_length;
      unfold times_one; now rewrite !index_smap.
  - intros i Hi.
    pose proof (filled_position _ 1 _ _ (length z) ltac:(lia)
      (fun i Hi =>
         raw_position _ _ 1 _ _ i ltac:(lia)
           (longs_entry_row z bw kzb kzq kbb kbq thr f
              Hbw Hkzb Hkzq Hkbb Hkbq i Hi)
           (longs_exit_row z i Hi)) i Hi) as (vl & Hvl & Hcl & Hhl & Hnl).
    pose proof (filled_position _ (- 1) _ _ (length z) ltac:(lia)
      (fun i Hi =>
         raw_position _ _ (- 1) _ _ i ltac:(lia)
           (shorts_entry_row z bw kzb kzq kbb kbq thr f
              Hbw Hkzb Hkzq Hkbb Hkbq i Hi)
           (shorts_exit_row z i Hi)) i Hi) as (vs & Hvs & Hcs & Hhs & Hns).
    match type of Hvl with
    | values ?s !! _ = _ => set (longs := s) in *
    end.
    match type of Hvs with
    | values ?s !! _ = _ => set (shorts := s) in *
    end.
    assert (Hl : exists long : bool,
      (long = true <-> vl = of_Z 1) /\
      vl = (if long then of_Z 1 else vl) /\
      (long = false -> vl = Num 0 \/ vl = NaN)).
    { destruct Hcl as [-> | Hcl].
      - exists true. repeat split; intros; congruence.
      - exists false.
        split; [split; [discriminate|] | split; [reflexivity|]].
        + intros E. rewrite E in Hcl. now destruct Hcl.
        + intros _. exact Hcl. }
    assert (Hs : exists short : bool,
      (short = true <-> vs = of_Z (- 1)) /\
      vs = (if short then of_Z (- 1) else vs) /\
      (short = false -> vs = Num 0 \/ vs = NaN)).
    { destruct Hcs as [-> | Hcs].
      - exists true. repeat split; intros; congruence.
      - exists false.
        split; [split; [discriminate|] | split; [reflexivity|]].
        + intros E. rewrite E in Hcs. now destruct Hcs.
        + intros _. exact Hcs. }
    destruct Hl as (long & Il & El & Nl), Hs as (short & Is & Es & Ns).
    assert (Hsl : long = true -> vs <> NaN).
    { intros H. apply Il, Hhl in H. destruct H as (j & Hj & He & Hx).
      apply Hns. exists j. split; [exact Hj|].
      apply long_entry_negative in He; [exact He | apply Hx; lia]. }
    assert (Hls : short = true -> vl <> NaN).
    { intros H. apply Is, Hhs in H. destruct H as (j & Hj & He & Hx).
      apply Hnl. exists j. split; [exact Hj|].
      apply short_entry_positive in He; [exact He | apply Hx; lia]. }
    assert (Hex : long && short = false).
    { destruct long, short; try reflexivity. exfalso.
      apply (long_short_exclusive z bw kzb kzq kbb kbq thr f i).
      - apply Hhl, Il. reflexivity.
      - apply Hhs, Is. reflexivity. }
    exists long, short. rewrite Il, Is, Hhl, Hhs.
    split; [reflexivity|]. split; [reflexivity|]. split; [exact Hex|].
    unfold astype_int, fillna. rewrite !values_lookup_smap.
    destruct (position =? 0); [|destruct (position =? 1)].
    + rewrite Hvl. destruct long; [now rewrite El|].
      now destruct (Nl eq_refl) as [-> | ->].
    + rewrite Hvs. destruct short; [now rewrite Es|].
      now destruct (Ns eq_refl) as [-> | ->].
    + rewrite values_lookup_zip, Hvl, Hvs.
      destruct long, short; try discriminate Hex.
      * rewrite El. clear Il El Nl.
        destruct (Ns eq_refl) as [-> | ->]; [reflexivity|].
        now destruct (Hsl eq_refl).
      * rewrite Es. clear Is Es Ns.
        destruct (Nl eq_refl) as [-> | ->]; [reflexivity|].
        now destruct (Hls eq_refl).
      * destruct (Nl eq_refl) as [-> | ->], (Ns eq_refl) as [-> | ->];
          reflexivity.
Qed.

Lemma calc_signal_follows_positions_witness :
  let z : Series float64 :=
    [(0, Num (-2)); (60, Num (-1)); (120, Num 1); (180, Num 3);
     (240, Num 2); (300, Num (-1))] in
  let bw : Series float64 :=
    [(0, Num (-3)); (60, Num (-4)); (120, Num 1); (180, Num 2);
     (240, Num 3); (300, Num (-1))] in
  let base : Series float64 :=
    [(0, Num (-2)); (60, Num 0); (120, Num 0); (180, Num 2);
     (240, Num 0); (300, Num 0)] in
  let quote : Series float64 :=
    [(0, Num 2); (60, Num 0); (120, Num 0); (180, Num (-2));
     (240, Num 0); (300, Num 0)] in
  calc_signal z bw base quote base quote [20; 2; 2]%Q 2 =
    Ok [(0, 1); (60, 1); (120, 0); (180, -1); (240, -1); (300, 0)] /\
  exists long short : bool,
    (long = true <->
     held (long_entry z bw base quote base quote 2 2) (long_exit z) 1) /\
    (short = true <->
     held (short_entry z bw base quote base quote 2 2) (short_exit z) 1) /\
    long && short = false /\
    Some 1 = Some ((if long then 1 else 0) - (if short then 1 else 0)).
Proof.
  intros z bw base quote. split; [reflexivity|].
  destruct (calc_signal_follows_positions z bw base quote base quote
              [20; 2; 2]%Q 2
              [(0, 1); (60, 1); (120, 0); (180, -1); (240, -1); (300, 0)]
              eq_refl eq_refl eq_refl eq_refl eq_refl eq_refl)
    as (thr & f & Ht & Hf & _ & H).
  injection Ht as <-. injection Hf as <-.
  exact (H 1%nat ltac:(vm_compute; lia)).
Defined.
